(** * Garden: build command, watch re-entry and their collaborators

    A shallow embedding of

    - [BuildCommand.action] and its [changeHandler] (docs/commands.ts),
    - [RunWorkflowCommand.action] and [runStepCommand] (docs/commands.ts),
    - [enterpriseInit] (enterprise/init.ts),
    - the [Kubectl] wrapper (plugins/kubernetes/kubectl.ts),

    together with the dependency graph, the task model and the execution
    engine these call into.  The graph queries, the task factory and the
    engine are not among the files at hand; they are modelled from the
    design document and marked as such. *)

From Stdlib Require Import List String Bool Arith Lia Relations.
Import ListNotations.
Local Open Scope string_scope.
Local Open Scope list_scope.

(* ------------------------------------------------------------------ *)
(** * JavaScript values used by the sources *)

Module JS.

(** [Array.prototype.includes] on an array of strings. *)
Definition includes (l : list string) (s : string) : bool :=
  existsb (String.eqb s) l.

(** Truthiness of a [string | undefined]: [undefined] and the empty
    string are falsy, every other string is truthy. *)
Definition truthy (v : option string) : bool :=
  match v with
  | None => false
  | Some s => negb (String.eqb s "")
  end.

(** lodash [take]: the first [n] elements. *)
Definition take {A} (l : list A) (n : nat) : list A := firstn n l.

(** [Array.prototype.slice(n)]: everything from index [n] on. *)
Definition slice {A} (l : list A) (n : nat) : list A := skipn n l.

End JS.

(* ------------------------------------------------------------------ *)
(** * Reachability by a work list

    A traversal that follows a successor function from a frontier and
    never expands a node twice.  Used by the dependency graph for its
    recursive queries. *)

Module Traversal.

Section Defs.

Context {A : Type}.
Variable A_eqb : A -> A -> bool.
Variable next : A -> list A.

Definition mem (a : A) (l : list A) : bool := existsb (A_eqb a) l.

(** [visited] holds the nodes expanded so far, most recent first.  A
    frontier node that is already in [visited] is dropped without
    being expanded again. *)
Fixpoint traverse (fuel : nat) (frontier visited : list A) : list A :=
  match fuel with
  | O => visited
  | S k =>
      match frontier with
      | [] => visited
      | n :: rest =>
          if mem n visited then traverse k rest visited
          else traverse k (next n ++ rest) (n :: visited)
      end
  end.

(** Work still to do: for each node of the universe [U] not yet
    visited, one expansion and the successors it pushes. *)
Definition cost (u : A) : nat := S (List.length (next u)).

Definition weight (U visited : list A) : nat :=
  list_sum (map cost (filter (fun u => negb (mem u visited)) U)).

Definition edgeRel (a b : A) : Prop := In b (next a).

(** Every successor of a visited node is visited or waiting. *)
Definition closed_in (visited frontier : list A) : Prop :=
  forall v w, In v visited -> In w (next v) ->
              In w visited \/ In w frontier.

(** The nodes reachable from [start] in one step or more, in the
    order in which the traversal first expands them.  [U] lists every
    node that is a successor of some node; it bounds the work. *)
Definition reachable (U : list A) (start : A) : list A :=
  rev (traverse (S (List.length (next start) + weight U []))
                (next start) []).

End Defs.

End Traversal.

(* ------------------------------------------------------------------ *)
(** * Dependency graph *)

Module Graph.

(** Modelled from the spec: the config graph behind
    [garden.getConfigGraph] is not among the sources at hand; this module
    follows the Dependency Graph of the design document.  The kinds of
    node: a module is a [Build] node, a service a [Deploy] node, a task
    definition a [Run] node and a test definition a [Test] node.  The
    sources name them by the strings "build", "deploy", "run" and "test". *)
Inductive Kind := Build | Deploy | Run | Test.

(** Modelled from the spec: the purpose of a dependency edge. *)
Inductive Purpose := BuildTime | Runtime | TestTime.

(** Modelled from the spec: a node is identified by its kind and name. *)
Record Node := { kind : Kind; name : string }.

(** Modelled from the spec: [dependant] depends on [dependency]. *)
Record Edge := { dependant : Node; dependency : Node; purpose : Purpose }.

(** Modelled from the spec: an immutable snapshot of nodes and edges.
    [nodeVersion] is the version fingerprint the snapshot assigns to each
    node. *)
Record DependencyGraph := {
  nodes : list Node;
  edges : list Edge;
  nodeVersion : Node -> string
}.

Definition Kind_eq_dec (a b : Kind) : {a = b} + {a <> b}.
Proof. decide equality. Defined.

Definition Node_eq_dec (a b : Node) : {a = b} + {a <> b}.
Proof. decide equality; [apply string_dec | apply Kind_eq_dec]. Defined.

Definition Kind_eqb (a b : Kind) : bool :=
  if Kind_eq_dec a b then true else false.

Definition Node_eqb (a b : Node) : bool :=
  if Node_eq_dec a b then true else false.

Definition hasKind (ks : option (list Kind)) (n : Node) : bool :=
  match ks with
  | None => true
  | Some l => existsb (Kind_eqb (kind n)) l
  end.

Definition hasName (ns : option (list string)) (n : Node) : bool :=
  match ns with
  | None => true
  | Some l => JS.includes l (name n)
  end.

(** Modelled from the spec: [getNodes(filter: {kinds?, names?})], whose
    code is not among the sources; a pure query, in which an absent
    component of the filter lets every node through. *)
Definition getNodes (g : DependencyGraph)
           (kinds : option (list Kind)) (names : option (list string))
  : list Node :=
  filter (fun n => hasKind kinds n && hasName names n) (nodes g).

(** Modelled from the spec: [graph.getModules({ names })], whose code is
    not among the sources, is [getNodes] at the kind of modules. *)
Definition getModules (g : DependencyGraph) (names : option (list string))
  : list Node :=
  getNodes g (Some [Build]) names.

(** The nodes with an edge onto [n], one entry per edge. *)
Definition directDependents (g : DependencyGraph) (n : Node) : list Node :=
  map dependant (filter (fun e => Node_eqb (dependency e) n) (edges g)).

(** The nodes [n] has an edge onto, one entry per edge. *)
Definition directDependencies (g : DependencyGraph) (n : Node) : list Node :=
  map dependency (filter (fun e => Node_eqb (dependant e) n) (edges g)).

Record DependentsOpts := {
  kinds : option (list Kind);
  recursive : bool
}.

(** Modelled from the spec: [getDependents(node, {kinds?, recursive})],
    whose code is not among the sources.  Direct dependents when
    [recursive] is false; otherwise a reachability traversal from [node]
    along reversed edges that skips nodes it has already visited.  The
    kinds filter the answer. *)
Definition getDependents (g : DependencyGraph) (node : Node)
           (opts : DependentsOpts) : list Node :=
  let found :=
    if recursive opts
    then Traversal.reachable Node_eqb (directDependents g)
                             (map dependant (edges g)) node
    else nodup Node_eq_dec (directDependents g node) in
  filter (hasKind (kinds opts)) found.

(** The answer of the sources' [getDependants]: dependants by kind. *)
Record DependencyRelations := {
  build : list Node;
  deploy : list Node;
  run : list Node;
  test : list Node
}.

(** Modelled from the spec: [graph.getDependants({ nodeType, name,
    recursive })], called by the change handler and not among the sources,
    answers [getDependents] once per kind. *)
Definition getDependants (g : DependencyGraph) (nodeType : Kind)
           (nm : string) (rec : bool) : DependencyRelations :=
  let q k := getDependents g {| kind := nodeType; name := nm |}
                           {| kinds := Some [k]; recursive := rec |} in
  {| build := q Build; deploy := q Deploy; run := q Run; test := q Test |}.

(** [b] depends directly on [a] in [g]. *)
Definition dependentOf (g : DependencyGraph) (a b : Node) : Prop :=
  exists e, In e (edges g) /\ dependency e = a /\ dependant e = b.

End Graph.

(* ------------------------------------------------------------------ *)
(** * Tasks *)

Module Task.

(** Modelled from the spec: the task classes ([BuildTask] and its base)
    are not among the sources at hand.  The dedup key (kind, name,
    version). *)
Record Key := {
  k_kind : Graph.Kind;
  k_name : string;
  k_version : string
}.

(** Modelled from the spec: a unit of work
    [{ kind, targetName, version, dependencyTaskKeys, force }]. *)
Record Task := {
  kind : Graph.Kind;
  targetName : string;
  version : string;
  dependencyTaskKeys : list Key;
  force : bool
}.

Definition key (t : Task) : Key :=
  {| k_kind := kind t; k_name := targetName t; k_version := version t |}.

Definition Key_eq_dec (a b : Key) : {a = b} + {a <> b}.
Proof. decide equality; try apply string_dec. apply Graph.Kind_eq_dec. Defined.

Definition Key_eqb (a b : Key) : bool :=
  if Key_eq_dec a b then true else false.

(** The key of the task of kind [k] for node [n] of snapshot [g]. *)
Definition keyFor (g : Graph.DependencyGraph) (k : Graph.Kind)
           (n : Graph.Node) : Key :=
  {| k_kind := k; k_name := Graph.name n;
     k_version := Graph.nodeVersion g n |}.

(** Modelled from the spec: [BuildTask.factory({ garden, graph, log,
    module, force })], whose code is not among the sources.  Given a node
    and a graph the task factory produces a task whose
    [dependencyTaskKeys] are the keys of the same-kind tasks of the node's
    direct dependencies in that graph.  The callers flatten what the
    factory returns, so the task comes in a one-element array. *)
Definition BuildTask_factory (graph : Graph.DependencyGraph)
           (module : Graph.Node) (force : bool) : list Task :=
  [ {| kind := Graph.Build;
       targetName := Graph.name module;
       version := Graph.nodeVersion graph module;
       dependencyTaskKeys :=
         map (keyFor graph Graph.Build)
             (Graph.directDependencies graph module);
       force := force |} ].

End Task.

(* ------------------------------------------------------------------ *)
(** * The build command (docs/commands.ts) *)

Module BuildCommand.

Record Args := { modules : option (list string) }.

Record Opts := { force : bool; watch : bool }.

(** [isPersistent = (opts) => !!opts.watch] *)
Definition isPersistent (opts : Opts) : bool := watch opts.

(** What [action] hands to [processModules]. *)
Record ProcessModulesParams := {
  p_graph : Graph.DependencyGraph;
  p_modules : list Graph.Node;
  p_watch : bool;
  p_initialTasks : list Task.Task;
  p_changeHandler : Graph.DependencyGraph -> Graph.Node -> list Task.Task
}.

(** [const moduleNames = modules.map((m) => m.name)] *)
Definition moduleNames (modules : list Graph.Node) : list string :=
  map Graph.name modules.

(** [flatten(await Bluebird.map(modules, (module) =>
      BuildTask.factory({ garden, graph, log, module, force: opts.force })))] *)
Definition initialTasks (graph : Graph.DependencyGraph)
           (modules : list Graph.Node) (opts : Opts) : list Task.Task :=
  List.concat
    (map (fun module => Task.BuildTask_factory graph module (force opts))
         modules).

(** The modules a change of [module] leads to new tasks for:
    [[module].concat(deps.build).filter((m) => moduleNames.includes(m.name))]
    with [deps] the recursive dependants of the build node named
    [module.name] in [newGraph]. *)
Definition changedModules (moduleNames : list string)
           (newGraph : Graph.DependencyGraph) (module : Graph.Node)
  : list Graph.Node :=
  let deps :=
    Graph.getDependants newGraph Graph.Build (Graph.name module) true in
  filter (fun m => JS.includes moduleNames (Graph.name m))
         ([module] ++ Graph.build deps).

(** The change handler closes over [graph] and [moduleNames] of the
    command's action; the watcher supplies [newGraph] and [module].  The
    factory is called with [graph], the handler's own [newGraph] being
    used for the query of dependants only. *)
Definition changeHandler (graph : Graph.DependencyGraph)
           (moduleNames : list string)
           (newGraph : Graph.DependencyGraph) (module : Graph.Node)
  : list Task.Task :=
  List.concat
    (map (fun m => Task.BuildTask_factory graph m true)
         (changedModules moduleNames newGraph module)).

(** [BuildCommand.action] up to its call of [processModules]; [graph] is
    what [garden.getConfigGraph(log)] returned. *)
Definition action (graph : Graph.DependencyGraph) (args : Args)
           (opts : Opts) : ProcessModulesParams :=
  let mods := Graph.getModules graph (modules args) in
  let names := moduleNames mods in
  {| p_graph := graph;
     p_modules := mods;
     p_watch := watch opts;
     p_initialTasks := initialTasks graph mods opts;
     p_changeHandler := changeHandler graph names |}.

(** [d] is a build node that depends, in one step or more, on the build
    node named like [module] in [newGraph]. *)
Definition affected (newGraph : Graph.DependencyGraph)
           (module d : Graph.Node) : Prop :=
  Graph.kind d = Graph.Build /\
  clos_trans Graph.Node (Graph.dependentOf newGraph)
             {| Graph.kind := Graph.Build; Graph.name := Graph.name module |} d.

(** Some task of [tasks] is a forced task for the target [n]. *)
Definition forcedFor (tasks : list Task.Task) (n : string) : Prop :=
  exists t, In t tasks /\ Task.targetName t = n /\ Task.force t = true.

(** The reading of the watch step under which the changed module always
    gets a task: a forced task for the changed module and for every
    affected dependant among the requested names, and no task for a name
    that was not requested. *)
Definition rebuildsChangedAndScoped (graph : Graph.DependencyGraph)
           (moduleNames : list string)
           (newGraph : Graph.DependencyGraph) (module : Graph.Node) : Prop :=
  let tasks := changeHandler graph moduleNames newGraph module in
  forcedFor tasks (Graph.name module) /\
  (forall d, affected newGraph module d -> In (Graph.name d) moduleNames ->
             forcedFor tasks (Graph.name d)) /\
  (forall t, In t tasks -> In (Task.targetName t) moduleNames).

(** The reading of the watch scenario under which a change of C re-runs
    C and B and leaves A alone. *)
Definition rerunsOnlyCAndB (executed : list string) : Prop :=
  In "C" executed /\ In "B" executed /\ ~ In "A" executed.

End BuildCommand.

(* ------------------------------------------------------------------ *)
(** * Execution engine *)

Module Engine.

Import Task.

(** Modelled from the spec: the engine that [processModules] runs the
    tasks on is not among the sources at hand; this module follows the
    Execution Engine of the design document.  How a result came about: a
    failed execution and a skip after a failed prerequisite are told
    apart, and so is a result reused from an earlier round. *)
Inductive Outcome := Executed | SkippedDueToDependencyFailure | Cached.

(** Modelled from the spec: [{ key, success, output, error?, durationMs }]
    together with the kind of the result. *)
Record TaskResult := {
  r_key : Key;
  outcome : Outcome;
  success : bool;
  output : string;
  error : option string;
  durationMs : nat
}.

(** What the execution hook hands back, or the error it raised. *)
Record HookResult := {
  h_success : bool;
  h_output : string;
  h_error : option string;
  h_durationMs : nat
}.

Inductive HookReturn := Return (h : HookResult) | Raise (err : string).

(** Modelled from the spec: the engine-internal state of one key. *)
Inductive Status := Pending | Running | Done (r : TaskResult).

Definition Entry : Type := Task * Status.

Definition ekey (e : Entry) : Key := key (fst e).

Definition isPending (e : Entry) : bool :=
  match snd e with Pending => true | _ => false end.

Definition isRunning (e : Entry) : bool :=
  match snd e with Running => true | _ => false end.

Definition isDone (e : Entry) : bool :=
  match snd e with Done _ => true | _ => false end.

(** Modelled from the spec: an execution that raises is captured as a
    failure result for the key. *)
Definition capture (t : Task) (h : HookReturn) : TaskResult :=
  match h with
  | Return r =>
      {| r_key := key t; outcome := Executed; success := h_success r;
         output := h_output r; error := h_error r;
         durationMs := h_durationMs r |}
  | Raise err =>
      {| r_key := key t; outcome := Executed; success := false;
         output := ""; error := Some err; durationMs := 0 |}
  end.

Definition skipped (t : Task) : TaskResult :=
  {| r_key := key t; outcome := SkippedDueToDependencyFailure;
     success := false; output := ""; error := None; durationMs := 0 |}.

Definition reused (t : Task) (r : TaskResult) : TaskResult :=
  {| r_key := key t; outcome := Cached; success := true;
     output := output r; error := None; durationMs := 0 |}.

(** Modelled from the spec: seeding deduplicates by key and keeps the
    task with [force = true] if either of two has it. *)
Fixpoint insertTask (t : Task) (l : list Entry) : list Entry :=
  match l with
  | [] => [(t, Pending)]
  | e :: l' =>
      if Key_eqb (ekey e) (key t)
      then (if isPending e && force t && negb (force (fst e))
            then (t, Pending) else e) :: l'
      else e :: insertTask t l'
  end.

Definition seed (tasks : list Task) : list Entry :=
  fold_left (fun acc t => insertTask t acc) tasks [].

Definition lookup (k : Key) (l : list Entry) : option Entry :=
  find (fun e => Key_eqb (ekey e) k) l.

(** The recorded result of key [k], if any. *)
Definition resultOf (k : Key) (l : list Entry) : option TaskResult :=
  match lookup k l with
  | Some (_, Done r) => Some r
  | _ => None
  end.

Definition setStatus (k : Key) (st : Status) (l : list Entry) : list Entry :=
  map (fun e => if Key_eqb (ekey e) k then (fst e, st) else e) l.

Definition succeeded (l : list Entry) (d : Key) : bool :=
  match resultOf d l with
  | Some r => success r
  | None => false
  end.

Definition failed (l : list Entry) (d : Key) : bool :=
  match resultOf d l with
  | Some r => negb (success r)
  | None => false
  end.

(** Modelled from the spec: a task is ready when every key it depends
    on has a recorded result; it runs if they all succeeded ... *)
Definition ready (l : list Entry) (t : Task) : bool :=
  forallb (succeeded l) (dependencyTaskKeys t).

(** ... and is skipped once one of them has failed or was skipped. *)
Definition blocked (l : list Entry) (t : Task) : bool :=
  existsb (failed l) (dependencyTaskKeys t).

Definition lookupMemo (k : Key) (memo : list TaskResult) : option TaskResult :=
  find (fun r => Key_eqb (r_key r) k) memo.

(** Modelled from the spec: a task without [force] whose key has a
    previously recorded successful result is served from it. *)
Definition cacheHit (memo : list TaskResult) (t : Task) : option TaskResult :=
  if force t then None
  else match lookupMemo (key t) memo with
       | Some r => if success r then Some r else None
       | None => None
       end.

(** Modelled from the spec: a round covers the transitive closure of the
    initial tasks by dependency key, while a task carries the keys of its
    dependencies only.  The task behind a dependency key is the one the
    task factory makes for the node the key names, on the snapshot of the
    round: its kind, target and version are those of the key (a key is
    these three), its dependency keys are the same-kind keys of the
    node's direct dependencies in the snapshot, and it is not forced
    (only what comes forced is executed again in a round of the watch
    loop).  A key that names no node of the snapshot has no task. *)
Definition dependencyTask (graph : Graph.DependencyGraph) (d : Key)
  : option Task :=
  let node := {| Graph.kind := k_kind d; Graph.name := k_name d |} in
  if existsb (Graph.Node_eqb node) (Graph.nodes graph)
  then Some {| kind := k_kind d;
               targetName := k_name d;
               version := k_version d;
               dependencyTaskKeys :=
                 map (keyFor graph (k_kind d))
                     (Graph.directDependencies graph node);
               force := false |}
  else None.

(** The task of key [k]: the one entered under that key, if any, and the
    task behind the dependency key otherwise. *)
Definition taskOf (graph : Graph.DependencyGraph) (l : list Entry) (k : Key)
  : option Task :=
  match lookup k l with
  | Some e => Some (fst e)
  | None => dependencyTask graph k
  end.

Definition dependencyKeysOf (graph : Graph.DependencyGraph) (l : list Entry)
           (k : Key) : list Key :=
  match taskOf graph l k with
  | Some t => dependencyTaskKeys t
  | None => []
  end.

Definition allKinds : list Graph.Kind :=
  [Graph.Build; Graph.Deploy; Graph.Run; Graph.Test].

(** Every key a traversal from the entries [l] can come across; it
    bounds the work. *)
Definition keyUniverse (graph : Graph.DependencyGraph) (l : list Entry)
  : list Key :=
  map ekey l
    ++ flat_map (fun e => dependencyTaskKeys (fst e)) l
    ++ flat_map (fun k => map (keyFor graph k)
                              (map Graph.dependency (Graph.edges graph)))
                allKinds.

(** The keys reachable from the entries [l] along dependency keys, the
    keys of [l] included, in the order in which they are first met. *)
Definition closureKeys (graph : Graph.DependencyGraph) (l : list Entry)
  : list Key :=
  rev (Traversal.traverse
         Key_eqb (dependencyKeysOf graph l)
         (S (List.length (map ekey l)
             + Traversal.weight Key_eqb (dependencyKeysOf graph l)
                                (keyUniverse graph l) []))
         (map ekey l) []).

(** The entries the closure adds to [l]: one pending entry for every
    reachable key that has a task and no entry yet. *)
Definition derived (graph : Graph.DependencyGraph) (l : list Entry)
  : list Entry :=
  flat_map (fun d => match lookup d l with
                     | Some _ => []
                     | None => match dependencyTask graph d with
                               | Some t => [(t, Pending)]
                               | None => []
                               end
                     end)
           (closureKeys graph l).

Definition close (graph : Graph.DependencyGraph) (l : list Entry)
  : list Entry :=
  l ++ derived graph l.

(** Modelled from the spec: tasks enter an engine instance deduplicated by
    key, together with the tasks behind their dependency keys. *)
Definition enter (graph : Graph.DependencyGraph) (tasks : list Task)
           (l : list Entry) : list Entry :=
  close graph (fold_left (fun acc t => insertTask t acc) tasks l).

Section WithHook.

(** The action-dispatch layer: the state of the outside world and the
    [execute(task)] hook acting on it; the snapshot the round runs on. *)
Variable W : Type.
Variable execute : Task -> W -> W * HookReturn.
Variable graph : Graph.DependencyGraph.

(** Modelled from the spec: the state of an engine instance during a
    round.  [entries] maps keys to their state, [memo] holds the
    results of earlier rounds, [executed] lists the tasks the hook has
    been applied to, in order, and [world] is what the hook has made of
    the outside world. *)
Record State := {
  entries : list Entry;
  memo : list TaskResult;
  executed : list Task;
  world : W
}.

Definition runningCount (s : State) : nat :=
  List.length (filter isRunning (entries s)).

(** A runner takes the task on. *)
Definition start (s : State) (t : Task) : State :=
  {| entries := setStatus (key t) Running (entries s);
     memo := memo s;
     executed := executed s;
     world := world s |}.

(** The runner's call of the hook: its effect on the world and the
    result recorded from what it handed back. *)
Definition finish (s : State) (t : Task) : State :=
  let (w, h) := execute t (world s) in
  {| entries := setStatus (key t) (Done (capture t h)) (entries s);
     memo := memo s;
     executed := executed s ++ [t];
     world := w |}.

Definition record (s : State) (t : Task) (r : TaskResult) : State :=
  {| entries := setStatus (key t) (Done r) (entries s);
     memo := memo s;
     executed := executed s;
     world := world s |}.

Definition submit (s : State) (t : Task) : State :=
  {| entries := enter graph [t] (entries s);
     memo := memo s;
     executed := executed s;
     world := world s |}.

(** Modelled from the spec: the moves of the scheduler.  Which enabled
    move is taken, and in which order runs complete, is left open. *)
Inductive step (limit : nat) (s : State) : State -> Prop :=
| step_skip t :
    In (t, Pending) (entries s) ->
    blocked (entries s) t = true ->
    step limit s (record s t (skipped t))
| step_cached t r :
    In (t, Pending) (entries s) ->
    ready (entries s) t = true ->
    cacheHit (memo s) t = Some r ->
    step limit s (record s t (reused t r))
| step_start t :
    In (t, Pending) (entries s) ->
    ready (entries s) t = true ->
    cacheHit (memo s) t = None ->
    runningCount s < limit ->
    step limit s (start s t)
| step_finish t :
    In (t, Running) (entries s) ->
    step limit s (finish s t)
| step_submit t :
    step limit s (submit s t).

Definition init (tasks : list Task) (m : list TaskResult) (w : W) : State :=
  {| entries := enter graph tasks []; memo := m; executed := []; world := w |}.

(** One move of a scheduler that skips first, then serves from the
    memo, then starts what fits under the limit, then lets the first
    run in flight complete. *)
Definition sched (limit : nat) (s : State) : option State :=
  let l := entries s in
  match find (fun e => isPending e && blocked l (fst e)) l with
  | Some e => Some (record s (fst e) (skipped (fst e)))
  | None =>
    match find (fun e => isPending e && ready l (fst e)) l with
    | Some e =>
        match cacheHit (memo s) (fst e) with
        | Some r => Some (record s (fst e) (reused (fst e) r))
        | None =>
            if Nat.ltb (runningCount s) limit then Some (start s (fst e))
            else match find isRunning l with
                 | Some e' => Some (finish s (fst e'))
                 | None => None
                 end
        end
    | None =>
        match find isRunning l with
        | Some e' => Some (finish s (fst e'))
        | None => None
        end
    end
  end.

Fixpoint run (limit fuel : nat) (s : State) : State :=
  match fuel with
  | O => s
  | S k => match sched limit s with
           | Some s' => run limit k s'
           | None => s
           end
  end.

(** Moves still owed by the entries: two for a pending one (start and
    completion), one for a running one. *)
Definition owed (e : Entry) : nat :=
  match snd e with Pending => 2 | Running => 1 | Done _ => 0 end.

Definition debt (l : list Entry) : nat := list_sum (map owed l).

(** Modelled from the spec: [process(initialTasks, concurrencyLimit)]
    on an engine instance with memo [m], on the snapshot [graph].  The
    round covers the initial tasks and the tasks behind their dependency
    keys, and goes on until the scheduler has no move left. *)
Definition process (limit : nat) (tasks : list Task)
           (m : list TaskResult) (w : W) : State :=
  let s := init tasks m w in
  run limit (debt (entries s)) s.

(** The world after the hook has been applied to the tasks [ts] in
    turn, starting from [w]. *)
Definition replay (ts : list Task) (w : W) : W :=
  fold_left (fun w' t => fst (execute t w')) ts w.

(** The result map handed to the caller. *)
Definition resultMap (s : State) : list TaskResult :=
  flat_map (fun e => match snd e with Done r => [r] | _ => [] end)
           (entries s).

(** The memo of the instance after a round: the round's results
    shadow older ones of the same key. *)
Definition settle (s : State) : list TaskResult :=
  resultMap s ++ memo s.

Definition complete (s : State) : Prop :=
  forall e, In e (entries s) -> isDone e = true.

End WithHook.

Arguments entries {W} _.
Arguments memo {W} _.
Arguments executed {W} _.
Arguments world {W} _.
Arguments runningCount {W} s.
Arguments start {W} s t.
Arguments finish {W} execute s t.
Arguments record {W} s t r.
Arguments submit {W} graph s t.
Arguments step {W} execute graph limit s _.
Arguments init {W} graph tasks m w.
Arguments sched {W} execute limit s.
Arguments run {W} execute limit fuel s.
Arguments process {W} execute graph limit tasks m w.
Arguments replay {W} execute ts w.
Arguments resultMap {W} s.
Arguments settle {W} s.
Arguments complete {W} s.

(** A set of tasks the engine can finish: every key a task depends on is
    the key of a task of the set, and dependencies descend along some
    ranking of the keys (no cycles). *)
Definition wellFormed (tasks : list Task) : Prop :=
  exists rank : Key -> nat,
    forall t d, In t tasks -> In d (dependencyTaskKeys t) ->
                In d (map key tasks) /\ rank d < rank (key t).

(** The hook has been applied for an entry in this state. *)
Definition hookRan (st : Status) : Prop :=
  match st with
  | Done r => outcome r = Executed
  | _ => False
  end.

(** What the state of an entry says about the keys it depends on and
    about the memo [m] of the instance. *)
Definition entryOk (m : list TaskResult) (l : list Entry) (e : Entry) : Prop :=
  match snd e with
  | Pending => True
  | Running => ready l (fst e) = true /\ cacheHit m (fst e) = None
  | Done r =>
      r_key r = ekey e /\
      match outcome r with
      | Executed => ready l (fst e) = true /\ cacheHit m (fst e) = None
      | Cached =>
          success r = true /\ ready l (fst e) = true /\
          cacheHit m (fst e) <> None
      | SkippedDueToDependencyFailure =>
          success r = false /\ blocked l (fst e) = true
      end
  end.

(** The entry of task [t] holds an executed result. *)
Definition ranTask (l : list Entry) (t : Task) : Prop :=
  exists st, In (t, st) l /\ hookRan st.

(** The invariant of a round: one entry per key, every entry justified,
    and the hook applied once to exactly the tasks whose entry holds an
    executed result. *)
Definition Inv {W : Type} (s : State W) : Prop :=
  NoDup (map ekey (entries s)) /\
  (forall e, In e (entries s) -> entryOk (memo s) (entries s) e) /\
  NoDup (map key (executed s)) /\
  (forall t, In t (executed s) <-> ranTask (entries s) t).

(** What a round that began in the world [w0] with nothing executed has
    made of it: the world is the hook applied to the executed tasks in
    turn, and every executed result is what the hook handed back when it
    was applied to the task. *)
Definition Traced {W : Type} (execute : Task -> W -> W * HookReturn)
           (w0 : W) (s : State W) : Prop :=
  world s = replay execute (executed s) w0 /\
  forall t r, In (t, Done r) (entries s) -> outcome r = Executed ->
    exists pre post,
      executed s = pre ++ t :: post /\
      r = capture t (snd (execute t (replay execute pre w0))).

(** The states a round can be in. *)
Definition reachable {W : Type} (execute : Task -> W -> W * HookReturn)
           (graph : Graph.DependencyGraph)
           (limit : nat) (s0 s : State W) : Prop :=
  clos_refl_trans_n1 (State W) (step execute graph limit) s0 s.

(** Key [a] has a task that names key [b] among its dependencies. *)
Definition dependsOn (l : list Entry) (a b : Key) : Prop :=
  exists t, In t (map fst l) /\ key t = a /\ In b (dependencyTaskKeys t).

(** The execution of key [k] was run and failed. *)
Definition failedExecution (l : list Entry) (k : Key) : Prop :=
  exists r, resultOf k l = Some r /\ outcome r = Executed /\ success r = false.

(** Key [k] cannot run as things stand: it waits, or was not successful. *)
Definition held (l : list Entry) (k : Key) : Prop :=
  (exists t, In (t, Pending) l /\ key t = k) \/
  (exists t r, In (t, Done r) l /\ key t = k /\ success r = false).

(** Key [k] waits or was skipped after a failed prerequisite. *)
Definition heldBack (l : list Entry) (k : Key) : Prop :=
  (exists t, In (t, Pending) l /\ key t = k) \/
  (exists t r, In (t, Done r) l /\ key t = k /\
               outcome r = SkippedDueToDependencyFailure /\ success r = false).

(** An entry in flight for key [k]. *)
Definition inFlight (l : list Entry) (k : Key) : Prop :=
  exists t, In (t, Running) l /\ key t = k.

End Engine.


(* ------------------------------------------------------------------ *)
(** * The watch loop *)

Module Watch.

Section WithHook.

Variable W : Type.
Variable execute : Task.Task -> W -> W * Engine.HookReturn.

(** A change notification: the refreshed snapshot and the changed module. *)
Definition Change : Type := Graph.DependencyGraph * Graph.Node.

(** Modelled from the spec: the watch loop inside [processModules], whose
    code is not among the sources.  Each change notification is turned
    into tasks by the command's change handler and these re-enter the same
    engine instance, whose memo and world carry over from the round
    before; the round runs on the refreshed snapshot.  The rounds are
    returned in order. *)
Fixpoint rounds (limit : nat)
         (handler : Graph.DependencyGraph -> Graph.Node -> list Task.Task)
         (m : list Engine.TaskResult) (w : W) (changes : list Change)
  : list (Engine.State W) :=
  match changes with
  | [] => []
  | (newGraph, module) :: rest =>
      let s := Engine.process execute newGraph limit
                              (handler newGraph module) m w in
      s :: rounds limit handler (Engine.settle s) (Engine.world s) rest
  end.

(** Modelled from the spec: [processModules], whose code is not among the
    sources.  The initial tasks run on a fresh engine instance, on the
    snapshot the command passes; in watch mode the change notifications
    follow. *)
Definition processModules (limit : nat)
           (p : BuildCommand.ProcessModulesParams) (w : W)
           (changes : list Change) : list (Engine.State W) :=
  let s0 := Engine.process execute (BuildCommand.p_graph p) limit
                           (BuildCommand.p_initialTasks p) [] w in
  s0 :: (if BuildCommand.p_watch p
         then rounds limit (BuildCommand.p_changeHandler p)
                     (Engine.settle s0) (Engine.world s0) changes
         else []).

(** The names of the targets the hook was applied to in a round, in
    order. *)
Definition executedNames (s : Engine.State W) : list string :=
  map Task.targetName (Engine.executed s).

End WithHook.

Arguments rounds {W} execute limit handler m w changes.
Arguments processModules {W} execute limit p w changes.
Arguments executedNames {W} s.

End Watch.

(* ------------------------------------------------------------------ *)
(** * Enterprise initialisation (enterprise/init.ts) *)

Module Enterprise.

Definition StringMap : Type := list (string * string).

(** The two fields of the project configuration [enterpriseInit] reads. *)
Record ProjectConfig := {
  id : option string;
  domain : option string
}.

(** What the collaborators answer: the token in local storage, the
    verdict of the backend on a token, and the secrets it serves. *)
Record Backend := {
  readAuthToken : option string;
  checkClientAuthToken : string -> string -> bool;
  getSecrets : string -> string -> string -> string -> StringMap
}.

(** The calls made on the way, in order. *)
Inductive Call :=
| ReadAuthToken
| CheckClientAuthToken (clientAuthToken domain : string)
| GetSecrets (projectId enterpriseDomain clientAuthToken environmentName : string)
| Warn (message : string).

Inductive Error := ConfigurationError (message : string).

Record InitResult := {
  clientAuthToken : option string;
  secrets : StringMap
}.

Inductive Outcome :=
| Returned (r : InitResult)
| Threw (e : Error).

Definition nl : string := String (Ascii.ascii_of_nat 10) EmptyString.

Definition domainMessage : string :=
  "project.domain is not set in your project-level garden.yml. Make sure it is set to the appropriate API backend endpoint (e.g. http://myusername-cloud-api.cloud.dev.garden.io, with an http/https prefix).".

Definition idMessage : string :=
  "project.id is not set in your project-level garden.yml. Please visit Garden Enterprise's web UI for your project and copy your project's ID from there.".

Definition logoutHint : string :=
  "Logging out via the garden logout command will suppress this message.".

Definition expiredMessage : string :=
  "You were previously logged in to Garden Enterprise, but your session has expired or is invalid. Please run garden login to continue using enterprise features, or run garden logout to suppress this message.".

(** The message of the error, from the messages collected. *)
Definition errorText (errorMessages : list string) : string :=
  String.append (String.concat (String.append nl nl) errorMessages)
                (String.append (String.append nl nl) logoutHint).

(** [enterpriseInit({ log, projectConfig, environmentName })]: the calls
    it makes and how it ends. *)
Definition enterpriseInit (backend : Backend) (projectConfig : ProjectConfig)
           (environmentName : string) : list Call * Outcome :=
  let projectId := id projectConfig in
  let dom := domain projectConfig in
  let token := readAuthToken backend in
  let none := {| clientAuthToken := token; secrets := [] |} in
  if JS.truthy token then
    if negb (JS.truthy dom) || negb (JS.truthy projectId) then
      let errorMessages :=
        (if negb (JS.truthy dom) then [domainMessage] else []) ++
        (if negb (JS.truthy projectId) then [idMessage] else []) in
      if Nat.ltb 0 (List.length errorMessages)
      then ([ReadAuthToken], Threw (ConfigurationError (errorText errorMessages)))
      else ([ReadAuthToken], Returned none)
    else
      match token, dom, projectId with
      | Some tok, Some d, Some pid =>
          if checkClientAuthToken backend tok d
          then ([ReadAuthToken; CheckClientAuthToken tok d;
                 GetSecrets pid d tok environmentName],
                Returned {| clientAuthToken := token;
                            secrets := getSecrets backend pid d tok
                                                  environmentName |})
          else ([ReadAuthToken; CheckClientAuthToken tok d;
                 Warn expiredMessage],
                Returned none)
      | _, _, _ => ([ReadAuthToken], Returned none)
      end
  else ([ReadAuthToken], Returned none).

Definition isBackendCall (c : Call) : bool :=
  match c with
  | CheckClientAuthToken _ _ | GetSecrets _ _ _ _ => true
  | _ => false
  end.

Definition isWarn (c : Call) : bool :=
  match c with Warn _ => true | _ => false end.

End Enterprise.

(* ------------------------------------------------------------------ *)
(** * The kubectl wrapper (plugins/kubernetes/kubectl.ts) *)

Module Kubectl.

(** [provider.config]: the context and the optional kubeconfig path. *)
Record ProviderConfig := {
  context : string;
  kubeconfig : option string
}.

(** [KubectlParams], less the logger and the process options that
    [prepareArgs] does not read. *)
Record KubectlParams := {
  namespace : option string;
  configPath : option string;
  args : list string
}.

Definition flag (name : string) (v : option string) : list string :=
  match v with
  | Some s => if JS.truthy v then [String.append name s] else []
  | None => []
  end.

(** [prepareArgs(params)] replaces [params.args] by the options followed
    by the arguments it found there. *)
Definition prepareArgs (config : ProviderConfig) (params : KubectlParams)
  : KubectlParams :=
  let opts :=
    [String.append "--context=" (context config)]
      ++ flag "--kubeconfig=" (kubeconfig config)
      ++ flag "--namespace=" (namespace params)
      ++ flag "--kubeconfig=" (configPath params) in
  {| namespace := namespace params;
     configPath := configPath params;
     args := opts ++ args params |}.

(** The methods of [PluginTool] the wrapper forwards to. *)
Inductive Method := Stdout | Exec | Spawn | SpawnAndWait.

(** A call of a [super] method: a kubectl invocation. *)
Record Invocation := {
  method : Method;
  params : KubectlParams
}.

Definition stdout (config : ProviderConfig) (p : KubectlParams) : Invocation :=
  {| method := Stdout; params := prepareArgs config p |}.

Definition exec (config : ProviderConfig) (p : KubectlParams) : Invocation :=
  {| method := Exec; params := prepareArgs config p |}.

Definition spawn (config : ProviderConfig) (p : KubectlParams) : Invocation :=
  {| method := Spawn; params := prepareArgs config p |}.

Definition spawnAndWait (config : ProviderConfig) (p : KubectlParams)
  : Invocation :=
  {| method := SpawnAndWait; params := prepareArgs config p |}.

(** [json] pushes "--output=json" onto [params.args] unless it is there
    and goes through [stdout]. *)
Definition json (config : ProviderConfig) (p : KubectlParams) : Invocation :=
  let p' :=
    if negb (JS.includes (args p) "--output=json")
    then {| namespace := namespace p; configPath := configPath p;
            args := args p ++ ["--output=json"] |}
    else p in
  stdout config p'.

(** The five entry points of the wrapper. *)
Inductive Entry := ViaStdout | ViaExec | ViaSpawn | ViaSpawnAndWait | ViaJson.

Definition invoke (e : Entry) : ProviderConfig -> KubectlParams -> Invocation :=
  match e with
  | ViaStdout => stdout
  | ViaExec => exec
  | ViaSpawn => spawn
  | ViaSpawnAndWait => spawnAndWait
  | ViaJson => json
  end.

(** The arguments of the caller as the forwarded method gets to see them
    after the options. *)
Definition callerArgs (e : Entry) (p : KubectlParams) : list string :=
  match e with
  | ViaJson =>
      if negb (JS.includes (args p) "--output=json")
      then args p ++ ["--output=json"] else args p
  | _ => args p
  end.

End Kubectl.

(* ------------------------------------------------------------------ *)
(** * The workflow command (docs/commands.ts) *)

Module Workflow.

(** A step of a workflow: the command to run and an optional description. *)
Record WorkflowStep := {
  command : list string;
  description : option string
}.

Record WorkflowConfig := {
  name : string;
  steps : list WorkflowStep
}.

(** What can be thrown while a step runs: the [TypeError] of reading
    [config.prefix] when no command configuration matches, an error of
    [parseCliArgs], or whatever the step's command throws. *)
Inductive Exn :=
| TypeError
| ParameterError (message : string)
| CommandError (message : string).

Inductive Completion :=
| Normal
| Thrown (e : Exn).

(** The lines the action logs. *)
Inductive LogLine :=
| Header (workflowName : string)
| StepHeader (stepIndex stepCount : nat) (stepDescription : option string)
| StepDuration (stepIndex stepCount : nat)
| Completed (workflowName : string).

Fixpoint list_eqb (a b : list string) : bool :=
  match a, b with
  | [], [] => true
  | x :: a', y :: b' => String.eqb x y && list_eqb a' b'
  | _, _ => false
  end.

Section WithCommands.

(** The world the commands act on, the parsed arguments and options, and
    the parameter specifications [parseCliArgs] reads. *)
Variables W Args Opts Spec : Type.

(** What [parseCliArgs(rest, config.args, config.opts)] gives: the parsed
    arguments and options, or the error it throws. *)
Inductive Parsed :=
| ParsedAs (a : Args) (o : Opts)
| Rejected (e : Exn).

Variable parseCliArgs : list string -> Spec -> Spec -> Parsed.
Variable merge : Opts -> Opts -> Opts.

(** [command.action({ garden, log, ..., args, opts })] *)
Record Command := {
  action : W -> Args -> Opts -> W * Completion
}.

Record StepCommandConfig := {
  prefix : list string;
  args : Spec;
  opts : Spec;
  cmdClass : Command
}.

(** The state of a run: the world, the lines logged, and the command
    specifications [runStepCommand] was called with, oldest first. *)
Record Run := {
  world : W;
  log : list LogLine;
  ran : list (list string)
}.

(** [runStepCommand({ commandSpec, inheritedOpts, stepCommandConfigs, ... })] *)
Definition runStepCommand (stepCommandConfigs : list StepCommandConfig)
           (commandSpec : list string) (inheritedOpts : Opts) (w : W)
  : W * Completion :=
  match find (fun c => list_eqb (prefix c)
                                (JS.take commandSpec (List.length (prefix c))))
             stepCommandConfigs with
  | None => (w, Thrown TypeError)
  | Some config =>
      let rest := JS.slice commandSpec (List.length (prefix config)) in
      match parseCliArgs rest (args config) (opts config) with
      | Rejected e => (w, Thrown e)
      | ParsedAs a o => action (cmdClass config) w a (merge inheritedOpts o)
      end
  end.

(** The body of the loop over [steps.entries()], from index [index] on. *)
Fixpoint runSteps (stepCommandConfigs : list StepCommandConfig)
         (inheritedOpts : Opts) (stepCount index : nat)
         (todo : list WorkflowStep) (r : Run) : Run * Completion :=
  match todo with
  | [] => (r, Normal)
  | step :: rest =>
      let headed := log r ++ [StepHeader index stepCount (description step)] in
      let called := ran r ++ [command step] in
      match runStepCommand stepCommandConfigs (command step)
                           inheritedOpts (world r) with
      | (w, Thrown err) =>
          ({| world := w; log := headed; ran := called |}, Thrown err)
      | (w, Normal) =>
          runSteps stepCommandConfigs inheritedOpts stepCount (S index) rest
                   {| world := w;
                      log := headed ++ [StepDuration index stepCount];
                      ran := called |}
      end
  end.

(** [RunWorkflowCommand.action], given the workflow configuration that
    [garden.getWorkflowConfig(args.workflow)] returned. *)
Definition RunWorkflowCommand_action (stepCommandConfigs : list StepCommandConfig)
           (workflow : WorkflowConfig) (opts0 : Opts) (w : W)
  : Run * Completion :=
  let start := {| world := w; log := [Header (name workflow)]; ran := [] |} in
  match runSteps stepCommandConfigs opts0 (List.length (steps workflow)) 0
                 (steps workflow) start with
  | (r, Thrown err) => (r, Thrown err)
  | (r, Normal) =>
      ({| world := world r;
          log := log r ++ [Completed (name workflow)];
          ran := ran r |}, Normal)
  end.

(** The world after the steps [done] have run one after the other from
    [w], if none of them threw. *)
Fixpoint worldAfter (stepCommandConfigs : list StepCommandConfig)
         (inheritedOpts : Opts) (done : list WorkflowStep) (w : W)
  : option W :=
  match done with
  | [] => Some w
  | step :: rest =>
      match runStepCommand stepCommandConfigs (command step)
                           inheritedOpts w with
      | (w', Normal) => worldAfter stepCommandConfigs inheritedOpts rest w'
      | (_, Thrown _) => None
      end
  end.

(** How a stretch of the loop ends, from run [r] over the steps [todo]:
    all of [todo] ran, or the steps up to the first one that threw. *)
Definition stretchEnds (stepCommandConfigs : list StepCommandConfig)
           (inheritedOpts : Opts) (todo : list WorkflowStep) (r : Run)
           (res : Run * Completion) : Prop :=
  match snd res with
  | Normal =>
      ran (fst res) = ran r ++ map command todo /\
      worldAfter stepCommandConfigs inheritedOpts todo (world r) =
      Some (world (fst res))
  | Thrown err =>
      exists pre step post w1,
        todo = pre ++ step :: post /\
        ran (fst res) = ran r ++ map command (pre ++ [step]) /\
        worldAfter stepCommandConfigs inheritedOpts pre (world r) = Some w1 /\
        runStepCommand stepCommandConfigs (command step) inheritedOpts w1 =
        (world (fst res), Thrown err)
  end.

End WithCommands.

Arguments ParsedAs {Args Opts} a o.
Arguments Rejected {Args Opts} e.
Arguments action {W Args Opts} _ _ _ _.
Arguments prefix {W Args Opts Spec} _.
Arguments args {W Args Opts Spec} _.
Arguments opts {W Args Opts Spec} _.
Arguments cmdClass {W Args Opts Spec} _.
Arguments world {W} _.
Arguments log {W} _.
Arguments ran {W} _.
Arguments runStepCommand {W Args Opts Spec} parseCliArgs merge stepCommandConfigs commandSpec inheritedOpts w.
Arguments runSteps {W Args Opts Spec} parseCliArgs merge stepCommandConfigs inheritedOpts stepCount index todo r.
Arguments RunWorkflowCommand_action {W Args Opts Spec} parseCliArgs merge stepCommandConfigs workflow opts0 w.
Arguments worldAfter {W Args Opts Spec} parseCliArgs merge stepCommandConfigs inheritedOpts done w.
Arguments stretchEnds {W Args Opts Spec} parseCliArgs merge stepCommandConfigs inheritedOpts todo r res.

End Workflow.

(* ------------------------------------------------------------------ *)
(** * Sample projects *)

Module Samples.

Import Graph.

Definition module (n : string) : Node := {| kind := Build; name := n |}.

Definition buildDep (a b : string) : Edge :=
  {| dependant := module a; dependency := module b; purpose := BuildTime |}.

(** A depends on B, B depends on C. *)
Definition chain : DependencyGraph :=
  {| nodes := [module "A"; module "B"; module "C"];
     edges := [buildDep "A" "B"; buildDep "B" "C"];
     nodeVersion := fun n => String.append "v1-" (name n) |}.

(** The same project after C's sources changed. *)
Definition chain' : DependencyGraph :=
  {| nodes := [module "A"; module "B"; module "C"];
     edges := [buildDep "A" "B"; buildDep "B" "C"];
     nodeVersion := fun n => String.append "v2-" (name n) |}.

(** B and C with no dependency between them ... *)
Definition apart : DependencyGraph :=
  {| nodes := [module "B"; module "C"];
     edges := [];
     nodeVersion := fun n => String.append "v1-" (name n) |}.

(** ... and after an edit that makes B depend on C. *)
Definition joined : DependencyGraph :=
  {| nodes := [module "B"; module "C"];
     edges := [buildDep "B" "C"];
     nodeVersion := fun n => String.append "v2-" (name n) |}.

(** A hook that succeeds on every task and counts its calls. *)
Definition succeed (t : Task.Task) (w : nat) : nat * Engine.HookReturn :=
  (S w, Engine.Return {| Engine.h_success := true;
                         Engine.h_output := Task.targetName t;
                         Engine.h_error := None;
                         Engine.h_durationMs := 0 |}).

(** [garden build --watch] on the chain: all modules requested. *)
Definition watchAll : BuildCommand.ProcessModulesParams :=
  BuildCommand.action chain {| BuildCommand.modules := None |}
                      {| BuildCommand.force := false; BuildCommand.watch := true |}.

(** A hook that succeeds on every task and does [act] to the world. *)
Definition succeeding {W : Type} (act : Task.Task -> W -> W)
           (t : Task.Task) (w : W) : W * Engine.HookReturn :=
  (act t w, Engine.Return {| Engine.h_success := true;
                             Engine.h_output := Task.targetName t;
                             Engine.h_error := None;
                             Engine.h_durationMs := 0 |}).

(** A hook that writes the name of its target into the world and
    succeeds ... *)
Definition logging : Task.Task -> list string -> list string * Engine.HookReturn :=
  succeeding (fun t w => w ++ [Task.targetName t]).

(** ... and one that fails on the target named [bad]. *)
Definition loggingFailOn (bad : string) (t : Task.Task) (w : list string)
  : list string * Engine.HookReturn :=
  (w ++ [Task.targetName t],
   Engine.Return {| Engine.h_success := negb (String.eqb (Task.targetName t) bad);
                    Engine.h_output := Task.targetName t;
                    Engine.h_error := None;
                    Engine.h_durationMs := 0 |}).

(** [garden build --watch A] on the chain: only A requested. *)
Definition requestA : BuildCommand.ProcessModulesParams :=
  BuildCommand.action chain {| BuildCommand.modules := Some ["A"] |}
                      {| BuildCommand.force := false; BuildCommand.watch := true |}.

(** The rounds of [watchAll] when C changes once. *)
Definition afterChangeOfC : list (Engine.State (list string)) :=
  Watch.processModules logging 2 watchAll [] [(chain', module "C")].

(** The tasks of the first round of [watchAll]: A, B and C. *)
Definition chainTasks : list Task.Task := BuildCommand.p_initialTasks watchAll.

Definition keyOf (n : string) : Task.Key :=
  Task.keyFor chain Graph.Build (module n).

(** One task without dependencies, submitted three times. *)
Definition lone : Task.Task :=
  {| Task.kind := Graph.Build; Task.targetName := "lone";
     Task.version := "v1"; Task.dependencyTaskKeys := [];
     Task.force := false |}.

Definition thrice : list Task.Task := [lone; lone; lone].

(** A backend that knows one valid token and serves one secret. *)
Definition backendWith (token : option string) : Enterprise.Backend :=
  {| Enterprise.readAuthToken := token;
     Enterprise.checkClientAuthToken := fun tok _ => String.eqb tok "good";
     Enterprise.getSecrets := fun _ _ _ _ => [("DB_PASSWORD", "hunter2")] |}.

Definition fullConfig : Enterprise.ProjectConfig :=
  {| Enterprise.id := Some "project-1";
     Enterprise.domain := Some "https://garden.example.com" |}.

Definition noDomain : Enterprise.ProjectConfig :=
  {| Enterprise.id := Some "project-1"; Enterprise.domain := None |}.

(** Two step commands on a counter: [build] adds one, [run fail] throws. *)
Definition stepConfigs : list (Workflow.StepCommandConfig nat (list string) unit unit) :=
  [ {| Workflow.prefix := ["build"]; Workflow.args := tt; Workflow.opts := tt;
       Workflow.cmdClass :=
         {| Workflow.action := fun w _ _ => (S w, Workflow.Normal) |} |};
    {| Workflow.prefix := ["run"; "fail"]; Workflow.args := tt; Workflow.opts := tt;
       Workflow.cmdClass :=
         {| Workflow.action :=
              fun w _ _ => (w, Workflow.Thrown (Workflow.CommandError "boom")) |} |} ].

Definition parseAll (rest : list string) (_ _ : unit)
  : Workflow.Parsed (list string) unit :=
  Workflow.ParsedAs rest tt.

Definition step (spec : list string) : Workflow.WorkflowStep :=
  {| Workflow.command := spec; Workflow.description := None |}.

Definition runSample (specs : list (list string))
  : Workflow.Run nat * Workflow.Completion :=
  Workflow.RunWorkflowCommand_action
    parseAll (fun a _ => a) stepConfigs
    {| Workflow.name := "sample"; Workflow.steps := map step specs |} tt 0.

(** What the hook was applied to in the round that follows the change
    of C: the names it wrote into the world during that round. *)
Definition roundAfterChange : list string :=
  match afterChangeOfC with
  | s0 :: s :: _ => skipn (List.length (Engine.world s0)) (Engine.world s)
  | _ => []
  end.

End Samples.

(* ------------------------------------------------------------------ *)
(** * JavaScript objects with string values *)

Module JSObject.

(** An object as its own enumerable properties in insertion order. *)
Definition t : Type := list (string * string).

(** [o[k]]: the value of the property, [undefined] when there is none. *)
Fixpoint get (k : string) (o : t) : option string :=
  match o with
  | [] => None
  | (k', v) :: o' => if String.eqb k' k then Some v else get k o'
  end.

(** [delete o[k]] *)
Definition delete (k : string) (o : t) : t :=
  filter (fun kv => negb (String.eqb (fst kv) k)) o.

(** [o[k] = v]: an existing property keeps its place, a new one goes last. *)
Fixpoint set (k v : string) (o : t) : t :=
  match o with
  | [] => [(k, v)]
  | (k', v') :: o' =>
      if String.eqb k' k then (k', v) :: o' else (k', v') :: set k v o'
  end.

End JSObject.

(* ------------------------------------------------------------------ *)
(** * kubectl commands (plugins/kubernetes/kubectl.ts) *)

Module KubectlCommands.

(** [metadata] of a resource: its name and its optional annotations. *)
Record Metadata := {
  name : string;
  annotations : option JSObject.t
}.

(** A metadata object as it lies in memory: its name and, when it has
    one, the address of its annotations object. *)
Record MetadataObject := {
  o_name : string;
  o_annotations : option nat
}.

(** The objects [apply] writes to, by address: the metadata objects and
    the annotations objects of the manifests.  Two manifests may hold
    the address of one metadata object, and two metadata objects that of
    one annotations object. *)
Record Memory := {
  metadataObjects : list MetadataObject;
  annotationObjects : list JSObject.t
}.

(** The object at address [i] replaced by [f] of it; no object, no
    change. *)
Fixpoint updateAt {A : Type} (i : nat) (f : A -> A) (l : list A) : list A :=
  match l, i with
  | [], _ => []
  | x :: l', O => f x :: l'
  | x :: l', S j => x :: updateAt j f l'
  end.

Definition metadataAt (mem : Memory) (i : nat) : MetadataObject :=
  nth i (metadataObjects mem) {| o_name := ""; o_annotations := None |}.

Definition annotationsAt (mem : Memory) (a : nat) : JSObject.t :=
  nth a (annotationObjects mem) [].

(** A write to the annotations object at address [a]. *)
Definition onAnnotations (a : nat) (f : JSObject.t -> JSObject.t)
           (mem : Memory) : Memory :=
  {| metadataObjects := metadataObjects mem;
     annotationObjects := updateAt a f (annotationObjects mem) |}.

(** [manifest.metadata.annotations = {}]: a new, empty annotations
    object for the metadata object at address [i]; its address. *)
Definition newAnnotations (i : nat) (mem : Memory) : Memory * nat :=
  let a := List.length (annotationObjects mem) in
  ({| metadataObjects :=
        updateAt i (fun o => {| o_name := o_name o; o_annotations := Some a |})
                 (metadataObjects mem);
      annotationObjects := annotationObjects mem ++ [[]] |}, a).

(** Every address held by a metadata object is that of an annotations
    object. *)
Definition sound (mem : Memory) : bool :=
  forallb (fun o => match o_annotations o with
                    | Some a => Nat.ltb a (List.length (annotationObjects mem))
                    | None => true
                    end)
          (metadataObjects mem).

Fixpoint distinct (l : list nat) : bool :=
  match l with
  | [] => true
  | x :: l' => negb (existsb (Nat.eqb x) l') && distinct l'
  end.

Section WithResources.

(** Everything of a resource besides its kind and metadata; the output of
    kubectl's JSON parser; what is piped to kubectl. *)
Variables Body Json Input : Type.

(** [KubernetesResource], as far as this file reads and writes it. *)
Record KubernetesResource := {
  kind : string;
  metadata : Metadata;
  body : Body
}.

(** [gardenAnnotationKey], [hashManifest], [encodeYamlMulti], [JSON.parse]
    (with [None] for a thrown syntax error) and the standard output of
    the kubectl process for an invocation and its input. *)
Variable gardenAnnotationKey : string -> string.
Variable hashManifest : KubernetesResource -> string.
Variable encodeYamlMulti : list KubernetesResource -> Input.
Variable JSONparse : string -> option Json.
Variable kubectlStdout : Kubectl.Invocation -> Input -> string.

(** The annotations of a manifest, none when it has no annotations
    object. *)
Definition annotationsOf (m : KubernetesResource) : JSObject.t :=
  match annotations (metadata m) with
  | Some a => a
  | None => []
  end.

Definition withAnnotations (m : KubernetesResource) (a : JSObject.t)
  : KubernetesResource :=
  {| kind := kind m;
     metadata := {| name := name (metadata m); annotations := Some a |};
     body := body m |}.

(** The manifest as [hashManifest] gets to see it in the loop of [apply]:
    with an annotations object, and without a truthy manifest-hash
    annotation. *)
Definition hashedManifest (manifest : KubernetesResource) : KubernetesResource :=
  let key := gardenAnnotationKey "manifest-hash" in
  let a0 := match annotations (metadata manifest) with
            | Some a => a
            | None => []
            end in
  let a1 := if JS.truthy (JSObject.get key a0)
            then JSObject.delete key a0 else a0 in
  withAnnotations manifest a1.

(** One turn of the loop over [manifests] in [apply], as a function of
    what the manifest is when the turn begins. *)
Definition annotateManifest (manifest : KubernetesResource) : KubernetesResource :=
  let key := gardenAnnotationKey "manifest-hash" in
  let m1 := hashedManifest manifest in
  let a1 := match annotations (metadata m1) with
            | Some a => a
            | None => []
            end in
  withAnnotations m1 (JSObject.set key (hashManifest m1) a1).

(** An entry of the [manifests] array.  [apply] reads the manifest
    object (its kind, the address of its metadata object, the rest) and
    writes to the metadata and annotations objects it leads to; an
    object listed twice is two entries with one metadata address. *)
Record Manifest := {
  m_kind : string;
  m_metadata : nat;
  m_body : Body
}.

(** The manifest as a reader finds it in memory. *)
Definition load (mem : Memory) (m : Manifest) : KubernetesResource :=
  let o := metadataAt mem (m_metadata m) in
  {| kind := m_kind m;
     metadata := {| name := o_name o;
                    annotations := option_map (annotationsAt mem)
                                              (o_annotations o) |};
     body := m_body m |}.

(** The metadata object of the manifest is in memory. *)
Definition inMemory (mem : Memory) (m : Manifest) : bool :=
  Nat.ltb (m_metadata m) (List.length (metadataObjects mem)).

(** The address of the manifest's annotations object, if it has one. *)
Definition annotationRefs (mem : Memory) (m : Manifest) : list nat :=
  match o_annotations (metadataAt mem (m_metadata m)) with
  | Some a => [a]
  | None => []
  end.

(** No two of the manifests share a metadata object or an annotations
    object. *)
Definition separate (mem : Memory) (ms : list Manifest) : bool :=
  distinct (map m_metadata ms) && distinct (flat_map (annotationRefs mem) ms).

(** One turn of the loop over [manifests] in [apply], on the objects in
    memory:
    [if (!manifest.metadata.annotations) manifest.metadata.annotations = {}],
    [if (annotations[key]) delete annotations[key]],
    [annotations[key] = await hashManifest(manifest)]. *)
Definition annotateInPlace (mem : Memory) (manifest : Manifest) : Memory :=
  let key := gardenAnnotationKey "manifest-hash" in
  let '(mem1, a) :=
    match o_annotations (metadataAt mem (m_metadata manifest)) with
    | Some a => (mem, a)
    | None => newAnnotations (m_metadata manifest) mem
    end in
  let mem2 := if JS.truthy (JSObject.get key (annotationsAt mem1 a))
              then onAnnotations a (JSObject.delete key) mem1
              else mem1 in
  onAnnotations a (JSObject.set key (hashManifest (load mem2 manifest))) mem2.

Record ApplyParams := {
  provider : Kubectl.ProviderConfig;
  manifests : list Manifest;
  namespace : option string;
  dryRun : option bool;
  pruneSelector : option string;
  validate : option bool
}.

(** A parameter with a default value. *)
Definition orDefault (d : bool) (v : option bool) : bool :=
  match v with Some b => b | None => d end.

(** The arguments [apply] builds before it calls kubectl. *)
Definition applyArgs (p : ApplyParams) : list string :=
  ["apply"]
    ++ (if orDefault false (dryRun p) then ["--dry-run"] else [])
    ++ match pruneSelector p with
       | Some sel =>
           if JS.truthy (pruneSelector p)
           then ["--prune"; "--selector"; sel] else []
       | None => []
       end
    ++ ["--output=json"; "-f"; "-"]
    ++ (if negb (orDefault true (validate p)) then ["--validate=false"] else []).

(** What [apply] returns. *)
Inductive ApplyResult :=
| Parsed (j : Json)
| Raw (result : string).

(** What [apply] does: the memory as it leaves it, the manifests as
    they are found there, the kubectl invocation it makes, the input it
    pipes in, and what it returns. *)
Record Applied := {
  memory : Memory;
  annotated : list KubernetesResource;
  invocation : Kubectl.Invocation;
  input : Input;
  returned : ApplyResult
}.

(** [apply], called with the objects of its manifests in the memory
    [mem]: the loop writes to them in place, one manifest after the
    other, and the manifests are encoded as the loop leaves them. *)
Definition apply (p : ApplyParams) (mem : Memory) : Applied :=
  let mem' := fold_left annotateInPlace (manifests p) mem in
  let ms := map (load mem') (manifests p) in
  let inp := encodeYamlMulti ms in
  let inv := Kubectl.stdout (provider p)
               {| Kubectl.namespace := namespace p;
                  Kubectl.configPath := None;
                  Kubectl.args := applyArgs p |} in
  let result := kubectlStdout inv inp in
  {| memory := mem';
     annotated := ms;
     invocation := inv;
     input := inp;
     returned := match JSONparse result with
                 | Some j => Parsed j
                 | None => Raw result
                 end |}.

Record DeleteResourcesParams := {
  dr_provider : Kubectl.ProviderConfig;
  dr_namespace : string;
  dr_resources : list KubernetesResource;
  dr_includeUninitialized : option bool
}.

(** [`${r.kind}/${r.metadata.name}`] *)
Definition target (r : KubernetesResource) : string :=
  String.append (kind r) (String.append "/" (name (metadata r))).

(** [deleteResources]: the kubectl invocation it makes. *)
Definition deleteResources (p : DeleteResourcesParams) : Kubectl.Invocation :=
  let args :=
    (["delete"; "--wait=true"; "--ignore-not-found=true"]
       ++ map target (dr_resources p))
      ++ (if orDefault false (dr_includeUninitialized p)
          then ["--include-uninitialized"] else []) in
  Kubectl.stdout (dr_provider p)
    {| Kubectl.namespace := Some (dr_namespace p);
       Kubectl.configPath := None;
       Kubectl.args := args |}.

Record DeleteBySelectorParams := {
  ds_provider : Kubectl.ProviderConfig;
  ds_namespace : string;
  ds_selector : string;
  ds_objectTypes : list string;
  ds_includeUninitialized : option bool
}.

(** [deleteObjectsBySelector]: the kubectl invocation it makes. *)
Definition deleteObjectsBySelector (p : DeleteBySelectorParams)
  : Kubectl.Invocation :=
  let args :=
    ["delete"; String.concat "," (ds_objectTypes p); "-l"; ds_selector p;
     "--wait=true"]
      ++ (if orDefault false (ds_includeUninitialized p)
          then ["--include-uninitialized"] else []) in
  Kubectl.stdout (ds_provider p)
    {| Kubectl.namespace := Some (ds_namespace p);
       Kubectl.configPath := None;
       Kubectl.args := args |}.

End WithResources.

Arguments kind {Body} _.
Arguments metadata {Body} _.
Arguments body {Body} _.
Arguments annotationsOf {Body} m.
Arguments withAnnotations {Body} m a.
Arguments hashedManifest {Body} gardenAnnotationKey manifest.
Arguments annotateManifest {Body} gardenAnnotationKey hashManifest manifest.
Arguments m_kind {Body} _.
Arguments m_metadata {Body} _.
Arguments m_body {Body} _.
Arguments load {Body} mem m.
Arguments inMemory {Body} mem m.
Arguments annotationRefs {Body} mem m.
Arguments separate {Body} mem ms.
Arguments annotateInPlace {Body} gardenAnnotationKey hashManifest mem manifest.
Arguments provider {Body} _.
Arguments manifests {Body} _.
Arguments namespace {Body} _.
Arguments dryRun {Body} _.
Arguments pruneSelector {Body} _.
Arguments validate {Body} _.
Arguments applyArgs {Body} p.
Arguments Parsed {Json} j.
Arguments Raw {Json} result.
Arguments memory {Body Json Input} _.
Arguments annotated {Body Json Input} _.
Arguments invocation {Body Json Input} _.
Arguments input {Body Json Input} _.
Arguments returned {Body Json Input} _.
Arguments apply {Body Json Input} gardenAnnotationKey hashManifest encodeYamlMulti JSONparse kubectlStdout p mem.
Arguments dr_provider {Body} _.
Arguments dr_namespace {Body} _.
Arguments dr_resources {Body} _.
Arguments dr_includeUninitialized {Body} _.
Arguments target {Body} r.
Arguments deleteResources {Body} p.

End KubectlCommands.

(* ------------------------------------------------------------------ *)
(** * The command reference (docs/commands.ts) *)

Module CommandDocs.

Section WithCommands.

(** Commands, the classes of their subcommands, what [describe()] returns
    and the schema of a command's outputs. *)
Variables Command CommandClass Description Schema : Type.

(** [cmd.subCommands] (none when undefined), [cmd.hidden], [cmd.describe()],
    [new subCommandCls(cmd)], [desc.outputsSchema] (when there is one,
    called) and the [yaml] of [renderConfigReference] for a schema. *)
Variable subCommands : Command -> list CommandClass.
Variable hidden : Command -> bool.
Variable describe : Command -> Description.
Variable construct : CommandClass -> Command -> Command.
Variable outputsSchema : Description -> option Schema.
Variable renderYaml : Schema -> string.

(** The body of the [flatMap] over [coreCommands]: the descriptions one
    command contributes.  A description is an object, so [filter(Boolean)]
    drops the [null] of a hidden subcommand and nothing else. *)
Definition describeVisible (cmd : Command) : list Description :=
  match subCommands cmd with
  | [] => if hidden cmd then [] else [describe cmd]
  | _ :: _ =>
      flat_map (fun subCommandCls =>
                  let subCmd := construct subCommandCls cmd in
                  if hidden subCmd then [] else [describe subCmd])
               (subCommands cmd)
  end.

(** [{ ...desc, outputsYaml }] *)
Record Documented := {
  desc : Description;
  outputsYaml : option string
}.

(** The [commands] that [writeCommandReferenceDocs] hands to the template. *)
Definition commands (coreCommands : list Command) : list Documented :=
  map (fun d => {| desc := d;
                   outputsYaml := option_map renderYaml (outputsSchema d) |})
      (flat_map describeVisible coreCommands).

End WithCommands.

Arguments describeVisible {Command CommandClass Description} subCommands hidden describe construct cmd.
Arguments desc {Description} _.
Arguments outputsYaml {Description} _.
Arguments commands {Command CommandClass Description Schema} subCommands hidden describe construct outputsSchema renderYaml coreCommands.

End CommandDocs.

(* ------------------------------------------------------------------ *)
(** * The build command's header and server (docs/commands.ts) *)

Module BuildLifecycle.

(** What [prepare] and [action] do besides computing, in order. *)
Inductive Effect :=
| PrintHeader
| StartServer
| SetGarden
| ClearBuilds
| GetConfigGraph
| ProcessModules
| HandleProcessResults.

(** The command instance: whether [this.server] has been set. *)
Record Instance := { server : bool }.

(** [BuildCommand.prepare]: its effects, the instance afterwards, and the
    [persistent] flag it returns. *)
Definition prepare (opts : BuildCommand.Opts) (this : Instance)
  : list Effect * Instance * bool :=
  let persistent := BuildCommand.isPersistent opts in
  if persistent
  then ([PrintHeader; StartServer], {| server := true |}, persistent)
  else ([], this, persistent).

(** [BuildCommand.action]: its effects, in order. *)
Definition actionEffects (opts : BuildCommand.Opts) (this : Instance)
  : list Effect :=
  (if negb (BuildCommand.isPersistent opts) then [PrintHeader] else [])
    ++ (if server this then [SetGarden] else [])
    ++ [ClearBuilds; GetConfigGraph; ProcessModules; HandleProcessResults].

(** [prepare] followed by [action] on the instance [prepare] leaves, with
    the same options. *)
Definition prepareThenAction (opts : BuildCommand.Opts) (this : Instance)
  : list Effect :=
  let '(effects, this', _) := prepare opts this in
  effects ++ actionEffects opts this'.

Definition Effect_eq_dec (a b : Effect) : {a = b} + {a <> b}.
Proof. decide equality. Defined.

End BuildLifecycle.

(* ------------------------------------------------------------------ *)
(** * What a workflow run logs *)

Module WorkflowLog.

Import Workflow.

(** The header and duration lines of steps that all completed, numbered
    from [index]. *)
Fixpoint stepLines (stepCount index : nat) (done : list WorkflowStep)
  : list LogLine :=
  match done with
  | [] => []
  | step :: rest =>
      StepHeader index stepCount (description step)
        :: StepDuration index stepCount
        :: stepLines stepCount (S index) rest
  end.

(** [p] is a leading part of [l]. *)
Definition startsWith (l p : list string) : Prop :=
  exists rest, l = p ++ rest.

End WorkflowLog.

(* ------------------------------------------------------------------ *)
(** * The options of a kubectl call *)

Module KubectlOptions.

(** The [opts] that [prepareArgs] puts before the arguments. *)
Definition options (config : Kubectl.ProviderConfig)
           (p : Kubectl.KubectlParams) : list string :=
  [String.append "--context=" (Kubectl.context config)]
    ++ Kubectl.flag "--kubeconfig=" (Kubectl.kubeconfig config)
    ++ Kubectl.flag "--namespace=" (Kubectl.namespace p)
    ++ Kubectl.flag "--kubeconfig=" (Kubectl.configPath p).

(** How often "--output=json" occurs among arguments. *)
Definition jsonFlags (l : list string) : nat :=
  count_occ string_dec l "--output=json".

End KubectlOptions.

(* ------------------------------------------------------------------ *)
(** * More samples *)

Module MoreSamples.

Import KubectlCommands.

Definition annotationKey (k : string) : string := String.append "garden.io/" k.

(** A stand-in for the hash: it tells the name and the number of
    annotations of what it is given. *)
Definition sampleHash (m : KubernetesResource unit) : string :=
  String.append (name (metadata m))
    (String.concat "" (map (fun _ => "+") (annotationsOf m))).

Definition deployment (a : option JSObject.t) : KubernetesResource unit :=
  {| kind := "Deployment";
     metadata := {| name := "api"; annotations := a |};
     body := tt |}.

Definition devCluster : Kubectl.ProviderConfig :=
  {| Kubectl.context := "dev"; Kubectl.kubeconfig := None |}.

(** The deployment as an entry of a manifests array, its metadata
    object at address [i]. *)
Definition deploymentAt (i : nat) : Manifest unit :=
  {| m_kind := "Deployment"; m_metadata := i; m_body := tt |}.

(** Two metadata objects named "api": the first without annotations, the
    second with an annotations object that holds an owner. *)
Definition twoObjects : Memory :=
  {| metadataObjects :=
       [ {| o_name := "api"; o_annotations := None |};
         {| o_name := "api"; o_annotations := Some 0 |} ];
     annotationObjects := [[("owner", "team-a")]] |}.

(** One metadata object whose annotations object holds an empty
    manifest-hash annotation. *)
Definition emptyHash : Memory :=
  {| metadataObjects := [ {| o_name := "api"; o_annotations := Some 0 |} ];
     annotationObjects := [[("garden.io/manifest-hash", "")]] |}.

(** [apply] called with the manifests [ms] and nothing optional. *)
Definition applyOf (ms : list (Manifest unit)) : ApplyParams unit :=
  {| provider := devCluster;
     manifests := ms;
     namespace := Some "apps";
     dryRun := None;
     pruneSelector := None;
     validate := None |}.

Definition plainApply : ApplyParams unit :=
  {| provider := devCluster;
     manifests := [deploymentAt 0];
     namespace := Some "apps";
     dryRun := None;
     pruneSelector := None;
     validate := None |}.

End MoreSamples.

(* ================================================================== *)
(** * Properties *)

Module JSFacts.

Import JS.

Lemma includes_In l s : includes l s = true <-> In s l.
Proof.
  unfold includes. rewrite existsb_exists. split.
  - intros [x [Hx Heq]]. apply String.eqb_eq in Heq. now subst.
  - intros H. exists s. split; [assumption | apply String.eqb_refl].
Qed.

Lemma truthy_Some s : truthy (Some s) = true <-> s <> "".
Proof.
  simpl. rewrite negb_true_iff. split.
  - intros H E. subst. discriminate.
  - intros H. apply String.eqb_neq. assumption.
Qed.

End JSFacts.

Module TraversalFacts.

Section Facts.

Variable A : Type.
Variable A_eqb : A -> A -> bool.
Hypothesis A_eqb_spec : forall a b, A_eqb a b = true <-> a = b.
Variable next : A -> list A.
Local Abbreviation mem := (Traversal.mem A_eqb).
Local Abbreviation traverse := (Traversal.traverse A_eqb next).
Local Abbreviation cost := (Traversal.cost next).
Local Abbreviation weight := (Traversal.weight A_eqb next).
Local Abbreviation edgeRel := (Traversal.edgeRel next).
Local Abbreviation closed_in := (Traversal.closed_in next).
Lemma mem_In a l : mem a l = true <-> In a l.
Proof.
  unfold mem. rewrite existsb_exists. split.
  - intros [x [Hx Heq]]. apply A_eqb_spec in Heq. now subst.
  - intros H. exists a. split; [assumption | now apply A_eqb_spec].
Qed.

Lemma mem_false a l : mem a l = false <-> ~ In a l.
Proof.
  rewrite <- mem_In. destruct (mem a l); split; intros; congruence.
Qed.

Lemma mem_cons a n l : mem a (n :: l) = A_eqb a n || mem a l.
Proof. reflexivity. Qed.

Lemma weight_cons u U visited :
  weight (u :: U) visited =
  (if mem u visited then 0 else cost u) + weight U visited.
Proof.
  unfold weight. cbn [filter].
  destruct (mem u visited); reflexivity.
Qed.

Lemma weight_mono U visited n :
  weight U (n :: visited) <= weight U visited.
Proof.
  induction U as [|u U IH]; [reflexivity|].
  rewrite !weight_cons, mem_cons.
  destruct (A_eqb u n), (mem u visited); cbn [orb]; lia.
Qed.

Lemma weight_visit U visited n :
  In n U -> ~ In n visited ->
  weight U (n :: visited) + cost n <= weight U visited.
Proof.
  induction U as [|u U IH]; intros Hin Hnv; [destruct Hin|].
  rewrite !weight_cons, mem_cons.
  destruct (A_eqb u n) eqn:Eun.
  - apply A_eqb_spec in Eun. subst u.
    apply mem_false in Hnv. rewrite Hnv. cbn [orb].
    pose proof (weight_mono U visited n). lia.
  - destruct Hin as [->|Hin].
    + assert (A_eqb n n = true) by now apply A_eqb_spec. congruence.
    + specialize (IH Hin Hnv).
      destruct (mem u visited); cbn [orb]; lia.
Qed.

Lemma traverse_sound fuel : forall frontier visited x,
  In x (traverse fuel frontier visited) ->
  In x visited \/
  exists f, In f frontier /\ clos_refl_trans A edgeRel f x.
Proof.
  induction fuel as [|k IH]; intros frontier visited x Hx; cbn in Hx.
  - now left.
  - destruct frontier as [|n rest]; [now left|].
    destruct (mem n visited) eqn:Hm.
    + apply IH in Hx. destruct Hx as [Hx|[f [Hf Hr]]]; [now left|].
      right. exists f. split; [now right | assumption].
    + apply IH in Hx. destruct Hx as [[<-|Hx]|[f [Hf Hr]]].
      * right. exists n. split; [now left | apply rt_refl].
      * now left.
      * apply in_app_or in Hf. destruct Hf as [Hf|Hf].
        -- right. exists n. split; [now left|].
           eapply rt_trans; [apply rt_step; exact Hf | exact Hr].
        -- right. exists f. split; [now right | assumption].
Qed.

Lemma traverse_NoDup fuel : forall frontier visited,
  NoDup visited -> NoDup (traverse fuel frontier visited).
Proof.
  induction fuel as [|k IH]; intros frontier visited Hnd; cbn; [assumption|].
  destruct frontier as [|n rest]; [assumption|].
  destruct (mem n visited) eqn:Hm.
  - now apply IH.
  - apply IH. constructor; [now apply mem_false | assumption].
Qed.

Variable U : list A.
Hypothesis U_covers : forall a b, In b (next a) -> In b U.

Local Abbreviation reachable := (Traversal.reachable A_eqb next U).

Lemma traverse_closed fuel : forall frontier visited,
  List.length frontier + weight U visited < fuel ->
  (forall f, In f frontier -> In f U) ->
  closed_in visited frontier ->
  incl visited (traverse fuel frontier visited) /\
  incl frontier (traverse fuel frontier visited) /\
  closed_in (traverse fuel frontier visited) [].
Proof.
  induction fuel as [|k IH]; intros frontier visited Hlt HU Hcl; [lia|].
  cbn [traverse]. destruct frontier as [|n rest].
  - repeat split; [apply incl_refl | intros x [] | exact Hcl].
  - destruct (mem n visited) eqn:Hm.
    + apply mem_In in Hm.
      destruct (IH rest visited) as [Hv [Hf Hc]].
      * cbn [List.length] in Hlt. lia.
      * intros f Hf. apply HU. now right.
      * intros v w Hv Hw. destruct (Hcl v w Hv Hw) as [H|[<-|H]]; auto.
      * repeat split; [exact Hv | | exact Hc].
        intros x [<-|Hx]; [now apply Hv | now apply Hf].
    + apply mem_false in Hm.
      destruct (IH (next n ++ rest) (n :: visited)) as [Hv [Hf Hc]].
      * rewrite length_app. cbn [List.length] in Hlt.
        assert (In n U) by (apply HU; now left).
        pose proof (weight_visit U visited n H Hm) as Hw.
        unfold cost in Hw. lia.
      * intros f Hf. apply in_app_or in Hf. destruct Hf as [Hf|Hf].
        -- eapply U_covers; exact Hf.
        -- apply HU. now right.
      * intros v w [<-|Hv] Hw.
        -- right. apply in_or_app. now left.
        -- destruct (Hcl v w Hv Hw) as [H|[<-|H]].
           ++ left. now right.
           ++ left. now left.
           ++ right. apply in_or_app. now right.
      * repeat split; [ | | exact Hc].
        -- intros x Hx. apply Hv. now right.
        -- intros x [<-|Hx]; [apply Hv; now left|].
           apply Hf. apply in_or_app. now right.
Qed.

Lemma reachable_iff start x :
  In x (reachable start) <-> clos_trans A edgeRel start x.
Proof.
  unfold reachable. rewrite <- in_rev. split.
  - intros Hx. apply traverse_sound in Hx.
    destruct Hx as [[]|[f [Hf Hr]]].
    apply clos_rt_rt1n in Hr.
    revert Hf. generalize start.
    induction Hr as [y|y z w Hyz Hzw IHr]; intros s Hs.
    + now apply t_step.
    + eapply t_trans; [apply t_step; exact Hs|]. now apply IHr.
  - intros Hx.
    destruct (traverse_closed (S (List.length (next start) + weight U []))
                (next start) []) as [_ [Hf Hc]].
    + lia.
    + intros f Hf. eapply U_covers; exact Hf.
    + intros v w [].
    + apply clos_trans_tn1 in Hx.
      induction Hx as [y Hy|y z Hyz Hsy IHx].
      * now apply Hf.
      * destruct (Hc y z IHx Hyz) as [H|[]]. exact H.
Qed.


End Facts.

End TraversalFacts.

Module GraphFacts.

Import Graph.

Lemma Kind_eqb_spec a b : Kind_eqb a b = true <-> a = b.
Proof.
  unfold Kind_eqb. destruct (Kind_eq_dec a b); split; congruence.
Qed.

Lemma Node_eqb_spec a b : Node_eqb a b = true <-> a = b.
Proof.
  unfold Node_eqb. destruct (Node_eq_dec a b); split; congruence.
Qed.

Lemma directDependents_iff g a b :
  In b (directDependents g a) <-> dependentOf g a b.
Proof.
  unfold directDependents, dependentOf. rewrite in_map_iff. split.
  - intros [e [Hd He]]. apply filter_In in He. destruct He as [He Hq].
    apply Node_eqb_spec in Hq. exists e. auto.
  - intros [e [He [Ha Hb]]]. exists e. split; [assumption|].
    apply filter_In. split; [assumption|]. now apply Node_eqb_spec.
Qed.

Lemma directDependents_covered g a b :
  In b (directDependents g a) -> In b (map dependant (edges g)).
Proof.
  unfold directDependents. rewrite !in_map_iff.
  intros [e [Hd He]]. apply filter_In in He. exists e. tauto.
Qed.

Lemma hasKind_single k n : hasKind (Some [k]) n = true <-> kind n = k.
Proof.
  cbn. rewrite orb_false_r. apply Kind_eqb_spec.
Qed.

Lemma clos_trans_ext (A : Type) (R S : relation A) :
  (forall a b, R a b <-> S a b) ->
  forall a b, clos_trans A R a b -> clos_trans A S a b.
Proof.
  intros H a b Hab. induction Hab as [a b Hr|a b c _ IH1 _ IH2].
  - apply t_step. now apply H.
  - eapply t_trans; eassumption.
Qed.

Lemma getDependents_recursive g node ks m :
  In m (getDependents g node {| kinds := ks; recursive := true |}) <->
  hasKind ks m = true /\ clos_trans Node (dependentOf g) node m.
Proof.
  unfold getDependents. cbn [recursive kinds].
  rewrite filter_In.
  rewrite (TraversalFacts.reachable_iff Node Node_eqb Node_eqb_spec (directDependents g)
             (map dependant (edges g)) (directDependents_covered g)).
  split; intros [H1 H2]; split; try assumption.
  - eapply clos_trans_ext; [|exact H1].
    intros a b. apply directDependents_iff.
  - eapply clos_trans_ext; [|exact H2].
    intros a b. symmetry. apply directDependents_iff.
Qed.


End GraphFacts.

Module TaskFacts.

Import Task.

Lemma Key_eqb_spec a b : Key_eqb a b = true <-> a = b.
Proof.
  unfold Key_eqb. destruct (Key_eq_dec a b); split; congruence.
Qed.

Lemma Key_eqb_refl a : Key_eqb a a = true.
Proof. now apply Key_eqb_spec. Qed.

Lemma Key_eqb_neq a b : Key_eqb a b = false <-> a <> b.
Proof.
  unfold Key_eqb. destruct (Key_eq_dec a b); split; congruence.
Qed.

End TaskFacts.

Module EngineFacts.

Import Task TaskFacts Engine.

(** ** Entries and their keys *)

Lemma setStatus_keys k st l : map ekey (setStatus k st l) = map ekey l.
Proof.
  unfold setStatus. rewrite map_map. apply map_ext.
  intros e. destruct (Key_eqb (ekey e) k); reflexivity.
Qed.

Lemma setStatus_tasks k st l : map fst (setStatus k st l) = map fst l.
Proof.
  unfold setStatus. rewrite map_map. apply map_ext.
  intros e. destruct (Key_eqb (ekey e) k); reflexivity.
Qed.

Lemma In_setStatus k st l e :
  In e (setStatus k st l) <->
  (In e l /\ ekey e <> k) \/
  (exists st0, In (fst e, st0) l /\ ekey e = k /\ snd e = st).
Proof.
  unfold setStatus. rewrite in_map_iff. split.
  - intros [e0 [He Hin]]. destruct (Key_eqb (ekey e0) k) eqn:Hk.
    + apply Key_eqb_spec in Hk. subst e. right. exists (snd e0).
      cbn. rewrite <- surjective_pairing. auto.
    + apply Key_eqb_neq in Hk. subst e. now left.
  - intros [[Hin Hk]|[st0 [Hin [Hk Hs]]]].
    + exists e. apply Key_eqb_neq in Hk. rewrite Hk. auto.
    + exists (fst e, st0). split; [|assumption].
      unfold ekey in *. cbn. apply Key_eqb_spec in Hk. rewrite Hk.
      rewrite <- Hs. symmetry. apply surjective_pairing.
Qed.

Lemma keys_inj l e1 e2 :
  NoDup (map ekey l) -> In e1 l -> In e2 l -> ekey e1 = ekey e2 -> e1 = e2.
Proof.
  induction l as [|e l IH]; intros Hnd H1 H2 Hk; [destruct H1|].
  cbn in Hnd. inversion Hnd as [|? ? Hnot Hnd']; subst.
  destruct H1 as [<-|H1], H2 as [<-|H2].
  - reflexivity.
  - exfalso. apply Hnot. rewrite Hk. now apply in_map.
  - exfalso. apply Hnot. rewrite <- Hk. now apply in_map.
  - now apply IH.
Qed.

Lemma lookup_In k l e : lookup k l = Some e -> In e l /\ ekey e = k.
Proof.
  unfold lookup. intros H. apply find_some in H. destruct H as [Hin Hk].
  apply Key_eqb_spec in Hk. auto.
Qed.

Lemma lookup_None k l : lookup k l = None -> ~ In k (map ekey l).
Proof.
  unfold lookup. intros H Hin. apply in_map_iff in Hin.
  destruct Hin as [e [Hk He]].
  pose proof (find_none _ _ H e He) as Hf. cbn in Hf.
  apply Key_eqb_neq in Hf. contradiction.
Qed.

Lemma lookup_unique l e :
  NoDup (map ekey l) -> In e l -> lookup (ekey e) l = Some e.
Proof.
  intros Hnd Hin. destruct (lookup (ekey e) l) as [e'|] eqn:Hl.
  - apply lookup_In in Hl. destruct Hl as [Hin' Hk].
    f_equal. now apply (keys_inj l).
  - apply lookup_None in Hl. exfalso. apply Hl. now apply in_map.
Qed.

Lemma resultOf_Some k l r :
  resultOf k l = Some r -> exists t, In (t, Done r) l /\ key t = k.
Proof.
  unfold resultOf. destruct (lookup k l) as [[t st]|] eqn:Hl; [|discriminate].
  destruct st; try discriminate. intros [= ->].
  apply lookup_In in Hl. exists t. exact Hl.
Qed.

Lemma resultOf_unique l t st :
  NoDup (map ekey l) -> In (t, st) l ->
  resultOf (key t) l = match st with Done r => Some r | _ => None end.
Proof.
  intros Hnd Hin. unfold resultOf.
  change (key t) with (ekey (t, st)).
  rewrite (lookup_unique l (t, st) Hnd Hin). destruct st; reflexivity.
Qed.

Lemma lookup_setStatus_other k st d l :
  d <> k -> resultOf d (setStatus k st l) = resultOf d l.
Proof.
  intros Hd. unfold resultOf, lookup, setStatus.
  induction l as [|e l IH]; [reflexivity|]. cbn.
  destruct (Key_eqb (ekey e) k) eqn:Hk.
  - apply Key_eqb_spec in Hk. unfold ekey at 1. cbn [fst].
    fold (ekey e). rewrite Hk.
    assert (Key_eqb k d = false) as -> by (apply Key_eqb_neq; congruence).
    exact IH.
  - destruct (Key_eqb (ekey e) d); [reflexivity | exact IH].
Qed.

Lemma resultOf_mono k st d l r :
  resultOf k l = None -> resultOf d l = Some r ->
  resultOf d (setStatus k st l) = Some r.
Proof.
  intros Hk Hd. destruct (Key_eq_dec d k) as [->|Hne].
  - congruence.
  - now rewrite lookup_setStatus_other.
Qed.

Lemma succeeded_mono k st l d :
  resultOf k l = None -> succeeded l d = true ->
  succeeded (setStatus k st l) d = true.
Proof.
  unfold succeeded. intros Hk.
  destruct (resultOf d l) as [r|] eqn:Hd; [|discriminate].
  now rewrite (resultOf_mono k st d l r Hk Hd).
Qed.

Lemma failed_mono k st l d :
  resultOf k l = None -> failed l d = true ->
  failed (setStatus k st l) d = true.
Proof.
  unfold failed. intros Hk.
  destruct (resultOf d l) as [r|] eqn:Hd; [|discriminate].
  now rewrite (resultOf_mono k st d l r Hk Hd).
Qed.

Lemma ready_mono k st l t :
  resultOf k l = None -> ready l t = true ->
  ready (setStatus k st l) t = true.
Proof.
  unfold ready. intros Hk. rewrite !forallb_forall.
  intros H d Hd. apply succeeded_mono; auto.
Qed.

Lemma blocked_mono k st l t :
  resultOf k l = None -> blocked l t = true ->
  blocked (setStatus k st l) t = true.
Proof.
  unfold blocked. intros Hk. rewrite !existsb_exists.
  intros [d [Hd Hf]]. exists d. split; [assumption|].
  apply failed_mono; auto.
Qed.

(** ** The invariant is kept by every move *)

Lemma entryOk_mono m k st l e :
  resultOf k l = None -> entryOk m l e -> entryOk m (setStatus k st l) e.
Proof.
  intros Hk. unfold entryOk. destruct (snd e) as [| |r].
  - trivial.
  - intros [H1 H2]. split; [now apply ready_mono | assumption].
  - intros [Hr H]. split; [assumption|].
    destruct (outcome r).
    + destruct H as [H1 H2]. split; [now apply ready_mono | assumption].
    + destruct H as [H1 H2]. split; [assumption | now apply blocked_mono].
    + destruct H as [H1 [H2 H3]].
      repeat split; [assumption | now apply ready_mono | assumption].
Qed.

Lemma entries_setStatus m l t st0 st1 :
  NoDup (map ekey l) ->
  (forall e, In e l -> entryOk m l e) ->
  In (t, st0) l -> isDone (t, st0) = false ->
  entryOk m l (t, st1) ->
  forall e, In e (setStatus (key t) st1 l) ->
            entryOk m (setStatus (key t) st1 l) e.
Proof.
  intros Hnd Hok Hin Hnot Hnew e He.
  assert (Hnone : resultOf (key t) l = None).
  { rewrite (resultOf_unique l t st0 Hnd Hin).
    destruct st0; [reflexivity | reflexivity | discriminate]. }
  apply entryOk_mono; [assumption|].
  apply In_setStatus in He. destruct He as [[He _]|[st [He [Hk Hs]]]].
  - now apply Hok.
  - assert (Heq : (fst e, st) = (t, st0)).
    { apply (keys_inj l); auto. }
    injection Heq as Ht _. destruct e as [t' st']. cbn in *. now subst.
Qed.

Lemma ranTask_at l t st0 :
  NoDup (map ekey l) -> In (t, st0) l ->
  (ranTask l t <-> hookRan st0).
Proof.
  intros Hnd Hin. split.
  - intros [st [Hst Hs]].
    assert (Heq : (t, st) = (t, st0)) by (apply (keys_inj l); auto).
    injection Heq as ->. exact Hs.
  - intros Hs. exists st0. auto.
Qed.

Lemma ranTask_setStatus l t st0 st1 u :
  NoDup (map ekey l) -> In (t, st0) l ->
  (ranTask (setStatus (key t) st1 l) u <->
   (u <> t /\ ranTask l u) \/ (u = t /\ hookRan st1)).
Proof.
  intros Hnd Hin. split.
  - intros [st [He Hs]]. apply In_setStatus in He.
    destruct He as [[He Hne]|[st' [He [Hk Hst]]]].
    + left. split; [|exists st; auto].
      intros ->. apply Hne. reflexivity.
    + right. cbn in He, Hk, Hst.
      assert (Heq : (u, st') = (t, st0)) by (apply (keys_inj l); auto).
      injection Heq as -> _. split; [reflexivity|]. now rewrite <- Hst.
  - intros [[Hne [st [He Hs]]]|[-> Hs]].
    + exists st. split; [|assumption]. apply In_setStatus. left.
      split; [assumption|]. intros Hk.
      assert (Heq : (u, st) = (t, st0)) by (apply (keys_inj l); auto).
      injection Heq as Hu _. contradiction.
    + exists st1. split; [|assumption]. apply In_setStatus. right.
      exists st0. auto.
Qed.

Lemma ranTask_same l t st0 st1 u :
  NoDup (map ekey l) -> In (t, st0) l ->
  (hookRan st0 <-> hookRan st1) ->
  (ranTask (setStatus (key t) st1 l) u <-> ranTask l u).
Proof.
  intros Hnd Hin Hiff.
  rewrite (ranTask_setStatus l t st0 st1 u Hnd Hin).
  pose proof (ranTask_at l t st0 Hnd Hin) as Hat.
  split.
  - intros [[_ H]|[-> H]]; [assumption|]. apply Hat. now apply Hiff.
  - intros [st [He Hs]]. destruct (Key_eq_dec (key u) (key t)) as [Hk|Hne].
    + assert (Heq : (u, st) = (t, st0)) by (apply (keys_inj l); auto).
      injection Heq as -> ->. right. split; [reflexivity|]. now apply Hiff.
    + left. split; [|exists st; auto]. intros ->. now apply Hne.
Qed.

(** ** Submitting a task *)

Lemma In_keys_insertTask t l k :
  In k (map ekey (insertTask t l)) <-> k = key t \/ In k (map ekey l).
Proof.
  induction l as [|e l IH]; cbn.
  - unfold ekey. cbn. intuition.
  - destruct (Key_eqb (ekey e) (key t)) eqn:Hk.
    + apply Key_eqb_spec in Hk.
      destruct (isPending e && force t && negb (force (fst e))); cbn.
      * unfold ekey at 1. cbn. rewrite <- Hk. intuition.
      * rewrite <- Hk. intuition.
    + cbn. rewrite IH. intuition.
Qed.

Lemma NoDup_insertTask t l :
  NoDup (map ekey l) -> NoDup (map ekey (insertTask t l)).
Proof.
  induction l as [|e l IH]; cbn; intros Hnd.
  - constructor; [intros [] | constructor].
  - inversion Hnd as [|? ? Hnot Hnd']; subst.
    destruct (Key_eqb (ekey e) (key t)) eqn:Hk.
    + apply Key_eqb_spec in Hk.
      destruct (isPending e && force t && negb (force (fst e))); cbn.
      * unfold ekey at 1. cbn. rewrite <- Hk. now constructor.
      * now constructor.
    + apply Key_eqb_neq in Hk. cbn. constructor; [|now apply IH].
      rewrite In_keys_insertTask. intros [H|H]; [congruence | contradiction].
Qed.

Lemma In_insertTask t l e :
  In e (insertTask t l) -> In e l \/ e = (t, Pending).
Proof.
  induction l as [|e0 l IH]; cbn.
  - intros [<-|[]]. now right.
  - destruct (Key_eqb (ekey e0) (key t)).
    + destruct (isPending e0 && force t && negb (force (fst e0))).
      * intros [<-|H]; [now right | left; now right].
      * intros H. now left.
    + intros [<-|H]; [left; now left|].
      destruct (IH H) as [H'|H']; [left; now right | now right].
Qed.

Lemma insertTask_keeps t l e :
  In e l -> isPending e = false -> In e (insertTask t l).
Proof.
  induction l as [|e0 l IH]; cbn; [tauto|].
  intros [<-|Hin] Hp.
  - destruct (Key_eqb (ekey e0) (key t)); [|now left].
    rewrite Hp. cbn. now left.
  - destruct (Key_eqb (ekey e0) (key t)).
    + right. exact Hin.
    + right. now apply IH.
Qed.

Lemma resultOf_insertTask t l d :
  resultOf d (insertTask t l) = resultOf d l.
Proof.
  unfold resultOf, lookup. induction l as [|e l IH]; cbn.
  - unfold ekey. cbn. destruct (Key_eqb (key t) d); reflexivity.
  - destruct (Key_eqb (ekey e) (key t)) eqn:Hk.
    + apply Key_eqb_spec in Hk.
      destruct (isPending e) eqn:Hp; cbn; [|reflexivity].
      destruct (force t && negb (force (fst e))); cbn; [|reflexivity].
      unfold ekey at 1. cbn. rewrite <- Hk.
      destruct (Key_eqb (ekey e) d); [|reflexivity].
      destruct e as [t0 st0]. unfold isPending in Hp. cbn in *.
      destruct st0; try discriminate. reflexivity.
    + cbn. destruct (Key_eqb (ekey e) d); [reflexivity | exact IH].
Qed.

Lemma forallb_pointwise (A : Type) (f g : A -> bool) l :
  (forall a, f a = g a) -> forallb f l = forallb g l.
Proof.
  intros H. induction l as [|a l IH]; cbn; [reflexivity|].
  now rewrite H, IH.
Qed.

Lemma existsb_pointwise (A : Type) (f g : A -> bool) l :
  (forall a, f a = g a) -> existsb f l = existsb g l.
Proof.
  intros H. induction l as [|a l IH]; cbn; [reflexivity|].
  now rewrite H, IH.
Qed.

Lemma ready_insertTask t l t' : ready (insertTask t l) t' = ready l t'.
Proof.
  unfold ready. apply forallb_pointwise. intros d. unfold succeeded.
  now rewrite resultOf_insertTask.
Qed.

Lemma blocked_insertTask t l t' : blocked (insertTask t l) t' = blocked l t'.
Proof.
  unfold blocked. apply existsb_pointwise. intros d. unfold failed.
  now rewrite resultOf_insertTask.
Qed.

Lemma entryOk_insertTask m t l e :
  entryOk m l e -> entryOk m (insertTask t l) e.
Proof.
  unfold entryOk. now rewrite ready_insertTask, blocked_insertTask.
Qed.

Lemma ranTask_insertTask t l u :
  ranTask (insertTask t l) u <-> ranTask l u.
Proof.
  split; intros [st [He Hs]].
  - apply In_insertTask in He. destruct He as [He|He].
    + exists st. auto.
    + injection He as _ ->. destruct Hs.
  - exists st. split; [|assumption]. apply insertTask_keeps; [assumption|].
    unfold isPending. cbn.
    destruct st; [destruct Hs | reflexivity | reflexivity].
Qed.



Lemma seed_NoDup tasks : NoDup (map ekey (seed tasks)).
Proof.
  unfold seed.
  assert (H : forall acc, NoDup (map ekey acc) ->
            NoDup (map ekey (fold_left (fun a t => insertTask t a) tasks acc))).
  { induction tasks as [|t tasks IH]; intros acc Hacc; cbn; [assumption|].
    apply IH. now apply NoDup_insertTask. }
  apply H. constructor.
Qed.

Lemma seed_entries tasks e :
  In e (seed tasks) -> In (fst e) tasks /\ snd e = Pending.
Proof.
  unfold seed.
  assert (H : forall acc,
            In e (fold_left (fun a t => insertTask t a) tasks acc) ->
            In e acc \/ (In (fst e) tasks /\ snd e = Pending)).
  { induction tasks as [|t tasks IH]; intros acc He; cbn in He; [now left|].
    apply IH in He. destruct He as [He|[He Hs]].
    - apply In_insertTask in He. destruct He as [He| ->]; [now left|].
      right. cbn. auto.
    - right. cbn. auto. }
  intros He. apply H in He. destruct He as [[]|He]. exact He.
Qed.

(** ** The tasks behind dependency keys *)

Lemma dependencyTask_key g d t : dependencyTask g d = Some t -> key t = d.
Proof.
  unfold dependencyTask.
  destruct (existsb _ (Graph.nodes g)); [|discriminate].
  intros [= <-]. destruct d. reflexivity.
Qed.

Lemma dependencyTask_unforced g d t :
  dependencyTask g d = Some t -> force t = false.
Proof.
  unfold dependencyTask.
  destruct (existsb _ (Graph.nodes g)); [|discriminate].
  now intros [= <-].
Qed.

(** For a build key of the snapshot, the task behind the key is the task
    the build task factory makes for the module, not forced. *)
Lemma dependencyTask_factory g n :
  In n (Graph.nodes g) -> Graph.kind n = Graph.Build ->
  option_map (fun t => [t]) (dependencyTask g (keyFor g Graph.Build n)) =
  Some (BuildTask_factory g n false).
Proof.
  intros Hin Hk. destruct n as [k nm]. cbn in Hk. subst k.
  unfold dependencyTask. cbn [keyFor k_kind k_name k_version Graph.name].
  assert (He : existsb (Graph.Node_eqb {| Graph.kind := Graph.Build;
                                          Graph.name := nm |})
                       (Graph.nodes g) = true).
  { apply existsb_exists. eexists. split; [exact Hin|].
    now apply GraphFacts.Node_eqb_spec. }
  rewrite He. reflexivity.
Qed.

Lemma find_app (A : Type) (f : A -> bool) l l' :
  find f (l ++ l') = match find f l with
                     | Some a => Some a
                     | None => find f l'
                     end.
Proof.
  induction l as [|a l IH]; cbn; [reflexivity|].
  destruct (f a); [reflexivity | exact IH].
Qed.

Lemma closureKeys_NoDup g l : NoDup (closureKeys g l).
Proof.
  unfold closureKeys. apply NoDup_rev.
  apply TraversalFacts.traverse_NoDup; [apply Key_eqb_spec | constructor].
Qed.

Lemma derived_entry g l e :
  In e (derived g l) ->
  snd e = Pending /\ lookup (ekey e) l = None /\
  dependencyTask g (ekey e) = Some (fst e) /\
  In (ekey e) (closureKeys g l).
Proof.
  unfold derived. rewrite in_flat_map. intros [d [Hd He]].
  destruct (lookup d l) eqn:Hl; [destruct He|].
  destruct (dependencyTask g d) as [t|] eqn:Ht; [|destruct He].
  destruct He as [<-|[]]. unfold ekey. cbn [fst snd].
  rewrite (dependencyTask_key g d t Ht). auto.
Qed.

Lemma derived_keys_NoDup g l : NoDup (map ekey (derived g l)).
Proof.
  unfold derived. pose proof (closureKeys_NoDup g l) as Hnd.
  induction (closureKeys g l) as [|d ds IH]; cbn; [constructor|].
  inversion Hnd as [|? ? Hnot Hnd']; subst.
  rewrite map_app. apply NoDup_app.
  - destruct (lookup d l); [constructor|].
    destruct (dependencyTask g d); cbn; [|constructor].
    constructor; [intros [] | constructor].
  - now apply IH.
  - intros k Hk Hk'. apply Hnot.
    assert (k = d) as ->.
    { destruct (lookup d l); [destruct Hk|].
      destruct (dependencyTask g d) as [t|] eqn:Ht; [|destruct Hk].
      destruct Hk as [<-|[]]. unfold ekey. cbn.
      exact (dependencyTask_key g d t Ht). }
    apply in_map_iff in Hk'. destruct Hk' as [e [He Hin]].
    apply in_flat_map in Hin. destruct Hin as [d' [Hd' Hin]].
    destruct (lookup d' l); [destruct Hin|].
    destruct (dependencyTask g d') as [t|] eqn:Ht; [|destruct Hin].
    destruct Hin as [<-|[]]. unfold ekey in He. cbn in He.
    rewrite (dependencyTask_key g d' t Ht) in He. now subst d'.
Qed.

Lemma NoDup_close g l :
  NoDup (map ekey l) -> NoDup (map ekey (close g l)).
Proof.
  intros Hnd. unfold close. rewrite map_app. apply NoDup_app.
  - assumption.
  - apply derived_keys_NoDup.
  - intros k Hk Hk'. apply in_map_iff in Hk'. destruct Hk' as [e [<- He]].
    apply derived_entry in He. destruct He as [_ [Hl _]].
    exact (lookup_None _ _ Hl Hk).
Qed.

Lemma In_close g l e :
  In e (close g l) -> In e l \/ (In e (derived g l) /\ snd e = Pending).
Proof.
  unfold close. rewrite in_app_iff. intros [H|H]; [now left|].
  right. split; [assumption|]. now apply derived_entry in H.
Qed.

Lemma close_keeps g l e : In e l -> In e (close g l).
Proof. unfold close. rewrite in_app_iff. now left. Qed.

Lemma resultOf_close g l d : resultOf d (close g l) = resultOf d l.
Proof.
  unfold resultOf, lookup, close. rewrite find_app.
  destruct (find (fun e => Key_eqb (ekey e) d) l) as [e|]; [reflexivity|].
  destruct (find (fun e => Key_eqb (ekey e) d) (derived g l)) as [[t st]|] eqn:Hf;
    [|reflexivity].
  apply find_some in Hf. destruct Hf as [Hin _].
  apply derived_entry in Hin. destruct Hin as [Hs _]. cbn in Hs. now subst st.
Qed.

Lemma ready_close g l t : ready (close g l) t = ready l t.
Proof.
  unfold ready. apply forallb_pointwise. intros d. unfold succeeded.
  now rewrite resultOf_close.
Qed.

Lemma blocked_close g l t : blocked (close g l) t = blocked l t.
Proof.
  unfold blocked. apply existsb_pointwise. intros d. unfold failed.
  now rewrite resultOf_close.
Qed.

Lemma entryOk_close m g l e : entryOk m l e -> entryOk m (close g l) e.
Proof.
  unfold entryOk. now rewrite ready_close, blocked_close.
Qed.

Lemma ranTask_close g l u : ranTask (close g l) u <-> ranTask l u.
Proof.
  split; intros [st [He Hs]].
  - apply In_close in He. destruct He as [He|[_ He]].
    + exists st. auto.
    + cbn in He. subst st. destruct Hs.
  - exists st. split; [now apply close_keeps | assumption].
Qed.

Lemma enter_one g t l : enter g [t] l = close g (insertTask t l).
Proof. reflexivity. Qed.

Lemma enter_seed g tasks : enter g tasks [] = close g (seed tasks).
Proof. reflexivity. Qed.

(** The closure is closed: every dependency key of an entry has an
    entry of its own, unless the key has no task on the snapshot. *)
Lemma close_closed g l e d :
  NoDup (map ekey l) ->
  In e (close g l) -> In d (dependencyTaskKeys (fst e)) ->
  In d (map ekey (close g l)) \/ dependencyTask g d = None.
Proof.
  intros Hnd He Hd.
  assert (Hcov : forall a b, In b (dependencyKeysOf g l a) ->
                             In b (keyUniverse g l)).
  { intros a b. unfold dependencyKeysOf, taskOf, keyUniverse.
    destruct (lookup a l) as [e0|] eqn:Hl.
    - intros Hb. apply lookup_In in Hl. destruct Hl as [Hin _].
      apply in_or_app. right. apply in_or_app. left.
      apply in_flat_map. exists e0. auto.
    - unfold dependencyTask.
      destruct (existsb _ (Graph.nodes g)); [|intros []].
      cbn [dependencyTaskKeys]. intros Hb.
      apply in_or_app. right. apply in_or_app. right.
      apply in_flat_map. exists (k_kind a). split.
      + unfold allKinds. destruct (k_kind a); cbn; tauto.
      + apply in_map_iff in Hb. destruct Hb as [n [<- Hn]].
        apply in_map. unfold Graph.directDependencies in Hn.
        apply in_map_iff in Hn. destruct Hn as [ed [<- Hed]].
        apply in_map. apply filter_In in Hed. tauto. }
  destruct (TraversalFacts.traverse_closed
              Key Key_eqb Key_eqb_spec (dependencyKeysOf g l)
              (keyUniverse g l) Hcov
              (S (List.length (map ekey l)
                  + Traversal.weight Key_eqb (dependencyKeysOf g l)
                                     (keyUniverse g l) []))
              (map ekey l) []) as [_ [Hfront Hclosed]].
  - lia.
  - intros f Hf. unfold keyUniverse. apply in_or_app. now left.
  - intros v w [].
  - assert (Hvis : forall k, In k (closureKeys g l) ->
                             In k (map ekey (close g l)) \/
                             dependencyTask g k = None).
    { intros k Hk. destruct (lookup k l) as [e0|] eqn:Hl.
      - left. apply lookup_In in Hl. destruct Hl as [Hin <-].
        apply in_map. now apply close_keeps.
      - destruct (dependencyTask g k) as [t|] eqn:Ht; [|now right].
        left. apply in_map_iff. exists (t, Pending). split.
        + unfold ekey. cbn. exact (dependencyTask_key g k t Ht).
        + unfold close. apply in_or_app. right. unfold derived.
          apply in_flat_map. exists k. split; [assumption|].
          rewrite Hl, Ht. now left. }
    apply Hvis. unfold closureKeys. rewrite <- in_rev.
    assert (Hkey : In (ekey e) (closureKeys g l) /\
                   dependencyKeysOf g l (ekey e) = dependencyTaskKeys (fst e)).
    { apply In_close in He. destruct He as [He|[He _]].
      - split.
        + unfold closureKeys. rewrite <- in_rev. apply Hfront.
          now apply in_map.
        + unfold dependencyKeysOf, taskOf.
          now rewrite (lookup_unique l e Hnd He).
      - apply derived_entry in He. destruct He as [_ [Hl [Ht Hin]]].
        split; [assumption|].
        unfold dependencyKeysOf, taskOf. now rewrite Hl, Ht. }
    destruct Hkey as [Hin Hdeps]. unfold closureKeys in Hin.
    rewrite <- in_rev in Hin.
    destruct (Hclosed (ekey e) d Hin) as [H|[]]; [now rewrite Hdeps | exact H].
Qed.



Lemma ready_not_blocked l t : ready l t = true -> blocked l t = false.
Proof.
  unfold ready, blocked. rewrite forallb_forall. intros H.
  destruct (existsb (failed l) (dependencyTaskKeys t)) eqn:E; [|reflexivity].
  apply existsb_exists in E. destruct E as [d [Hd Hf]].
  specialize (H d Hd). unfold succeeded in H. unfold failed in Hf.
  destruct (resultOf d l) as [r|]; [|discriminate].
  rewrite H in Hf. discriminate.
Qed.

(** ** Rounds *)

Section Rounds.

Variable W : Type.
Variable execute : Task -> W -> W * HookReturn.
Variable graph : Graph.DependencyGraph.

Lemma capture_key t h : r_key (capture t h) = key t.
Proof. destruct h; reflexivity. Qed.

Lemma capture_outcome t h : outcome (capture t h) = Executed.
Proof. destruct h; reflexivity. Qed.

Lemma finish_entries (s : State W) t :
  entries (finish execute s t) =
  setStatus (key t) (Done (capture t (snd (execute t (world s))))) (entries s).
Proof. unfold finish. destruct (execute t (world s)); reflexivity. Qed.

Lemma finish_memo (s : State W) t : memo (finish execute s t) = memo s.
Proof. unfold finish. destruct (execute t (world s)); reflexivity. Qed.

Lemma finish_executed (s : State W) t :
  executed (finish execute s t) = executed s ++ [t].
Proof. unfold finish. destruct (execute t (world s)); reflexivity. Qed.

Lemma finish_world (s : State W) t :
  world (finish execute s t) = fst (execute t (world s)).
Proof. unfold finish. destruct (execute t (world s)); reflexivity. Qed.

Lemma replay_app ts us (w : W) :
  replay execute (ts ++ us) w = replay execute us (replay execute ts w).
Proof. unfold replay. apply fold_left_app. Qed.

Lemma Inv_init tasks m (w : W) : Inv (init graph tasks m w).
Proof.
  unfold Inv, init. cbn [entries memo executed]. rewrite enter_seed.
  assert (Hp : forall e, In e (close graph (seed tasks)) -> snd e = Pending).
  { intros e He. apply In_close in He. destruct He as [He|[_ He]]; [|assumption].
    now apply seed_entries in He. }
  repeat split.
  - apply NoDup_close, seed_NoDup.
  - intros e He. unfold entryOk. now rewrite (Hp e He).
  - constructor.
  - intros [].
  - intros [st [He Hs]]. apply Hp in He. cbn in He. subst st. destruct Hs.
Qed.

Lemma Inv_record (s : State W) t r :
  Inv s -> In (t, Pending) (entries s) ->
  entryOk (memo s) (entries s) (t, Done r) ->
  outcome r <> Executed ->
  Inv (record s t r).
Proof.
  intros [Hnd [Hok [Hni Hinv]]] Hin Hnew Hout.
  unfold Inv, record. cbn [entries memo executed]. repeat split.
  - now rewrite setStatus_keys.
  - now apply (entries_setStatus (memo s) (entries s) t Pending).
  - assumption.
  - intros Hu. apply Hinv in Hu.
    apply (ranTask_same (entries s) t Pending (Done r) t0); auto.
    cbn. tauto.
  - intros Hu. apply Hinv.
    apply (ranTask_same (entries s) t Pending (Done r) t0) in Hu; auto.
    cbn. tauto.
Qed.

Lemma Inv_step limit (s s' : State W) :
  Inv s -> step execute graph limit s s' -> Inv s'.
Proof.
  intros HI Hstep.
  destruct Hstep as [t Hin Hb|t r Hin Hr Hc|t Hin Hr Hc Hlim|t Hin|t].
  - apply Inv_record; auto.
    + unfold entryOk. cbn. auto.
    + cbn. discriminate.
  - apply Inv_record; auto.
    + unfold entryOk. cbn. repeat split; auto. congruence.
    + cbn. discriminate.
  - destruct HI as [Hnd [Hok [Hni Hinv]]].
    unfold Inv, start. cbn [entries memo executed]. repeat split.
    + now rewrite setStatus_keys.
    + apply (entries_setStatus (memo s) (entries s) t Pending); auto.
      unfold entryOk. cbn. auto.
    + assumption.
    + intros Hu. apply Hinv in Hu.
      apply (ranTask_same (entries s) t Pending Running t0); auto.
      cbn. tauto.
    + intros Hu. apply Hinv.
      apply (ranTask_same (entries s) t Pending Running t0) in Hu; auto.
      cbn. tauto.
  - destruct HI as [Hnd [Hok [Hni Hinv]]].
    pose proof (Hok _ Hin) as Hrun. unfold entryOk in Hrun. cbn in Hrun.
    assert (Hfresh : ~ In (key t) (map key (executed s))).
    { intros Hk. apply in_map_iff in Hk. destruct Hk as [u [Hk Hu]].
      apply Hinv in Hu. destruct Hu as [st [Hu Hs]].
      assert (Heq : (u, st) = (t, Running)) by (apply (keys_inj (entries s)); auto).
      injection Heq as _ ->. exact Hs. }
    unfold Inv. rewrite finish_entries, finish_memo, finish_executed.
    repeat split.
    + now rewrite setStatus_keys.
    + apply (entries_setStatus (memo s) (entries s) t Running); auto.
      unfold entryOk. cbn. rewrite capture_key, capture_outcome. auto.
    + rewrite map_app. apply NoDup_app;
        [assumption | constructor; [intros [] | constructor] |].
      intros a Ha [<-|[]]. contradiction.
    + intros Hu. apply in_app_or in Hu.
      apply (ranTask_setStatus (entries s) t Running _ t0 Hnd Hin).
      destruct Hu as [Hu|[<-|[]]].
      * left. split; [|now apply Hinv].
        intros ->. apply Hfresh. now apply in_map.
      * right. split; [reflexivity|]. cbn. apply capture_outcome.
    + intros Hu.
      apply (ranTask_setStatus (entries s) t Running _ t0 Hnd Hin) in Hu.
      apply in_or_app. destruct Hu as [[_ Hu]|[-> _]].
      * left. now apply Hinv.
      * right. now left.
  - destruct HI as [Hnd [Hok [Hni Hinv]]].
    unfold Inv, submit. cbn [entries memo executed]. rewrite enter_one.
    repeat split.
    + now apply NoDup_close, NoDup_insertTask.
    + intros e He. apply In_close in He. destruct He as [He|[_ He]].
      * apply entryOk_close.
        apply In_insertTask in He. destruct He as [He| ->].
        -- apply entryOk_insertTask. now apply Hok.
        -- unfold entryOk. cbn. trivial.
      * unfold entryOk. now rewrite He.
    + assumption.
    + intros Hu. apply ranTask_close, ranTask_insertTask. now apply Hinv.
    + intros Hu. apply Hinv. now apply ranTask_close, ranTask_insertTask in Hu.
Qed.

Lemma Inv_reachable limit (s0 s : State W) :
  Inv s0 -> reachable execute graph limit s0 s -> Inv s.
Proof.
  intros H0 Hr. induction Hr as [|y z Hyz _ IH]; [assumption|].
  eapply Inv_step; eassumption.
Qed.

(** ** The world is what the hook made of it *)

Lemma Traced_init tasks m (w : W) : Traced execute w (init graph tasks m w).
Proof.
  split; [reflexivity|]. intros t r Hin _. exfalso.
  unfold init in Hin. cbn [entries] in Hin. rewrite enter_seed in Hin.
  apply In_close in Hin. destruct Hin as [Hin|[_ Hin]]; [|discriminate Hin].
  apply seed_entries in Hin. destruct Hin as [_ Hin]. discriminate Hin.
Qed.

Lemma Traced_same (w0 : W) (s s' : State W) :
  Traced execute w0 s ->
  world s' = world s -> executed s' = executed s ->
  (forall t r, In (t, Done r) (entries s') -> outcome r = Executed ->
               In (t, Done r) (entries s)) ->
  Traced execute w0 s'.
Proof.
  intros [Hw Hres] Hw' He' Hsub. split.
  - now rewrite Hw', He'.
  - intros t r Hin Ho. rewrite He'. apply Hres; auto.
Qed.

Lemma Traced_step limit (w0 : W) (s s' : State W) :
  Inv s -> Traced execute w0 s -> step execute graph limit s s' ->
  Traced execute w0 s'.
Proof.
  intros [Hnd _] HT Hstep.
  destruct Hstep as [t Hin Hb|t r Hin Hr Hc|t Hin Hr Hc Hlim|t Hin|t].
  - apply (Traced_same w0 s); auto. intros u r Hu Ho.
    unfold record in Hu. cbn [entries] in Hu. apply In_setStatus in Hu.
    destruct Hu as [[Hu _]|[st [_ [_ Hs]]]]; [assumption|].
    cbn in Hs. injection Hs as ->. discriminate Ho.
  - apply (Traced_same w0 s); auto. intros u r' Hu Ho.
    unfold record in Hu. cbn [entries] in Hu. apply In_setStatus in Hu.
    destruct Hu as [[Hu _]|[st [_ [_ Hs]]]]; [assumption|].
    cbn in Hs. injection Hs as ->. discriminate Ho.
  - apply (Traced_same w0 s); auto. intros u r Hu Ho.
    unfold start in Hu. cbn [entries] in Hu. apply In_setStatus in Hu.
    destruct Hu as [[Hu _]|[st [_ [_ Hs]]]]; [assumption|].
    discriminate Hs.
  - destruct HT as [Hw Hres]. split.
    + rewrite finish_world, finish_executed, replay_app, <- Hw. reflexivity.
    + intros u r Hu Ho. rewrite finish_entries in Hu. rewrite finish_executed.
      apply In_setStatus in Hu.
      destruct Hu as [[Hu _]|[st [Hu [Hk Hs]]]].
      * destruct (Hres u r Hu Ho) as [pre [post [He Hr]]].
        exists pre, (post ++ [t]). split; [|assumption].
        rewrite He, <- app_assoc. reflexivity.
      * cbn in Hu, Hk, Hs.
        assert (Heq : (u, st) = (t, Running))
          by (apply (keys_inj (entries s)); auto).
        injection Heq as -> _. injection Hs as ->.
        exists (executed s), []. split; [reflexivity|]. now rewrite <- Hw.
  - apply (Traced_same w0 s); auto. intros u r Hu Ho.
    unfold submit in Hu. cbn [entries] in Hu. rewrite enter_one in Hu.
    apply In_close in Hu. destruct Hu as [Hu|[_ Hu]]; [|discriminate Hu].
    apply In_insertTask in Hu. destruct Hu as [Hu|Hu]; [assumption|].
    discriminate Hu.
Qed.

Lemma Traced_reachable limit (w0 : W) (s0 s : State W) :
  Inv s0 -> Traced execute w0 s0 ->
  reachable execute graph limit s0 s -> Traced execute w0 s.
Proof.
  intros HI HT Hr. induction Hr as [|y z Hyz Hr IH]; [assumption|].
  apply (Traced_step limit w0 y z); auto.
  now apply (Inv_reachable limit s0 y).
Qed.

(** ** The scheduler makes moves of the engine and runs out of them *)

Lemma setStatus_absent k st l :
  ~ In k (map ekey l) -> setStatus k st l = l.
Proof.
  unfold setStatus. induction l as [|e l IH]; cbn; intros Hk; [reflexivity|].
  destruct (Key_eqb (ekey e) k) eqn:He.
  - apply Key_eqb_spec in He. exfalso. apply Hk. now left.
  - rewrite IH; [reflexivity|]. intros H. apply Hk. now right.
Qed.

Lemma setStatus_cons k st e l :
  setStatus k st (e :: l) =
  (if Key_eqb (ekey e) k then (fst e, st) else e) :: setStatus k st l.
Proof. reflexivity. Qed.

Lemma debt_cons e l : debt (e :: l) = owed e + debt l.
Proof. reflexivity. Qed.

Lemma debt_setStatus l t st0 st1 :
  NoDup (map ekey l) -> In (t, st0) l ->
  debt (setStatus (key t) st1 l) + owed (t, st0) = debt l + owed (t, st1).
Proof.
  induction l as [|e l IH]; intros Hnd Hin; [destruct Hin|].
  cbn in Hnd. inversion Hnd as [|? ? Hnot Hnd']; subst.
  rewrite setStatus_cons, !debt_cons.
  destruct Hin as [->|Hin].
  - change (ekey (t, st0)) with (key t). rewrite Key_eqb_refl.
    rewrite (setStatus_absent (key t) st1 l Hnot). cbn [fst]. lia.
  - assert (Hne : Key_eqb (ekey e) (key t) = false).
    { apply Key_eqb_neq. intros Heq. apply Hnot. rewrite Heq.
      change (key t) with (ekey (t, st0)). now apply in_map. }
    rewrite Hne. specialize (IH Hnd' Hin). lia.
Qed.

Lemma pending_entry (e : Entry) : isPending e = true -> e = (fst e, Pending).
Proof.
  destruct e as [t st]. unfold isPending. cbn.
  destruct st; try discriminate. reflexivity.
Qed.

Lemma running_entry (e : Entry) : isRunning e = true -> e = (fst e, Running).
Proof.
  destruct e as [t st]. unfold isRunning. cbn.
  destruct st; try discriminate. reflexivity.
Qed.

(** What a move of the scheduler can be. *)
Lemma sched_cases limit (s s' : State W) :
  sched execute limit s = Some s' ->
  (exists t, In (t, Pending) (entries s) /\
             blocked (entries s) t = true /\
             s' = record s t (skipped t)) \/
  (exists t r, In (t, Pending) (entries s) /\
               ready (entries s) t = true /\
               cacheHit (memo s) t = Some r /\
               s' = record s t (reused t r)) \/
  (exists t, In (t, Pending) (entries s) /\
             ready (entries s) t = true /\
             cacheHit (memo s) t = None /\
             runningCount s < limit /\
             s' = start s t) \/
  (exists t, In (t, Running) (entries s) /\ s' = finish execute s t).
Proof.
  unfold sched.
  destruct (find (fun e => isPending e && blocked (entries s) (fst e))
                 (entries s)) as [e|] eqn:Hb.
  { intros [= <-]. apply find_some in Hb. destruct Hb as [Hin Hp].
    apply andb_true_iff in Hp. destruct Hp as [Hp Hbl].
    left. exists (fst e). rewrite <- pending_entry; auto. }
  assert (Hfin : match find isRunning (entries s) with
                 | Some e' => Some (finish execute s (fst e'))
                 | None => None
                 end = Some s' ->
                 exists t, In (t, Running) (entries s) /\
                           s' = finish execute s t).
  { destruct (find isRunning (entries s)) as [e'|] eqn:Hr; [|discriminate].
    intros [= <-]. apply find_some in Hr. destruct Hr as [Hin Hp].
    exists (fst e'). rewrite <- running_entry; auto. }
  destruct (find (fun e => isPending e && ready (entries s) (fst e))
                 (entries s)) as [e|] eqn:Hr; [|intros H; do 3 right; auto].
  apply find_some in Hr. destruct Hr as [Hin Hp].
  apply andb_true_iff in Hp. destruct Hp as [Hp Hrd].
  rewrite (pending_entry e Hp) in Hin.
  destruct (cacheHit (memo s) (fst e)) as [r|] eqn:Hc.
  { intros [= <-]. right. left. exists (fst e), r. auto. }
  destruct (Nat.ltb (runningCount s) limit) eqn:Hl;
    [|intros H; do 3 right; auto].
  intros [= <-]. apply Nat.ltb_lt in Hl.
  right. right. left. exists (fst e). auto.
Qed.

Lemma sched_step limit (s s' : State W) :
  sched execute limit s = Some s' -> step execute graph limit s s'.
Proof.
  intros H. apply sched_cases in H.
  destruct H as [[t [Hin [Hb ->]]]|[[t [r [Hin [Hr [Hc ->]]]]]|
                 [[t [Hin [Hr [Hc [Hl ->]]]]]|[t [Hin ->]]]]].
  - now apply step_skip.
  - now apply step_cached.
  - now apply step_start.
  - now apply step_finish.
Qed.

Lemma sched_debt limit (s s' : State W) :
  Inv s -> sched execute limit s = Some s' ->
  debt (entries s') < debt (entries s) /\
  map fst (entries s') = map fst (entries s).
Proof.
  intros [Hnd _] H. apply sched_cases in H.
  destruct H as [[t [Hin [Hb ->]]]|[[t [r [Hin [Hr [Hc ->]]]]]|
                 [[t [Hin [Hr [Hc [Hl ->]]]]]|[t [Hin ->]]]]].
  - unfold record, start; cbn [entries]. rewrite setStatus_tasks.
    split; [|reflexivity].
    pose proof (debt_setStatus (entries s) t Pending (Done (skipped t)) Hnd Hin) as H.
    cbn [owed snd] in H. lia.
  - unfold record, start; cbn [entries]. rewrite setStatus_tasks.
    split; [|reflexivity].
    pose proof (debt_setStatus (entries s) t Pending (Done (reused t r)) Hnd Hin) as H.
    cbn [owed snd] in H. lia.
  - unfold record, start; cbn [entries]. rewrite setStatus_tasks.
    split; [|reflexivity].
    pose proof (debt_setStatus (entries s) t Pending Running Hnd Hin) as H.
    cbn [owed snd] in H. lia.
  - rewrite finish_entries, setStatus_tasks. split; [|reflexivity].
    pose proof (debt_setStatus (entries s) t Running
                  (Done (capture t (snd (execute t (world s))))) Hnd Hin) as H.
    cbn [owed snd] in H. lia.
Qed.

Lemma forallb_false (A : Type) (f : A -> bool) l :
  forallb f l = false -> exists a, In a l /\ f a = false.
Proof.
  induction l as [|a l IH]; cbn; [discriminate|].
  destruct (f a) eqn:Ha.
  - intros H. destruct (IH H) as [b [Hb Hf]]. exists b. auto.
  - intros _. exists a. auto.
Qed.

Lemma filter_none (A : Type) (f : A -> bool) l :
  (forall a, In a l -> f a = false) -> filter f l = [].
Proof.
  induction l as [|a l IH]; cbn; intros H; [reflexivity|].
  rewrite (H a (or_introl eq_refl)). apply IH. intros b Hb. apply H. now right.
Qed.

(** When the scheduler has no move left, nothing is in flight, no
    pending entry is blocked and, under a limit of at least 1, no
    pending entry is ready. *)
Lemma sched_None limit (s : State W) :
  sched execute limit s = None ->
  (forall e, In e (entries s) -> isRunning e = false) /\
  (forall e, In e (entries s) ->
             isPending e && blocked (entries s) (fst e) = false) /\
  (1 <= limit ->
   forall e, In e (entries s) ->
             isPending e && ready (entries s) (fst e) = false).
Proof.
  intros Hs. unfold sched in Hs.
  destruct (find (fun e => isPending e && blocked (entries s) (fst e))
                 (entries s)) as [e|] eqn:Hb; [discriminate|].
  assert (Hnorun : match find isRunning (entries s) with
                   | Some e' => Some (finish execute s (fst e'))
                   | None => None
                   end = None ->
                   forall e, In e (entries s) -> isRunning e = false).
  { destruct (find isRunning (entries s)) as [e'|] eqn:Hr; [discriminate|].
    intros _. exact (find_none _ _ Hr). }
  destruct (find (fun e => isPending e && ready (entries s) (fst e))
                 (entries s)) as [e|] eqn:Hr.
  - destruct (cacheHit (memo s) (fst e)); [discriminate|].
    destruct (Nat.ltb (runningCount s) limit) eqn:Hl; [discriminate|].
    apply Nat.ltb_ge in Hl. specialize (Hnorun Hs).
    split; [assumption|]. split; [exact (find_none _ _ Hb)|].
    intros Hlim. exfalso.
    unfold runningCount in Hl. rewrite (filter_none _ _ _ Hnorun) in Hl.
    cbn in Hl. lia.
  - split; [now apply Hnorun|]. split; [exact (find_none _ _ Hb)|].
    intros _. exact (find_none _ _ Hr).
Qed.

(** With nothing in flight and nothing pending that is ready or blocked,
    a well-formed round has a result for every key. *)
Lemma idle_complete (s : State W) :
  Inv s ->
  wellFormed (map fst (entries s)) ->
  (forall e, In e (entries s) -> isRunning e = false) ->
  (forall e, In e (entries s) ->
             isPending e && blocked (entries s) (fst e) = false) ->
  (forall e, In e (entries s) ->
             isPending e && ready (entries s) (fst e) = false) ->
  complete s.
Proof.
  intros [Hnd _] [rank Hwf] Hrun Hblk Hrdy.
  assert (H : forall n e, In e (entries s) -> rank (ekey e) < n ->
                          isDone e = true).
  { induction n as [|n IH]; intros e He Hlt; [lia|].
    destruct e as [t st]. destruct st as [| |r]; [|now discriminate (Hrun _ He)|reflexivity].
    exfalso.
    assert (Hdeps : forall d, In d (dependencyTaskKeys t) ->
                      exists r, resultOf d (entries s) = Some r).
    { intros d Hd.
      destruct (Hwf t d) as [Hin Hrk]; [now apply (in_map fst _ (t, Pending)) | assumption |].
      rewrite map_map in Hin. apply in_map_iff in Hin.
      destruct Hin as [[t' st'] [Hk Hin]]. cbn in Hk.
      assert (Hdone : isDone (t', st') = true).
      { apply IH; [assumption|]. unfold ekey in *. cbn in *. rewrite Hk. lia. }
      destruct st' as [| |r]; try discriminate.
      exists r. rewrite <- Hk.
      now rewrite (resultOf_unique (entries s) t' (Done r) Hnd Hin). }
    pose proof (Hrdy _ He) as Hr. pose proof (Hblk _ He) as Hb.
    cbn in Hr, Hb.
    apply forallb_false in Hr. destruct Hr as [d [Hd Hs]].
    destruct (Hdeps d Hd) as [r Hres].
    assert (Hf : blocked (entries s) t = true).
    { unfold blocked. apply existsb_exists. exists d. split; [assumption|].
      unfold failed. unfold succeeded in Hs. rewrite Hres in *.
      now rewrite Hs. }
    congruence. }
  intros e He. apply (H (S (rank (ekey e)))); [assumption | lia].
Qed.

Lemma run_reachable limit fuel : forall s : State W,
  reachable execute graph limit s (run execute limit fuel s).
Proof.
  induction fuel as [|k IH]; intros s; cbn; [apply rtn1_refl|].
  destruct (sched execute limit s) as [s'|] eqn:Hs; [|apply rtn1_refl].
  unfold reachable in *. apply clos_rt_rtn1. eapply rt_trans.
  - apply rt_step. apply sched_step. exact Hs.
  - apply clos_rtn1_rt. apply IH.
Qed.

(** The fuel of a round is enough: it ends with no move left. *)
Lemma run_quiescent limit fuel : forall s : State W,
  Inv s -> debt (entries s) <= fuel ->
  sched execute limit (run execute limit fuel s) = None.
Proof.
  induction fuel as [|k IH]; intros s HI Hd; cbn.
  - destruct (sched execute limit s) as [s'|] eqn:Hs; [|reflexivity].
    destruct (sched_debt limit s s' HI Hs). lia.
  - destruct (sched execute limit s) as [s'|] eqn:Hs; [|exact Hs].
    destruct (sched_debt limit s s' HI Hs) as [Hlt _].
    apply IH; [|lia].
    exact (Inv_step limit s s' HI (sched_step limit s s' Hs)).
Qed.

Lemma run_tasks limit fuel : forall s : State W,
  Inv s ->
  map fst (entries (run execute limit fuel s)) = map fst (entries s).
Proof.
  induction fuel as [|k IH]; intros s HI; cbn; [reflexivity|].
  destruct (sched execute limit s) as [s'|] eqn:Hs; [|reflexivity].
  destruct (sched_debt limit s s' HI Hs) as [_ Ht].
  rewrite IH; [assumption|].
  exact (Inv_step limit s s' HI (sched_step limit s s' Hs)).
Qed.

Lemma process_reachable limit tasks m (w : W) :
  reachable execute graph limit (init graph tasks m w)
            (process execute graph limit tasks m w).
Proof. unfold process. apply run_reachable. Qed.

Lemma process_Inv limit tasks m (w : W) :
  Inv (process execute graph limit tasks m w).
Proof.
  eapply Inv_reachable; [apply Inv_init | apply process_reachable].
Qed.

Lemma process_Traced limit tasks m (w : W) :
  Traced execute w (process execute graph limit tasks m w).
Proof.
  eapply Traced_reachable;
    [apply Inv_init | apply Traced_init | apply process_reachable].
Qed.

Lemma process_quiescent limit tasks m (w : W) :
  sched execute limit (process execute graph limit tasks m w) = None.
Proof.
  unfold process. apply run_quiescent; [apply Inv_init | lia].
Qed.

(** A round whose entries are well-formed ends with a result for every
    key, under a limit of at least 1. *)
Lemma process_complete limit tasks m (w : W) :
  1 <= limit ->
  wellFormed (map fst (entries (init graph tasks m w))) ->
  complete (process execute graph limit tasks m w).
Proof.
  intros Hlim Hwf.
  destruct (sched_None limit _ (process_quiescent limit tasks m w))
    as [Hrun [Hblk Hrdy]].
  apply idle_complete; auto.
  - apply process_Inv.
  - unfold process. rewrite run_tasks; [assumption | apply Inv_init].
Qed.


Lemma process_covers_dependencies limit tasks m (w : W) t d :
  let s := process execute graph limit tasks m w in
  In t (map fst (entries s)) -> In d (dependencyTaskKeys t) ->
  In d (map ekey (entries s)) \/ dependencyTask graph d = None.
Proof.
  intros s Ht Hd. subst s.
  assert (Hmap : forall l : list Entry, map ekey l = map key (map fst l)).
  { intros l. now rewrite map_map. }
  unfold process in *. rewrite Hmap.
  rewrite run_tasks in * by apply Inv_init. rewrite <- Hmap.
  unfold init in *. cbn [entries] in *. rewrite enter_seed in *.
  apply in_map_iff in Ht. destruct Ht as [e [<- He]].
  apply (close_closed graph (seed tasks) e d); auto. apply seed_NoDup.
Qed.

(** ** Failure holds back every dependent *)

Lemma held_not_succeeded l k :
  NoDup (map ekey l) -> held l k -> succeeded l k = true -> False.
Proof.
  intros Hnd Hh Hs. unfold succeeded in Hs.
  destruct Hh as [[t [Hin <-]]|[t [r [Hin [<- Hf]]]]].
  - rewrite (resultOf_unique l t Pending Hnd Hin) in Hs. discriminate.
  - rewrite (resultOf_unique l t (Done r) Hnd Hin) in Hs. congruence.
Qed.

Lemma heldBack_held l k : heldBack l k -> held l k.
Proof.
  intros [H|[t [r [Hin [Hk [_ Hs]]]]]]; [now left|].
  right. exists t, r. auto.
Qed.

Lemma failedExecution_held l k : failedExecution l k -> held l k.
Proof.
  intros [r [Hr [_ Hs]]]. apply resultOf_Some in Hr.
  destruct Hr as [t [Hin Hk]]. right. exists t, r. auto.
Qed.

Lemma held_dependent (s : State W) a x :
  Inv s -> dependsOn (entries s) a x -> held (entries s) x ->
  heldBack (entries s) a.
Proof.
  intros [Hnd [Hok _]] [t [Hin [Hk Hd]]] Hx.
  apply in_map_iff in Hin. destruct Hin as [[t' st] [Ht Hin]].
  cbn in Ht. subst t'.
  assert (Hnot : ready (entries s) t = true -> False).
  { unfold ready. rewrite forallb_forall. intros H.
    exact (held_not_succeeded _ _ Hnd Hx (H x Hd)). }
  pose proof (Hok _ Hin) as He. unfold entryOk in He. cbn in He.
  destruct st as [| |r].
  - left. exists t. auto.
  - exfalso. tauto.
  - destruct He as [_ He]. destruct (outcome r) eqn:Ho.
    + exfalso. tauto.
    + right. exists t, r. tauto.
    + exfalso. tauto.
Qed.

Lemma held_transitive (s : State W) a b :
  Inv s -> clos_trans Key (dependsOn (entries s)) a b ->
  held (entries s) b -> heldBack (entries s) a.
Proof.
  intros HI Hab Hb. apply clos_trans_t1n in Hab.
  induction Hab as [a b Hab|a x b Hax _ IH].
  - now apply (held_dependent s a b).
  - apply (held_dependent s a x); auto. apply heldBack_held. now apply IH.
Qed.

Lemma heldBack_not_executed (s : State W) a :
  Inv s -> heldBack (entries s) a ->
  ~ In a (map key (executed s)) /\ ~ inFlight (entries s) a.
Proof.
  intros [Hnd [_ [_ Hinv]]] Hh. split.
  - intros Hin. apply in_map_iff in Hin. destruct Hin as [u [Hk Hu]].
    apply Hinv in Hu. destruct Hu as [st [Hu Hs]].
    destruct Hh as [[t [Hin <-]]|[t [r [Hin [<- [Ho _]]]]]].
    + assert (Heq : (u, st) = (t, Pending))
        by (apply (keys_inj (entries s)); auto).
      injection Heq as _ ->. exact Hs.
    + assert (Heq : (u, st) = (t, Done r))
        by (apply (keys_inj (entries s)); auto).
      injection Heq as _ ->. cbn in Hs. congruence.
  - intros [t' [Hin' Hk']].
    destruct Hh as [[t [Hin <-]]|[t [r [Hin [<- _]]]]].
    + assert (H : (t', Running) = (t, Pending))
        by (apply (keys_inj (entries s)); auto).
      discriminate H.
    + assert (H : (t', Running) = (t, Done r))
        by (apply (keys_inj (entries s)); auto).
      discriminate H.
Qed.

(** Once no pending entry is blocked, an entry that waited on a key
    without success has been skipped. *)
Lemma settled_heldBack (s : State W) a :
  Inv s ->
  (forall e, In e (entries s) ->
             isPending e && blocked (entries s) (fst e) = false) ->
  (exists x r, dependsOn (entries s) a x /\
               resultOf x (entries s) = Some r /\ success r = false) ->
  exists r, resultOf a (entries s) = Some r /\
            outcome r = SkippedDueToDependencyFailure /\ success r = false.
Proof.
  intros [Hnd [Hok _]] Hblk [x [rx [[t [Hin [Hk Hd]]] [Hx Hf]]]].
  apply in_map_iff in Hin. destruct Hin as [[t' st] [Ht Hin]].
  cbn in Ht. subst t'.
  assert (Hb : blocked (entries s) t = true).
  { unfold blocked. apply existsb_exists. exists x. split; [assumption|].
    unfold failed. rewrite Hx, Hf. reflexivity. }
  assert (Hnot : ready (entries s) t = true -> False).
  { intros Hr. apply ready_not_blocked in Hr. congruence. }
  pose proof (Hok _ Hin) as He. unfold entryOk in He. cbn in He.
  destruct st as [| |r].
  - pose proof (Hblk _ Hin) as Hp. cbn in Hp. congruence.
  - exfalso. tauto.
  - exists r. rewrite <- Hk.
    rewrite (resultOf_unique (entries s) t (Done r) Hnd Hin).
    destruct He as [_ He]. destruct (outcome r).
    + exfalso. tauto.
    + tauto.
    + exfalso. tauto.
Qed.

Lemma settled_transitive (s : State W) a b :
  Inv s ->
  (forall e, In e (entries s) ->
             isPending e && blocked (entries s) (fst e) = false) ->
  clos_trans Key (dependsOn (entries s)) a b ->
  (exists r, resultOf b (entries s) = Some r /\ success r = false) ->
  exists r, resultOf a (entries s) = Some r /\
            outcome r = SkippedDueToDependencyFailure /\ success r = false.
Proof.
  intros HI Hblk Hab Hb. apply clos_trans_t1n in Hab.
  induction Hab as [a b Hab|a x b Hax _ IH].
  - destruct Hb as [r [Hr Hf]].
    apply settled_heldBack; auto. exists b, r. auto.
  - destruct (IH Hb) as [r [Hr [_ Hf]]].
    apply settled_heldBack; auto. exists x, r. auto.
Qed.

(** ** One run per key *)






End Rounds.


(** C7: when the execution of a task fails, every task of the round that
    depends on it through one or more dependency keys is held back at
    every moment (the hook has not been applied to it and it is not in
    flight) and, when the round has ended, has a recorded result of kind
    skipped-due-to-dependency-failure.  The hook is never applied to it:
    the world at the end of the round is the hook applied, in turn, to
    the executed tasks, none of which has the key of the dependent.  The
    round covers the tasks behind the dependency keys of its tasks. *)
Theorem failure_skips_every_dependent :
  forall (W : Type) (execute : Task -> W -> W * HookReturn)
         (graph : Graph.DependencyGraph)
         (limit : nat) (tasks : list Task) (m : list TaskResult) (w : W),
    (forall s a b,
        reachable execute graph limit (init graph tasks m w) s ->
        clos_trans Key (dependsOn (entries s)) a b ->
        failedExecution (entries s) b ->
        world s = replay execute (executed s) w /\
        ~ In a (map key (executed s)) /\
        ~ inFlight (entries s) a) /\
    let s := process execute graph limit tasks m w in
    world s = replay execute (executed s) w /\
    (forall t d,
        In t (map fst (entries s)) -> In d (dependencyTaskKeys t) ->
        In d (map ekey (entries s)) \/ dependencyTask graph d = None) /\
    forall a b,
      clos_trans Key (dependsOn (entries s)) a b ->
      failedExecution (entries s) b ->
      (exists r, resultOf a (entries s) = Some r /\
                 outcome r = SkippedDueToDependencyFailure) /\
      ~ In a (map key (executed s)).
Proof.
  intros W execute graph limit tasks m w. split.
  - intros s a b Hr Hab Hb.
    assert (HI : Inv s) by (eapply Inv_reachable; [apply Inv_init | exact Hr]).
    split.
    + eapply Traced_reachable; [apply Inv_init | apply Traced_init | exact Hr].
    + apply heldBack_not_executed; [assumption|].
      apply (held_transitive W execute s a b); auto.
      now apply failedExecution_held.
  - intros s.
    assert (HI : Inv s) by apply process_Inv.
    split; [apply process_Traced|].
    split; [apply process_covers_dependencies|].
    intros a b Hab Hb.
    destruct (sched_None W execute limit s
                (process_quiescent W execute graph limit tasks m w))
      as [_ [Hblk _]].
    split.
    + destruct (settled_transitive W execute s a b HI Hblk Hab) as [r [Hr [Ho _]]].
      * destruct Hb as [r [Hr [_ Hf]]]. exists r. auto.
      * exists r. auto.
    + apply heldBack_not_executed; [assumption|].
      apply (held_transitive W execute s a b); auto.
      now apply failedExecution_held.
Qed.


(** Only A is requested on the chain and the hook fails on C: B and A
    end up skipped, and the hook has been applied to C alone. *)
Lemma failure_skips_every_dependent_witness :
  let s := process (Samples.loggingFailOn "C") Samples.chain 2
                   (BuildCommand.p_initialTasks Samples.requestA) [] [] in
  world s = ["C"] /\
  (exists r, resultOf (Samples.keyOf "A") (entries s) = Some r /\
             outcome r = SkippedDueToDependencyFailure) /\
  ~ In (Samples.keyOf "A") (map key (executed s)).
Proof.
  destruct (failure_skips_every_dependent
              (list string) (Samples.loggingFailOn "C") Samples.chain 2
              (BuildCommand.p_initialTasks Samples.requestA) [] [])
    as [_ [_ [_ H]]].
  split; [reflexivity|].
  apply (H (Samples.keyOf "A") (Samples.keyOf "C")).
  - apply t_trans with (Samples.keyOf "B"); apply t_step.
    + exists (nth 0 Samples.chainTasks Samples.lone).
      vm_compute. tauto.
    + exists (nth 1 Samples.chainTasks Samples.lone).
      vm_compute. tauto.
  - eexists. split; [vm_compute; reflexivity|]. split; reflexivity.
Defined.


End EngineFacts.

(* ------------------------------------------------------------------ *)
(** ** The build command *)

Module BuildCommandFacts.

Import Graph Task BuildCommand.

Lemma factory_single g m f t :
  In t (BuildTask_factory g m f) <-> BuildTask_factory g m f = [t].
Proof.
  unfold BuildTask_factory. split.
  - intros [<-|[]]. reflexivity.
  - intros [= <-]. now left.
Qed.

Lemma factory_target g m f t :
  In t (BuildTask_factory g m f) ->
  Task.kind t = Build /\ targetName t = Graph.name m /\ Task.force t = f.
Proof. intros [<-|[]]. cbn. auto. Qed.

Lemma In_factories g f l t :
  In t (List.concat (map (fun m => BuildTask_factory g m f) l)) <->
  exists m, In m l /\ In t (BuildTask_factory g m f).
Proof.
  rewrite in_concat. split.
  - intros [ts [Hts Ht]]. apply in_map_iff in Hts.
    destruct Hts as [m [<- Hm]]. exists m. auto.
  - intros [m [Hm Ht]]. exists (BuildTask_factory g m f). split; [|assumption].
    apply in_map_iff. exists m. auto.
Qed.

Lemma factories_targets g f l :
  map targetName (List.concat (map (fun m => BuildTask_factory g m f) l)) =
  map Graph.name l.
Proof.
  induction l as [|m l IH]; [reflexivity|]. cbn. now rewrite IH.
Qed.

Lemma In_changedModules names newGraph module m :
  In m (changedModules names newGraph module) <->
  In (Graph.name m) names /\ (m = module \/ affected newGraph module m).
Proof.
  unfold changedModules, affected. rewrite filter_In, JSFacts.includes_In.
  cbn [app In Graph.build getDependants].
  rewrite GraphFacts.getDependents_recursive, GraphFacts.hasKind_single.
  intuition.
Qed.

Lemma change_task_origin graph names newGraph module t :
  In t (changeHandler graph names newGraph module) ->
  Task.force t = true /\ In (targetName t) names /\
  exists m, (m = module \/ affected newGraph module m) /\
            targetName t = Graph.name m.
Proof.
  intros Ht. unfold changeHandler in Ht. apply In_factories in Ht.
  destruct Ht as [m [Hm Ht]]. apply In_changedModules in Hm.
  apply factory_target in Ht. destruct Ht as [_ [Hn Hf]].
  repeat split; [assumption | rewrite Hn; tauto |].
  exists m. tauto.
Qed.

Lemma change_task_made graph names newGraph module m :
  In (Graph.name m) names ->
  m = module \/ affected newGraph module m ->
  forcedFor (changeHandler graph names newGraph module) (Graph.name m).
Proof.
  intros Hn Hm.
  exists {| Task.kind := Build; targetName := Graph.name m;
            version := nodeVersion graph m;
            dependencyTaskKeys :=
              map (keyFor graph Build) (directDependencies graph m);
            Task.force := true |}.
  split; [|cbn; auto].
  unfold changeHandler. apply In_factories. exists m. split.
  - apply In_changedModules. tauto.
  - now left.
Qed.

(** C5: the initial tasks are derived from exactly the requested module
    names (every module when none is given): the modules are the build
    nodes of the graph whose name is requested, and there is one build
    task per such module, in order, with the caller's force flag. *)
Theorem initial_tasks_one_per_requested_module :
  forall graph args opts,
    let p := action graph args opts in
    (forall m, In m (p_modules p) <->
               In m (nodes graph) /\ Graph.kind m = Build /\
               match modules args with
               | None => True
               | Some names => In (Graph.name m) names
               end) /\
    map targetName (p_initialTasks p) = map Graph.name (p_modules p) /\
    List.length (p_initialTasks p) = List.length (p_modules p) /\
    (forall t, In t (p_initialTasks p) ->
               Task.kind t = Build /\ Task.force t = BuildCommand.force opts).
Proof.
  intros graph args opts p. subst p. unfold action. cbn [p_modules p_initialTasks].
  assert (Htargets :
            map targetName (initialTasks graph (getModules graph (modules args)) opts) =
            map Graph.name (getModules graph (modules args))).
  { unfold initialTasks. apply factories_targets. }
  split; [|split; [exact Htargets|split]].
  - intros m. unfold getModules, getNodes. rewrite filter_In, andb_true_iff.
    rewrite GraphFacts.hasKind_single. unfold hasName.
    destruct (modules args) as [names|].
    + rewrite JSFacts.includes_In. tauto.
    + intuition.
  - rewrite <- (length_map targetName), Htargets. apply length_map.
  - intros t Ht. unfold initialTasks in Ht. apply In_factories in Ht.
    destruct Ht as [m [_ Ht]]. apply factory_target in Ht. tauto.
Qed.

(** C1, as amended: on a change notification the handler builds tasks
    with [force = true] for the changed module if its name was requested
    and for every affected recursive dependant whose name was requested,
    and for nothing else: every task is forced, targets a requested name
    and belongs to the changed module or to one of its dependants. *)
Theorem change_tasks_forced_and_scoped :
  forall graph names newGraph module,
    let tasks := changeHandler graph names newGraph module in
    (forall t, In t tasks ->
               Task.force t = true /\ In (targetName t) names /\
               exists m, (m = module \/ affected newGraph module m) /\
                         targetName t = Graph.name m) /\
    (In (Graph.name module) names <-> forcedFor tasks (Graph.name module)) /\
    (forall d, affected newGraph module d -> In (Graph.name d) names ->
               forcedFor tasks (Graph.name d)).
Proof.
  intros graph names newGraph module tasks. subst tasks.
  split; [|split].
  - intros t. apply change_task_origin.
  - split.
    + intros Hn. apply change_task_made; auto.
    + intros [t [Ht [Hn _]]].
      destruct (change_task_origin graph names newGraph module t Ht)
        as [_ [Hin _]].
      congruence.
  - intros d Hd Hn. apply change_task_made; auto.
Qed.

(** C1, as stated, fails when the changed module was not requested: with
    only A requested on the chain A -> B -> C, a change of C yields the
    task of A alone and none for C. *)
Lemma changed_module_outside_scope_gets_no_task :
  ~ rebuildsChangedAndScoped Samples.chain ["A"] Samples.chain'
                             (Samples.module "C").
Proof.
  intros [[t [Hin [Hn _]]] _]. vm_compute in Hin.
  destruct Hin as [<-|[]]. discriminate Hn.
Qed.


(** C3 fails on the code: the handler hands the factory the graph of the
    original round, so every task it returns carries the version and the
    dependency keys that this graph gives its module, whatever the
    refreshed graph says.  When B comes to depend on C only in the
    refreshed graph, a change of C yields tasks for C and B that name no
    dependency, while a task for B built on the refreshed graph names
    the task of C. *)
Theorem change_tasks_built_on_original_graph :
  (forall graph names newGraph module t,
      In t (changeHandler graph names newGraph module) ->
      exists m,
        In m (changedModules names newGraph module) /\
        version t = nodeVersion graph m /\
        dependencyTaskKeys t =
        map (keyFor graph Build) (directDependencies graph m)) /\
  let tasks := changeHandler Samples.apart ["B"; "C"] Samples.joined
                             (Samples.module "C") in
  map targetName tasks = ["C"; "B"] /\
  tasks = BuildTask_factory Samples.apart (Samples.module "C") true ++
          BuildTask_factory Samples.apart (Samples.module "B") true /\
  map dependencyTaskKeys tasks = [[]; []] /\
  map dependencyTaskKeys
      (BuildTask_factory Samples.joined (Samples.module "B") true) =
  [[keyFor Samples.joined Build (Samples.module "C")]].
Proof.
  split.
  - intros graph names newGraph module t Ht.
    unfold changeHandler in Ht. apply In_factories in Ht.
    destruct Ht as [m [Hm [<-|[]]]]. exists m. cbn. auto.
  - vm_compute. repeat split.
Qed.

End BuildCommandFacts.

(* ------------------------------------------------------------------ *)
(** ** The watch loop *)

Module WatchFacts.

Import Graph Task BuildCommand.

Lemma forced_never_cached m t :
  Task.force t = true -> Engine.cacheHit m t = None.
Proof. unfold Engine.cacheHit. now intros ->. Qed.

(** C2, as amended: in watch mode a change event for a module makes the
    handler build a forced task, which the engine never serves from its
    memo, for every requested module that depends on the changed one
    through one or more build edges.  After a successful round over A, B
    and C, where A depends on B and B on C, a change event for C
    therefore makes the engine apply the hook to C, B and A again, in
    that order: whatever the hook does to the world when it succeeds,
    the world after each of the two rounds is the hook applied to C, to
    B and to A in turn, starting from the world before the round. *)
Theorem change_reruns_every_requested_dependant :
  (forall graph names newGraph module d,
      affected newGraph module d -> In (Graph.name d) names ->
      exists t, In t (changeHandler graph names newGraph module) /\
                targetName t = Graph.name d /\
                forall m, Engine.cacheHit m t = None) /\
  (forall (W : Type) (act : Task -> W -> W) (w : W),
      match Watch.processModules (Samples.succeeding act) 2 Samples.watchAll w
                                 [(Samples.chain', Samples.module "C")] with
      | [s1; s2] =>
          Watch.executedNames s1 = ["C"; "B"; "A"] /\
          Engine.world s1 =
          Engine.replay (Samples.succeeding act) (Engine.executed s1) w /\
          Watch.executedNames s2 = ["C"; "B"; "A"] /\
          Engine.world s2 =
          Engine.replay (Samples.succeeding act) (Engine.executed s2)
                        (Engine.world s1) /\
          Engine.complete s2
      | _ => False
      end) /\
  Samples.roundAfterChange = ["C"; "B"; "A"].
Proof.
  split; [|split].
  - intros graph names newGraph module d Hd Hn.
    destruct (BuildCommandFacts.change_task_made
                graph names newGraph module d Hn (or_intror Hd))
      as [t [Ht [Hname Hforce]]].
    exists t. repeat split; auto. intros m. now apply forced_never_cached.
  - intros W act w. vm_compute.
    repeat split.
    intros e [<-|[<-|[<-|[]]]]; reflexivity.
  - reflexivity.
Qed.

(** C2, as stated, fails: after the successful round over A, B and C the
    change event for C makes the engine apply the hook to A as well, A
    being a recursive dependant of C among the requested modules. *)
Lemma change_of_C_reruns_A :
  ~ rerunsOnlyCAndB Samples.roundAfterChange.
Proof.
  intros [_ [_ H]]. apply H. vm_compute. auto.
Qed.

End WatchFacts.

(* ------------------------------------------------------------------ *)
(** ** Enterprise initialisation *)

Module EnterpriseFacts.

Import Enterprise.

Lemma truthy_is_Some v : JS.truthy v = true -> exists s, v = Some s.
Proof. destruct v as [s|]; [eauto | discriminate]. Qed.

(** C8: [enterpriseInit] throws a [ConfigurationError] exactly when a
    (non-empty) client auth token is stored and the project configuration
    lacks its domain or its id, and then calls no backend; otherwise it
    returns the stored token with a secrets map that is what the backend
    serves when the token check succeeds, and empty when the check fails
    (after a warning) or when no token is stored (with no backend call). *)
Theorem enterpriseInit_outcomes :
  forall backend projectConfig environmentName,
    let token := readAuthToken backend in
    let missing := negb (JS.truthy (domain projectConfig))
                   || negb (JS.truthy (id projectConfig)) in
    let calls := fst (enterpriseInit backend projectConfig environmentName) in
    let out := snd (enterpriseInit backend projectConfig environmentName) in
    ((exists msg, out = Threw (ConfigurationError msg)) <->
     JS.truthy token = true /\ missing = true) /\
    (JS.truthy token = true /\ missing = true -> calls = [ReadAuthToken]) /\
    (JS.truthy token = false ->
     out = Returned {| clientAuthToken := token; secrets := [] |} /\
     calls = [ReadAuthToken]) /\
    (JS.truthy token = true /\ missing = false ->
     exists tok d pid,
       token = Some tok /\ domain projectConfig = Some d /\
       id projectConfig = Some pid /\
       if checkClientAuthToken backend tok d
       then out = Returned {| clientAuthToken := token;
                              secrets := getSecrets backend pid d tok
                                                    environmentName |} /\
            calls = [ReadAuthToken; CheckClientAuthToken tok d;
                     GetSecrets pid d tok environmentName]
       else out = Returned {| clientAuthToken := token; secrets := [] |} /\
            calls = [ReadAuthToken; CheckClientAuthToken tok d;
                     Warn expiredMessage]).
Proof.
  intros backend projectConfig environmentName token missing calls out.
  subst calls out. unfold enterpriseInit. fold token.
  destruct (JS.truthy token) eqn:Htok.
  - destruct (JS.truthy (domain projectConfig)) eqn:Hdom;
      destruct (JS.truthy (id projectConfig)) eqn:Hid;
      subst missing; cbn [negb orb app List.length Nat.ltb Nat.leb fst snd].
    + destruct (truthy_is_Some _ Htok) as [tok Etok].
      destruct (truthy_is_Some _ Hdom) as [d Edom].
      destruct (truthy_is_Some _ Hid) as [pid Eid].
      rewrite Etok, Edom, Eid.
      destruct (checkClientAuthToken backend tok d) eqn:Hchk;
        cbn [fst snd]; (split; [|split; [|split]]).
      * split; [intros [msg H]; discriminate H | intros [_ H]; discriminate H].
      * intros [_ H]. discriminate H.
      * intros H. discriminate H.
      * intros _. exists tok, d, pid. rewrite Hchk. auto.
      * split; [intros [msg H]; discriminate H | intros [_ H]; discriminate H].
      * intros [_ H]. discriminate H.
      * intros H. discriminate H.
      * intros _. exists tok, d, pid. rewrite Hchk. auto.
    + split; [|split; [|split]].
      * split; [auto | intros _; eexists; reflexivity].
      * auto.
      * intros H. discriminate H.
      * intros [_ H]. discriminate H.
    + split; [|split; [|split]].
      * split; [auto | intros _; eexists; reflexivity].
      * auto.
      * intros H. discriminate H.
      * intros [_ H]. discriminate H.
    + split; [|split; [|split]].
      * split; [auto | intros _; eexists; reflexivity].
      * auto.
      * intros H. discriminate H.
      * intros [_ H]. discriminate H.
  - cbn [fst snd]. split; [|split; [|split]].
    + split; [intros [msg H]; discriminate H | intros [H _]; discriminate H].
    + intros [H _]. discriminate H.
    + auto.
    + intros [H _]. discriminate H.
Qed.

End EnterpriseFacts.

(* ------------------------------------------------------------------ *)
(** ** The kubectl wrapper *)

Module KubectlFacts.

Import Kubectl.

Lemma flag_given name s : s <> "" -> flag name (Some s) = [String.append name s].
Proof.
  intros H. unfold flag. apply JSFacts.truthy_Some in H. now rewrite H.
Qed.

Lemma flag_absent name v : JS.truthy v = false -> flag name v = [].
Proof.
  unfold flag. destruct v as [s|]; [|reflexivity]. now intros ->.
Qed.

Lemma invoke_args e config p :
  args (params (invoke e config p)) =
  [String.append "--context=" (context config)]
    ++ flag "--kubeconfig=" (kubeconfig config)
    ++ flag "--namespace=" (namespace p)
    ++ flag "--kubeconfig=" (configPath p)
    ++ callerArgs e p.
Proof.
  assert (H : forall m q,
            args (params {| method := m; params := prepareArgs config q |}) =
            [String.append "--context=" (context config)]
              ++ flag "--kubeconfig=" (kubeconfig config)
              ++ flag "--namespace=" (namespace q)
              ++ flag "--kubeconfig=" (configPath q)
              ++ args q).
  { intros m q. cbn [params prepareArgs args].
    now rewrite <- !app_assoc. }
  destruct e; cbn [invoke callerArgs]; try apply H.
  unfold json, stdout.
  destruct (negb (JS.includes (args p) "--output=json")); apply H.
Qed.

(** C9: whichever of [stdout], [exec], [spawn], [spawnAndWait] and [json]
    is called, the forwarded arguments are the context option first, then
    the kubeconfig option when the provider has one, then the namespace
    option when the call gives one, and after the options the arguments
    of the caller in their order ([json] having appended "--output=json"
    to them when it was not there; a [configPath] of the call adds its own
    kubeconfig option as the last of the options). *)
Theorem kubectl_options_precede_caller_arguments :
  forall e config p,
    let sent := args (params (invoke e config p)) in
    let kc := flag "--kubeconfig=" (kubeconfig config) in
    let ns := flag "--namespace=" (namespace p) in
    sent = [String.append "--context=" (context config)] ++ kc ++ ns
             ++ flag "--kubeconfig=" (configPath p) ++ callerArgs e p /\
    hd_error sent = Some (String.append "--context=" (context config)) /\
    (forall s, kubeconfig config = Some s -> s <> "" ->
               nth_error sent 1 = Some (String.append "--kubeconfig=" s)) /\
    (JS.truthy (kubeconfig config) = false -> kc = []) /\
    (forall s, namespace p = Some s -> s <> "" ->
               nth_error sent (1 + List.length kc) =
               Some (String.append "--namespace=" s)) /\
    (JS.truthy (namespace p) = false -> ns = []) /\
    (exists tail, callerArgs e p = args p ++ tail /\
                  (tail = [] \/ (e = ViaJson /\ tail = ["--output=json"]))).
Proof.
  intros e config p sent kc ns. subst sent.
  rewrite invoke_args. fold kc ns.
  split; [reflexivity|]. split; [reflexivity|].
  split; [|split; [|split; [|split]]].
  - intros s Hs Hne. subst kc. rewrite Hs, (flag_given _ s Hne). reflexivity.
  - intros H. subst kc. now apply flag_absent.
  - intros s Hs Hne. subst ns. rewrite Hs, (flag_given _ s Hne).
    cbn [app]. change (1 + List.length kc) with (S (List.length kc)).
    cbn [nth_error]. rewrite nth_error_app2; [|lia].
    now rewrite Nat.sub_diag.
  - intros H. subst ns. now apply flag_absent.
  - destruct e; cbn [callerArgs];
      try solve [exists nil; rewrite app_nil_r; auto].
    destruct (negb (JS.includes (args p) "--output=json")).
    + exists ("--output=json" :: nil). auto.
    + exists nil. rewrite app_nil_r. auto.
Qed.

End KubectlFacts.

(* ------------------------------------------------------------------ *)
(** ** The workflow command *)

Module WorkflowFacts.

Import Workflow.

Section Facts.

Variables W Args Opts Spec : Type.
Variable parseCliArgs : list string -> Spec -> Spec -> Parsed Args Opts.
Variable merge : Opts -> Opts -> Opts.
Variable configs : list (StepCommandConfig W Args Opts Spec).
Variable inherited : Opts.

Local Abbreviation runStep := (runStepCommand parseCliArgs merge configs).
Local Abbreviation after := (worldAfter parseCliArgs merge configs inherited).

Lemma runSteps_ends todo : forall count index r,
  stretchEnds parseCliArgs merge configs inherited todo r
    (runSteps parseCliArgs merge configs inherited count index todo r).
Proof.
  induction todo as [|step rest IH]; intros count index r.
  - unfold stretchEnds. cbn. rewrite app_nil_r. auto.
  - cbn [runSteps].
    destruct (runStep (command step) inherited (world r)) as [w c] eqn:Hstep.
    destruct c as [|err].
    + specialize (IH count (S index)
                     {| world := w;
                        log := (log r ++ [StepHeader index count (description step)])
                                 ++ [StepDuration index count];
                        ran := ran r ++ [command step] |}).
      unfold stretchEnds in *.
      destruct (snd (runSteps parseCliArgs merge configs inherited count
                              (S index) rest _)) as [|err].
      * destruct IH as [Hran Hw]. cbn [ran world] in Hran, Hw. split.
        -- rewrite Hran, <- app_assoc. reflexivity.
        -- cbn [worldAfter]. rewrite Hstep. exact Hw.
      * destruct IH as [pre [s [post [w1 [Htodo [Hran [Hw Hthrow]]]]]]].
        cbn [ran world] in Hran, Hw.
        exists (step :: pre), s, post, w1. repeat split.
        -- now rewrite Htodo.
        -- rewrite Hran, <- app_assoc. reflexivity.
        -- cbn [worldAfter]. rewrite Hstep. exact Hw.
        -- exact Hthrow.
    + unfold stretchEnds. cbn [fst snd ran world].
      exists [], step, rest, (world r). repeat split. exact Hstep.
Qed.

End Facts.

(** C10: the action runs the steps of the workflow in their declared
    order, each from the world the one before left.  If none throws, all
    of them have run; if one throws, the action ends with that very error,
    the steps run are those up to and including the throwing one, and the
    world is as that step left it: no later step runs. *)
Theorem workflow_steps_run_in_order_until_one_throws :
  forall (W Args Opts Spec : Type)
         (parseCliArgs : list string -> Spec -> Spec -> Parsed Args Opts)
         (merge : Opts -> Opts -> Opts)
         (configs : list (StepCommandConfig W Args Opts Spec))
         (workflow : WorkflowConfig) (opts0 : Opts) (w : W),
    let res := RunWorkflowCommand_action parseCliArgs merge configs
                                         workflow opts0 w in
    match snd res with
    | Normal =>
        ran (fst res) = map command (steps workflow) /\
        worldAfter parseCliArgs merge configs opts0 (steps workflow) w =
        Some (world (fst res))
    | Thrown err =>
        exists pre step post w1,
          steps workflow = pre ++ step :: post /\
          ran (fst res) = map command (pre ++ [step]) /\
          worldAfter parseCliArgs merge configs opts0 pre w = Some w1 /\
          runStepCommand parseCliArgs merge configs (command step) opts0 w1 =
          (world (fst res), Thrown err)
    end.
Proof.
  intros W Args Opts Spec parseCliArgs merge configs workflow opts0 w res.
  subst res. unfold RunWorkflowCommand_action.
  pose proof (runSteps_ends W Args Opts Spec parseCliArgs merge configs opts0
                (steps workflow) (List.length (steps workflow)) 0
                {| world := w; log := [Header (name workflow)]; ran := [] |})
    as H.
  unfold stretchEnds in H.
  destruct (runSteps parseCliArgs merge configs opts0
                     (List.length (steps workflow)) 0 (steps workflow) _)
    as [r c].
  cbn [fst snd] in H. destruct c as [|err]; cbn [fst snd ran world] in *.
  - exact H.
  - exact H.
Qed.

End WorkflowFacts.

(* ------------------------------------------------------------------ *)
(** ** The sample projects, run *)

Module SampleRuns.

Import Samples.

Example chain_dependants_of_C :
  Graph.getDependents chain (module "C")
    {| Graph.kinds := Some [Graph.Build]; Graph.recursive := true |} =
  [module "B"; module "A"].
Proof. reflexivity. Qed.

Example chain_direct_dependants_of_C :
  Graph.getDependents chain (module "C")
    {| Graph.kinds := None; Graph.recursive := false |} = [module "B"].
Proof. reflexivity. Qed.

Example change_of_C_all_requested :
  map Task.targetName
      (BuildCommand.changeHandler chain ["A"; "B"; "C"] chain' (module "C")) =
  ["C"; "B"; "A"].
Proof. reflexivity. Qed.

Example change_of_C_only_A_requested :
  map Task.targetName
      (BuildCommand.changeHandler chain ["A"] chain' (module "C")) = ["A"].
Proof. reflexivity. Qed.

Example first_round_runs_dependencies_first :
  Engine.world (Engine.process logging chain 2 chainTasks [] []) =
  ["C"; "B"; "A"].
Proof. reflexivity. Qed.

(** Only A is requested: the round covers B and C, the tasks behind
    A's dependency keys, and runs them first. *)
Example request_of_A_runs_C_B_A :
  let s := Engine.process logging chain 2
                          (BuildCommand.p_initialTasks requestA) [] [] in
  Engine.world s = ["C"; "B"; "A"] /\
  Engine.executed s =
  Task.BuildTask_factory chain (module "C") false
    ++ Task.BuildTask_factory chain (module "B") false
    ++ Task.BuildTask_factory chain (module "A") false /\
  map (fun r => (Task.k_name (Engine.r_key r), Engine.outcome r, Engine.success r))
      (Engine.resultMap s) =
  [("A", Engine.Executed, true);
   ("B", Engine.Executed, true);
   ("C", Engine.Executed, true)].
Proof. repeat split. Qed.

Example failure_of_B_skips_A :
  let s := Engine.process (loggingFailOn "B") chain 2
                          (BuildCommand.p_initialTasks requestA) [] [] in
  Engine.world s = ["C"; "B"] /\
  map (fun r => (Task.k_name (Engine.r_key r), Engine.outcome r, Engine.success r))
      (Engine.resultMap s) =
  [("A", Engine.SkippedDueToDependencyFailure, false);
   ("B", Engine.Executed, false);
   ("C", Engine.Executed, true)].
Proof. split; reflexivity. Qed.

Example unforced_rerun_is_served_from_memo :
  let s := Engine.process logging chain 2 chainTasks [] [] in
  let s' := Engine.process logging chain 2 chainTasks
                           (Engine.settle s) (Engine.world s) in
  Engine.world s' = Engine.world s /\
  Engine.executed s' = [] /\
  map Engine.outcome (Engine.resultMap s') =
  [Engine.Cached; Engine.Cached; Engine.Cached].
Proof. repeat split. Qed.

Example three_submissions_one_run :
  let s := Engine.process succeed chain 2 thrice [] 0 in
  Engine.executed s = [lone] /\ Engine.world s = 1.
Proof. split; reflexivity. Qed.

(** Only A is requested and C changes: the handler returns the task of A
    alone, made on the graph of the first round; the round on the
    refreshed snapshot runs C at its new version, serves B from the memo
    under the key A still names, and runs A. *)
Example change_of_C_with_only_A_requested :
  map (fun s => (Engine.world s,
                 map (fun r => (Task.k_name (Engine.r_key r),
                                Task.k_version (Engine.r_key r),
                                Engine.outcome r))
                     (Engine.resultMap s)))
      (Watch.processModules logging 2 requestA [] [(chain', module "C")]) =
  [(["C"; "B"; "A"],
    [("A", "v1-A", Engine.Executed); ("B", "v1-B", Engine.Executed);
     ("C", "v1-C", Engine.Executed)]);
   (["C"; "B"; "A"; "C"; "A"],
    [("A", "v1-A", Engine.Executed); ("B", "v1-B", Engine.Cached);
     ("C", "v2-C", Engine.Executed)])].
Proof. reflexivity. Qed.

Example init_without_token :
  Enterprise.enterpriseInit (backendWith None) noDomain "dev" =
  ([Enterprise.ReadAuthToken],
   Enterprise.Returned {| Enterprise.clientAuthToken := None;
                          Enterprise.secrets := [] |}).
Proof. reflexivity. Qed.

Example init_without_domain :
  exists msg,
    Enterprise.enterpriseInit (backendWith (Some "good")) noDomain "dev" =
    ([Enterprise.ReadAuthToken],
     Enterprise.Threw (Enterprise.ConfigurationError msg)).
Proof. eexists. reflexivity. Qed.

Example init_with_valid_token :
  Enterprise.enterpriseInit (backendWith (Some "good")) fullConfig "dev" =
  ([Enterprise.ReadAuthToken;
    Enterprise.CheckClientAuthToken "good" "https://garden.example.com";
    Enterprise.GetSecrets "project-1" "https://garden.example.com" "good" "dev"],
   Enterprise.Returned {| Enterprise.clientAuthToken := Some "good";
                          Enterprise.secrets := [("DB_PASSWORD", "hunter2")] |}).
Proof. reflexivity. Qed.

Example init_with_expired_token :
  Enterprise.enterpriseInit (backendWith (Some "stale")) fullConfig "dev" =
  ([Enterprise.ReadAuthToken;
    Enterprise.CheckClientAuthToken "stale" "https://garden.example.com";
    Enterprise.Warn Enterprise.expiredMessage],
   Enterprise.Returned {| Enterprise.clientAuthToken := Some "stale";
                          Enterprise.secrets := [] |}).
Proof. reflexivity. Qed.

Example kubectl_json_get_pods :
  Kubectl.args
    (Kubectl.params
       (Kubectl.json
          {| Kubectl.context := "dev-cluster"; Kubectl.kubeconfig := Some "/k/config" |}
          {| Kubectl.namespace := Some "apps"; Kubectl.configPath := None;
             Kubectl.args := ["get"; "pods"] |})) =
  ["--context=dev-cluster"; "--kubeconfig=/k/config"; "--namespace=apps";
   "get"; "pods"; "--output=json"].
Proof. reflexivity. Qed.

Example kubectl_exec_with_configPath :
  Kubectl.args
    (Kubectl.params
       (Kubectl.exec
          {| Kubectl.context := "dev-cluster"; Kubectl.kubeconfig := None |}
          {| Kubectl.namespace := None; Kubectl.configPath := Some "/tmp/kc";
             Kubectl.args := ["version"] |})) =
  ["--context=dev-cluster"; "--kubeconfig=/tmp/kc"; "version"].
Proof. reflexivity. Qed.

Example workflow_all_steps :
  let res := runSample [["build"]; ["build"; "--force"]] in
  snd res = Workflow.Normal /\
  Workflow.ran (fst res) = [["build"]; ["build"; "--force"]] /\
  Workflow.world (fst res) = 2 /\
  Workflow.log (fst res) =
  [Workflow.Header "sample";
   Workflow.StepHeader 0 2 None; Workflow.StepDuration 0 2;
   Workflow.StepHeader 1 2 None; Workflow.StepDuration 1 2;
   Workflow.Completed "sample"].
Proof. repeat split. Qed.

Example workflow_stops_at_throwing_step :
  let res := runSample [["build"]; ["run"; "fail"]; ["build"]] in
  snd res = Workflow.Thrown (Workflow.CommandError "boom") /\
  Workflow.ran (fst res) = [["build"]; ["run"; "fail"]] /\
  Workflow.world (fst res) = 1.
Proof. repeat split. Qed.

Example workflow_unknown_command :
  snd (runSample [["deploy"]; ["build"]]) = Workflow.Thrown Workflow.TypeError.
Proof. reflexivity. Qed.

End SampleRuns.

(* ------------------------------------------------------------------ *)
(** ** More on the workflow command *)

Module WorkflowMoreFacts.

Import Workflow WorkflowLog.

Lemma list_eqb_eq a : forall b, list_eqb a b = true <-> a = b.
Proof.
  induction a as [|x a IH]; intros [|y b]; cbn; split; try discriminate; auto.
  - intros H. apply andb_true_iff in H. destruct H as [Hx Hab].
    apply String.eqb_eq in Hx. apply IH in Hab. now subst.
  - intros [= -> ->]. rewrite String.eqb_refl. now apply IH.
Qed.

Lemma firstn_prefix (p r : list string) : firstn (List.length p) (p ++ r) = p.
Proof. induction p as [|x p IH]; cbn; [reflexivity | now rewrite IH]. Qed.

Lemma skipn_prefix (p r : list string) : skipn (List.length p) (p ++ r) = r.
Proof. induction p as [|x p IH]; cbn; [reflexivity | exact IH]. Qed.

Lemma prefix_matches p spec :
  list_eqb p (JS.take spec (List.length p)) = true <-> startsWith spec p.
Proof.
  unfold JS.take, startsWith. rewrite list_eqb_eq. split.
  - intros H. exists (skipn (List.length p) spec).
    rewrite H at 1. symmetry. apply firstn_skipn.
  - intros [rest ->]. symmetry. apply firstn_prefix.
Qed.

Lemma find_first (A : Type) (f : A -> bool) l x :
  find f l = Some x ->
  exists before after,
    l = before ++ x :: after /\ f x = true /\
    forall y, In y before -> f y = false.
Proof.
  induction l as [|a l IH]; cbn; [discriminate|].
  destruct (f a) eqn:Ha.
  - intros [= ->]. exists [], l. repeat split; auto. intros y [].
  - intros H. destruct (IH H) as [before [after [Hl [Hx Hb]]]].
    exists (a :: before), after. repeat split.
    + now rewrite Hl.
    + assumption.
    + intros y [<-|Hy]; auto.
Qed.

Section Facts.

Variables W Args Opts Spec : Type.
Variable parseCliArgs : list string -> Spec -> Spec -> Parsed Args Opts.
Variable merge : Opts -> Opts -> Opts.
Variable configs : list (StepCommandConfig W Args Opts Spec).
Variable inherited : Opts.

Lemma runSteps_log todo : forall count index r,
  let res := runSteps parseCliArgs merge configs inherited count index todo r in
  match snd res with
  | Normal =>
      log (fst res) = log r ++ stepLines count index todo
  | Thrown _ =>
      exists pre step post,
        todo = pre ++ step :: post /\
        ran (fst res) = ran r ++ map command (pre ++ [step]) /\
        log (fst res) =
        log r ++ stepLines count index pre
              ++ [StepHeader (index + List.length pre) count (description step)]
  end.
Proof.
  induction todo as [|step rest IH]; intros count index r; cbn zeta.
  - cbn. now rewrite app_nil_r.
  - cbn [runSteps].
    destruct (runStepCommand parseCliArgs merge configs (command step)
                             inherited (world r)) as [w c].
    destruct c as [|err].
    + specialize (IH count (S index)
                     {| world := w;
                        log := (log r ++ [StepHeader index count (description step)])
                                 ++ [StepDuration index count];
                        ran := ran r ++ [command step] |}).
      cbn zeta in IH.
      destruct (snd (runSteps parseCliArgs merge configs inherited count
                              (S index) rest _)) as [|err].
      * rewrite IH. cbn [log stepLines]. now rewrite <- !app_assoc.
      * destruct IH as [pre [s [post [Htodo [Hran Hlog]]]]].
        exists (step :: pre), s, post. split; [now rewrite Htodo|]. split.
        -- rewrite Hran. cbn [ran map app]. now rewrite <- app_assoc.
        -- rewrite Hlog. cbn [log stepLines List.length].
           rewrite <- !app_assoc. cbn [app].
           now rewrite Nat.add_succ_r.
    + cbn [fst snd log ran]. exists [], step, rest.
      cbn [app stepLines List.length map]. rewrite Nat.add_0_r.
      auto.
Qed.

End Facts.

(** X1: [runStepCommand] picks the first configuration, in the order of
    [stepCommandConfigs], whose prefix starts the command; what it parses
    is the command less that prefix, and the parsed options are merged
    over the inherited ones.  When no prefix starts the command it throws
    a [TypeError] and the world is as it was. *)
Theorem step_command_goes_to_first_matching_prefix :
  forall (W Args Opts Spec : Type)
         (parseCliArgs : list string -> Spec -> Spec -> Parsed Args Opts)
         (merge : Opts -> Opts -> Opts)
         (configs : list (StepCommandConfig W Args Opts Spec))
         (commandSpec : list string) (inheritedOpts : Opts) (w : W),
    let res := runStepCommand parseCliArgs merge configs commandSpec
                              inheritedOpts w in
    ((forall c, In c configs -> ~ startsWith commandSpec (prefix c)) /\
     res = (w, Thrown TypeError)) \/
    (exists before config after rest,
        configs = before ++ config :: after /\
        (forall c, In c before -> ~ startsWith commandSpec (prefix c)) /\
        commandSpec = prefix config ++ rest /\
        res = match parseCliArgs rest (args config) (opts config) with
              | Rejected e => (w, Thrown e)
              | ParsedAs a o =>
                  action (cmdClass config) w a (merge inheritedOpts o)
              end).
Proof.
  intros W Args Opts Spec parseCliArgs merge configs commandSpec inheritedOpts w res.
  subst res. unfold runStepCommand.
  destruct (find (fun c => list_eqb (prefix c)
                              (JS.take commandSpec (List.length (prefix c))))
                 configs) as [config|] eqn:Hfind.
  - right. apply find_first in Hfind.
    destruct Hfind as [before [after [Hl [Hm Hb]]]].
    apply prefix_matches in Hm. destruct Hm as [rest Hrest].
    exists before, config, after, rest. repeat split; auto.
    + intros c Hc Hs. apply prefix_matches in Hs.
      rewrite (Hb c Hc) in Hs. discriminate.
    + unfold JS.slice. rewrite Hrest at 1. now rewrite skipn_prefix.
  - left. split; [|reflexivity].
    intros c Hc Hs. apply prefix_matches in Hs.
    pose proof (find_none _ _ Hfind c Hc) as Hn. cbn in Hn.
    rewrite Hn in Hs. discriminate.
Qed.

(** X2: the log of a workflow run.  When every step completes it is the
    header of the workflow, then for each step in order its header and
    its duration line, numbered from 0, then the completion line.  When a
    step throws it ends with the header of that step: the step has no
    duration line and the workflow no completion line. *)
Theorem workflow_log_ends_at_throwing_step :
  forall (W Args Opts Spec : Type)
         (parseCliArgs : list string -> Spec -> Spec -> Parsed Args Opts)
         (merge : Opts -> Opts -> Opts)
         (configs : list (StepCommandConfig W Args Opts Spec))
         (workflow : WorkflowConfig) (opts0 : Opts) (w : W),
    let res := RunWorkflowCommand_action parseCliArgs merge configs
                                         workflow opts0 w in
    let n := List.length (steps workflow) in
    match snd res with
    | Normal =>
        log (fst res) =
        [Header (name workflow)] ++ stepLines n 0 (steps workflow)
                                 ++ [Completed (name workflow)]
    | Thrown _ =>
        exists pre step post,
          steps workflow = pre ++ step :: post /\
          ran (fst res) = map command (pre ++ [step]) /\
          log (fst res) =
          [Header (name workflow)] ++ stepLines n 0 pre
            ++ [StepHeader (List.length pre) n (description step)]
    end.
Proof.
  intros W Args Opts Spec parseCliArgs merge configs workflow opts0 w res n.
  subst res n. unfold RunWorkflowCommand_action.
  pose proof (runSteps_log W Args Opts Spec parseCliArgs merge configs opts0
                (steps workflow) (List.length (steps workflow)) 0
                {| world := w; log := [Header (name workflow)]; ran := [] |})
    as H.
  cbn zeta in H.
  destruct (runSteps parseCliArgs merge configs opts0
                     (List.length (steps workflow)) 0 (steps workflow) _)
    as [r c].
  cbn [fst snd] in H. destruct c as [|err]; cbn [fst snd log ran] in *.
  - rewrite H. now rewrite <- app_assoc.
  - exact H.
Qed.

End WorkflowMoreFacts.

(* ------------------------------------------------------------------ *)
(** ** More on the kubectl wrapper *)

Module KubectlMoreFacts.

Import Kubectl KubectlOptions.

Lemma prepareArgs_args config p :
  args (prepareArgs config p) = options config p ++ args p.
Proof. unfold prepareArgs, options. cbn [args]. now rewrite <- !app_assoc. Qed.

Lemma prepareArgs_keeps config p :
  namespace (prepareArgs config p) = namespace p /\
  configPath (prepareArgs config p) = configPath p.
Proof. split; reflexivity. Qed.

Lemma options_prepared config p :
  options config (prepareArgs config p) = options config p.
Proof. reflexivity. Qed.

Lemma invoke_options e config p :
  args (params (invoke e config p)) = options config p ++ callerArgs e p /\
  namespace (params (invoke e config p)) = namespace p /\
  configPath (params (invoke e config p)) = configPath p.
Proof.
  destruct e; cbn [invoke callerArgs];
    try (unfold stdout, exec, spawn, spawnAndWait; cbn [params];
         rewrite prepareArgs_args; auto).
  unfold json, stdout. cbn [params].
  destruct (negb (JS.includes (args p) "--output=json"));
    rewrite prepareArgs_args; auto.
Qed.

Lemma flag_elements name v x :
  In x (flag name v) -> exists s, x = String.append name s.
Proof.
  unfold flag. destruct v as [s|]; [|intros []].
  destruct (JS.truthy (Some s)); [|intros []].
  intros [<-|[]]. eauto.
Qed.

Lemma options_not_json config p : jsonFlags (options config p) = 0.
Proof.
  unfold jsonFlags. apply count_occ_not_In. unfold options. intros Hin.
  repeat (apply in_app_or in Hin; destruct Hin as [Hin|Hin]).
  - destruct Hin as [H|[]]. cbn in H. discriminate H.
  - apply flag_elements in Hin. destruct Hin as [s H]. cbn in H. discriminate H.
  - apply flag_elements in Hin. destruct Hin as [s H]. cbn in H. discriminate H.
  - apply flag_elements in Hin. destruct Hin as [s H]. cbn in H. discriminate H.
Qed.

Lemma includes_count l :
  JS.includes l "--output=json" = false <-> jsonFlags l = 0.
Proof.
  unfold jsonFlags. rewrite <- count_occ_not_In.
  rewrite <- (JSFacts.includes_In l "--output=json").
  destruct (JS.includes l "--output=json"); split; congruence.
Qed.

(** X3: a wrapper method replaces [params.args] in the object it is
    given, so calling a second method with the same object puts the
    options before the arguments a second time: the second invocation
    gets the options twice, then what the first caller passed. *)
Theorem reused_params_get_the_options_twice :
  forall e1 e2 config p,
    let first := params (invoke e1 config p) in
    let second := params (invoke e2 config first) in
    exists tail,
      args second =
      options config p ++ options config p ++ callerArgs e1 p ++ tail /\
      (tail = [] \/ (e2 = ViaJson /\ tail = ["--output=json"])) /\
      List.length (args p) < List.length (args first) /\
      List.length (args first) < List.length (args second).
Proof.
  intros e1 e2 config p first second. subst second first.
  destruct (invoke_options e1 config p) as [H1 [Hn1 Hc1]].
  destruct (invoke_options e2 config (params (invoke e1 config p)))
    as [H2 _].
  assert (Hopts : options config (params (invoke e1 config p)) =
                  options config p).
  { unfold options. now rewrite Hn1, Hc1. }
  rewrite Hopts in H2.
  assert (Hlen : 0 < List.length (options config p)).
  { unfold options. cbn. lia. }
  assert (Hcaller1 : List.length (args p) <= List.length (callerArgs e1 p)).
  { destruct e1; cbn [callerArgs]; try lia.
    destruct (negb (JS.includes (args p) "--output=json")); [|lia].
    rewrite length_app. lia. }
  assert (Hcaller2 : exists tail,
             callerArgs e2 (params (invoke e1 config p)) =
             args (params (invoke e1 config p)) ++ tail /\
             (tail = [] \/ (e2 = ViaJson /\ tail = ["--output=json"]))).
  { destruct e2; cbn [callerArgs];
      try solve [exists nil; rewrite app_nil_r; auto].
    destruct (negb (JS.includes (args (params (invoke e1 config p)))
                                "--output=json")).
    - exists ("--output=json" :: nil). auto.
    - exists nil. rewrite app_nil_r. auto. }
  destruct Hcaller2 as [tail [Hc2 Htail]].
  exists tail. split; [|split; [exact Htail|split]].
  - rewrite H2, Hc2, H1. now rewrite <- !app_assoc.
  - rewrite H1, length_app. lia.
  - rewrite H2, Hc2, !length_app. lia.
Qed.

(** X4: [json] forwards "--output=json" as often as the caller passed it,
    and once when the caller did not pass it: the flag is never
    duplicated by the wrapper and never left out. *)
Theorem json_passes_the_output_flag_once :
  forall config p,
    jsonFlags (args (params (json config p))) =
    Nat.max 1 (jsonFlags (args p)).
Proof.
  intros config p.
  destruct (invoke_options ViaJson config p) as [H _].
  cbn [invoke] in H. rewrite H. unfold jsonFlags at 1.
  rewrite count_occ_app. fold (jsonFlags (options config p)).
  rewrite options_not_json. cbn [callerArgs Nat.add].
  destruct (JS.includes (args p) "--output=json") eqn:Hinc; cbn [negb].
  - fold (jsonFlags (args p)).
    assert (jsonFlags (args p) <> 0).
    { intros H0. apply includes_count in H0. congruence. }
    lia.
  - rewrite count_occ_app. fold (jsonFlags (args p)).
    apply includes_count in Hinc. rewrite Hinc. reflexivity.
Qed.

End KubectlMoreFacts.

(* ------------------------------------------------------------------ *)
(** ** kubectl commands *)

Module JSObjectFacts.

Import JSObject.

Lemma get_set_same k v o : get k (set k v o) = Some v.
Proof.
  induction o as [|[k' v'] o IH]; cbn.
  - now rewrite String.eqb_refl.
  - destruct (String.eqb k' k) eqn:E; cbn; now rewrite E.
Qed.

Lemma get_set_other k k' v o : k' <> k -> get k' (set k v o) = get k' o.
Proof.
  intros Hne. induction o as [|[k0 v0] o IH]; cbn.
  - destruct (String.eqb k k') eqn:E; [|reflexivity].
    apply String.eqb_eq in E. congruence.
  - destruct (String.eqb k0 k) eqn:E; cbn.
    + apply String.eqb_eq in E. subst k0.
      destruct (String.eqb k k') eqn:E'; [|reflexivity].
      apply String.eqb_eq in E'. congruence.
    + destruct (String.eqb k0 k'); [reflexivity | exact IH].
Qed.

Lemma get_delete_same k o : get k (delete k o) = None.
Proof.
  unfold delete. induction o as [|[k' v'] o IH]; cbn; [reflexivity|].
  destruct (String.eqb k' k) eqn:E; cbn; [exact IH|]. now rewrite E.
Qed.

Lemma get_delete_other k k' o : k' <> k -> get k' (delete k o) = get k' o.
Proof.
  intros Hne. unfold delete. induction o as [|[k0 v0] o IH]; cbn; [reflexivity|].
  destruct (String.eqb k0 k) eqn:E; cbn.
  - apply String.eqb_eq in E. subst k0.
    destruct (String.eqb k k') eqn:E'; [|exact IH].
    apply String.eqb_eq in E'. congruence.
  - destruct (String.eqb k0 k'); [reflexivity | exact IH].
Qed.

Lemma delete_absent k o : get k o = None -> delete k o = o.
Proof.
  unfold delete. induction o as [|[k' v'] o IH]; cbn; [reflexivity|].
  destruct (String.eqb k' k); [discriminate|]. cbn. intros H. now rewrite IH.
Qed.

Lemma set_absent k v o : get k o = None -> set k v o = o ++ [(k, v)].
Proof.
  induction o as [|[k' v'] o IH]; cbn; [reflexivity|].
  destruct (String.eqb k' k); [discriminate|]. intros H. now rewrite IH.
Qed.

Lemma delete_appended k v o : get k o = None -> delete k (o ++ [(k, v)]) = o.
Proof.
  intros H. unfold delete. rewrite filter_app. cbn.
  rewrite String.eqb_refl. cbn. rewrite app_nil_r.
  now apply delete_absent.
Qed.

End JSObjectFacts.

Module KubectlCommandsFacts.

Import KubectlCommands.

(** ** Objects in memory *)

Lemma length_updateAt (A : Type) (f : A -> A) l : forall i,
  List.length (updateAt i f l) = List.length l.
Proof.
  induction l as [|x l IH]; intros [|i]; cbn; auto.
Qed.

Lemma nth_updateAt_same (A : Type) (f : A -> A) d l : forall i,
  i < List.length l -> nth i (updateAt i f l) d = f (nth i l d).
Proof.
  induction l as [|x l IH]; intros [|i] Hi; cbn in *; try lia; auto.
  apply IH. lia.
Qed.

Lemma nth_updateAt_other (A : Type) (f : A -> A) d l : forall i j,
  i <> j -> nth j (updateAt i f l) d = nth j l d.
Proof.
  induction l as [|x l IH]; intros [|i] [|j] Hij; cbn; auto;
    try contradiction; try (apply IH; lia).
Qed.

Lemma updateAt_twice (A : Type) (f g : A -> A) l : forall i,
  updateAt i f (updateAt i g l) = updateAt i (fun x => f (g x)) l.
Proof.
  induction l as [|x l IH]; intros [|i]; cbn; auto.
  now rewrite IH.
Qed.

Lemma distinct_NoDup l : distinct l = true <-> NoDup l.
Proof.
  induction l as [|x l IH]; cbn.
  - split; [constructor | reflexivity].
  - rewrite andb_true_iff, negb_true_iff, IH. split.
    + intros [Hx Hl]. constructor; [|assumption].
      intros Hin. assert (existsb (Nat.eqb x) l = true); [|congruence].
      apply existsb_exists. exists x. split; [assumption | apply Nat.eqb_refl].
    + intros H. inversion H as [|? ? Hx Hl]; subst. split; [|assumption].
      destruct (existsb (Nat.eqb x) l) eqn:E; [|reflexivity].
      apply existsb_exists in E. destruct E as [y [Hy Hxy]].
      apply Nat.eqb_eq in Hxy. subst y. contradiction.
Qed.

Lemma sound_refs mem i a :
  sound mem = true ->
  o_annotations (metadataAt mem i) = Some a ->
  a < List.length (annotationObjects mem).
Proof.
  unfold sound, metadataAt. rewrite forallb_forall. intros Hs Ha.
  destruct (Nat.lt_ge_cases i (List.length (metadataObjects mem))) as [Hi|Hi].
  - specialize (Hs _ (nth_In _ {| o_name := ""; o_annotations := None |} Hi)).
    rewrite Ha in Hs. now apply Nat.ltb_lt.
  - rewrite nth_overflow in Ha by assumption. discriminate Ha.
Qed.

Lemma sound_intro mem :
  (forall i a, o_annotations (metadataAt mem i) = Some a ->
               a < List.length (annotationObjects mem)) ->
  sound mem = true.
Proof.
  intros H. unfold sound. apply forallb_forall. intros o Ho.
  destruct (o_annotations o) as [a|] eqn:Ha; [|reflexivity].
  apply Nat.ltb_lt.
  destruct (In_nth _ _ {| o_name := ""; o_annotations := None |} Ho)
    as [i [_ Hi]].
  apply (H i). unfold metadataAt. now rewrite Hi.
Qed.

Lemma NoDup_app_apart (A : Type) (l l' : list A) a :
  NoDup (l ++ l') -> In a l -> ~ In a l'.
Proof.
  induction l as [|x l IH]; cbn; intros Hnd Hin; [destruct Hin|].
  inversion Hnd as [|? ? Hx Hnd']; subst.
  destruct Hin as [->|Hin]; [|now apply IH].
  intros Ha. apply Hx. apply in_or_app. now right.
Qed.

Section Facts.

Variables Body Json Input : Type.
Variable gardenAnnotationKey : string -> string.
Variable hashManifest : KubernetesResource Body -> string.
Variable encodeYamlMulti : list (KubernetesResource Body) -> Input.
Variable JSONparse : string -> option Json.
Variable kubectlStdout : Kubectl.Invocation -> Input -> string.

Local Abbreviation key := (gardenAnnotationKey "manifest-hash").
Local Abbreviation seen := (hashedManifest gardenAnnotationKey).
Local Abbreviation annotate := (annotateManifest gardenAnnotationKey hashManifest).

Lemma seen_annotations (m : KubernetesResource Body) :
  annotations (metadata (seen m)) =
  Some (if JS.truthy (JSObject.get key (annotationsOf m))
        then JSObject.delete key (annotationsOf m) else annotationsOf m).
Proof. reflexivity. Qed.

Lemma seen_not_hashed (m : KubernetesResource Body) : JS.truthy (JSObject.get key (annotationsOf (seen m))) = false.
Proof.
  unfold annotationsOf. rewrite seen_annotations. fold (annotationsOf m).
  destruct (JS.truthy (JSObject.get key (annotationsOf m))) eqn:E.
  - now rewrite JSObjectFacts.get_delete_same.
  - exact E.
Qed.

Lemma annotate_annotations (m : KubernetesResource Body) :
  annotations (metadata (annotate m)) =
  Some (JSObject.set key (hashManifest (seen m)) (annotationsOf (seen m))).
Proof. reflexivity. Qed.

Lemma annotate_facts (m : KubernetesResource Body) :
  JSObject.get key (annotationsOf (annotate m)) = Some (hashManifest (seen m)) /\
  (forall k, k <> key ->
             JSObject.get k (annotationsOf (annotate m)) = JSObject.get k (annotationsOf m)) /\
  kind (annotate m) = kind m /\
  name (metadata (annotate m)) = name (metadata m) /\
  body (annotate m) = body m.
Proof.
  split; [|split; [|repeat split]].
  - unfold annotationsOf at 1. rewrite annotate_annotations.
    apply JSObjectFacts.get_set_same.
  - intros k Hk. unfold annotationsOf at 1. rewrite annotate_annotations.
    rewrite JSObjectFacts.get_set_other by assumption.
    unfold annotationsOf at 1. rewrite seen_annotations.
    destruct (JS.truthy (JSObject.get key (annotationsOf m))); [|reflexivity].
    now apply JSObjectFacts.get_delete_other.
Qed.

Lemma seen_again (m : KubernetesResource Body) :
  hashManifest (seen m) <> "" ->
  JSObject.get key (annotationsOf m) <> Some "" ->
  seen (annotate m) = seen m.
Proof.
  intros Hh He.
  assert (Hnone : JSObject.get key (annotationsOf (seen m)) = None).
  { pose proof (seen_not_hashed m) as Hs.
    unfold annotationsOf in *. rewrite seen_annotations in *. fold (annotationsOf m) in *.
    destruct (JS.truthy (JSObject.get key (annotationsOf m))) eqn:E.
    - apply JSObjectFacts.get_delete_same.
    - destruct (JSObject.get key (annotationsOf m)) as [v|] eqn:Eg; [|reflexivity].
      cbn in E. apply negb_false_iff, String.eqb_eq in E. subst v.
      contradiction. }
  unfold hashedManifest at 1.
  change (match annotations (metadata (annotate m)) with
          | Some a => a | None => [] end) with (annotationsOf (annotate m)).
  destruct (annotate_facts m) as [Hget _]. rewrite Hget.
  apply JSFacts.truthy_Some in Hh. rewrite Hh.
  unfold annotationsOf at 1. rewrite annotate_annotations.
  rewrite (JSObjectFacts.set_absent _ _ _ Hnone).
  rewrite (JSObjectFacts.delete_appended _ _ _ Hnone).
  unfold withAnnotations, annotationsOf. rewrite seen_annotations.
  reflexivity.
Qed.


(** ** The loop of [apply], in place *)

Local Abbreviation turn := (annotateInPlace gardenAnnotationKey hashManifest).

(** What a turn writes: at most the annotations address of the
    manifest's metadata object, when it had none, and the annotations
    object at one address. *)
Lemma turn_shape mem (m : Manifest Body) :
  exists a F,
    (o_annotations (metadataAt mem (m_metadata m)) = Some a \/
     (o_annotations (metadataAt mem (m_metadata m)) = None /\
      a = List.length (annotationObjects mem))) /\
    metadataObjects (turn mem m) =
    match o_annotations (metadataAt mem (m_metadata m)) with
    | Some _ => metadataObjects mem
    | None => updateAt (m_metadata m)
                       (fun o => {| o_name := o_name o; o_annotations := Some a |})
                       (metadataObjects mem)
    end /\
    annotationObjects (turn mem m) =
    updateAt a F
             match o_annotations (metadataAt mem (m_metadata m)) with
             | Some _ => annotationObjects mem
             | None => annotationObjects mem ++ [[]]
             end.
Proof.
  unfold annotateInPlace.
  destruct (o_annotations (metadataAt mem (m_metadata m))) as [a|] eqn:Ha.
  - exists a.
    destruct (JS.truthy (JSObject.get key (annotationsAt mem a))).
    + eexists. split; [now left|]. split; [reflexivity|].
      cbn [onAnnotations annotationObjects]. apply updateAt_twice.
    + eexists. split; [now left|]. split; reflexivity.
  - exists (List.length (annotationObjects mem)). unfold newAnnotations.
    match goal with
    | |- context [if ?c then _ else _] => destruct c
    end.
    + eexists. split; [now right|]. split; [reflexivity|].
      cbn [onAnnotations annotationObjects]. apply updateAt_twice.
    + eexists. split; [now right|]. split; reflexivity.
Qed.

Lemma turn_metadata_length mem (m : Manifest Body) :
  List.length (metadataObjects (turn mem m)) = List.length (metadataObjects mem).
Proof.
  destruct (turn_shape mem m) as [a [F [_ [Hm _]]]]. rewrite Hm.
  destruct (o_annotations (metadataAt mem (m_metadata m)));
    [reflexivity | apply length_updateAt].
Qed.

Lemma turn_annotations_length mem (m : Manifest Body) :
  List.length (annotationObjects mem) <=
  List.length (annotationObjects (turn mem m)).
Proof.
  destruct (turn_shape mem m) as [a [F [_ [_ Ha]]]]. rewrite Ha.
  rewrite length_updateAt.
  destruct (o_annotations (metadataAt mem (m_metadata m))); [lia|].
  rewrite length_app. cbn. lia.
Qed.

Lemma turn_metadata_other mem (m : Manifest Body) j :
  j <> m_metadata m -> metadataAt (turn mem m) j = metadataAt mem j.
Proof.
  intros Hj. destruct (turn_shape mem m) as [a [F [_ [Hm _]]]].
  unfold metadataAt at 1. rewrite Hm.
  destruct (o_annotations (metadataAt mem (m_metadata m))); [reflexivity|].
  unfold metadataAt. apply nth_updateAt_other. congruence.
Qed.

(** The annotations addresses after a turn are those from before and,
    for a metadata object that had no annotations, a new one. *)
Lemma turn_refs mem (m r : Manifest Body) a :
  In a (annotationRefs (turn mem m) r) ->
  In a (annotationRefs mem r) \/
  (a = List.length (annotationObjects mem) /\
   o_annotations (metadataAt mem (m_metadata m)) = None).
Proof.
  unfold annotationRefs.
  destruct (Nat.eq_dec (m_metadata r) (m_metadata m)) as [Heq|Hne].
  - rewrite Heq. destruct (turn_shape mem m) as [a' [F [Hcase [Hm _]]]].
    unfold metadataAt at 1. rewrite Hm.
    destruct (o_annotations (metadataAt mem (m_metadata m))) as [a0|] eqn:H0.
    + fold (metadataAt mem (m_metadata m)). rewrite H0. now left.
    + destruct Hcase as [Hc|[_ ->]]; [discriminate Hc|].
      destruct (Nat.lt_ge_cases (m_metadata m)
                                (List.length (metadataObjects mem))) as [Hi|Hi].
      * rewrite nth_updateAt_same by assumption. cbn.
        intros [<-|[]]. now right.
      * rewrite nth_overflow by (rewrite length_updateAt; assumption).
        intros [].
  - rewrite (turn_metadata_other mem m _ Hne). now left.
Qed.

Lemma turn_refs_other mem (m r : Manifest Body) :
  m_metadata r <> m_metadata m ->
  annotationRefs (turn mem m) r = annotationRefs mem r.
Proof.
  intros Hne. unfold annotationRefs.
  now rewrite (turn_metadata_other mem m _ Hne).
Qed.

Lemma refs_in_range mem (r : Manifest Body) a :
  sound mem = true -> In a (annotationRefs mem r) ->
  a < List.length (annotationObjects mem).
Proof.
  intros Hs. unfold annotationRefs.
  destruct (o_annotations (metadataAt mem (m_metadata r))) as [a0|] eqn:Ha;
    [|intros []].
  intros [<-|[]]. exact (sound_refs mem _ _ Hs Ha).
Qed.

Lemma turn_sound mem (m : Manifest Body) :
  sound mem = true -> sound (turn mem m) = true.
Proof.
  intros Hs. apply sound_intro. intros i a Ha.
  pose proof (turn_annotations_length mem m) as Hlen.
  assert (Hin : In a (annotationRefs (turn mem m)
                        {| m_kind := ""; m_metadata := i; m_body := m_body m |})).
  { unfold annotationRefs. cbn [m_metadata]. rewrite Ha. now left. }
  apply turn_refs in Hin. destruct Hin as [Hin|[-> Hnone]].
  - apply (refs_in_range mem _ a Hs) in Hin. lia.
  - destruct (turn_shape mem m) as [a' [F [_ [_ Hann]]]].
    rewrite Hann, length_updateAt, Hnone. cbv iota.
    rewrite length_app. cbn. lia.
Qed.

Lemma turn_inMemory mem (m r : Manifest Body) :
  inMemory mem r = true -> inMemory (turn mem m) r = true.
Proof. unfold inMemory. now rewrite turn_metadata_length. Qed.

Lemma load_onAnnotations mem (m : Manifest Body) a f :
  o_annotations (metadataAt mem (m_metadata m)) = Some a ->
  a < List.length (annotationObjects mem) ->
  load (onAnnotations a f mem) m =
  withAnnotations (load mem m) (f (annotationsAt mem a)).
Proof.
  intros Ha Hlt. unfold load, withAnnotations.
  cbn [kind metadata name body].
  change (metadataAt (onAnnotations a f mem) (m_metadata m))
    with (metadataAt mem (m_metadata m)).
  rewrite Ha. cbn [option_map]. do 3 f_equal.
  unfold annotationsAt, onAnnotations. cbn [annotationObjects].
  now apply nth_updateAt_same.
Qed.

(** A turn leaves the manifest it is at as [annotateManifest] of what it
    found there. *)
Lemma turn_self mem (m : Manifest Body) :
  sound mem = true -> inMemory mem m = true ->
  load (turn mem m) m = annotate (load mem m).
Proof.
  intros Hs Hin. unfold inMemory in Hin. apply Nat.ltb_lt in Hin.
  unfold annotateInPlace.
  destruct (o_annotations (metadataAt mem (m_metadata m))) as [a|] eqn:Ha.
  - pose proof (sound_refs mem _ _ Hs Ha) as Hlt.
    assert (Hv : annotations (metadata (load mem m)) =
                 Some (annotationsAt mem a)).
    { unfold load. cbn [metadata annotations]. now rewrite Ha. }
    destruct (JS.truthy (JSObject.get key (annotationsAt mem a))) eqn:Ht.
    + set (mem2 := onAnnotations a (JSObject.delete key) mem).
      assert (H2 : load mem2 m =
                   withAnnotations (load mem m)
                                   (JSObject.delete key (annotationsAt mem a)))
        by (apply load_onAnnotations; assumption).
      assert (Ha2 : o_annotations (metadataAt mem2 (m_metadata m)) = Some a)
        by exact Ha.
      assert (Hl2 : a < List.length (annotationObjects mem2)).
      { unfold mem2, onAnnotations. cbn [annotationObjects].
        now rewrite length_updateAt. }
      assert (Hat2 : annotationsAt mem2 a =
                     JSObject.delete key (annotationsAt mem a)).
      { unfold annotationsAt, mem2, onAnnotations. cbn [annotationObjects].
        now apply nth_updateAt_same. }
      rewrite (load_onAnnotations mem2 m a _ Ha2 Hl2), Hat2, H2.
      unfold annotateManifest, hashedManifest. rewrite Hv, Ht. reflexivity.
    + rewrite (load_onAnnotations mem m a _ Ha Hlt).
      assert (Hid : withAnnotations (load mem m) (annotationsAt mem a) =
                    load mem m).
      { unfold withAnnotations, load. cbn [kind metadata name body].
        now rewrite Ha. }
      unfold annotateManifest, hashedManifest. rewrite Hv, Ht, Hid, Hv.
      reflexivity.
  - unfold newAnnotations.
    set (a := List.length (annotationObjects mem)).
    set (mem1 := {| metadataObjects := _; annotationObjects := _ |}).
    assert (Hat : annotationsAt mem1 a = []).
    { unfold annotationsAt, mem1. cbn [annotationObjects]. unfold a.
      now rewrite nth_middle. }
    assert (Hmd : metadataAt mem1 (m_metadata m) =
                  {| o_name := o_name (metadataAt mem (m_metadata m));
                     o_annotations := Some a |}).
    { unfold metadataAt, mem1. cbn [metadataObjects].
      now rewrite nth_updateAt_same by assumption. }
    assert (Ha1 : o_annotations (metadataAt mem1 (m_metadata m)) = Some a)
      by now rewrite Hmd.
    assert (Hl1 : a < List.length (annotationObjects mem1)).
    { unfold mem1. cbn [annotationObjects]. rewrite length_app. cbn.
      unfold a. lia. }
    assert (H1 : load mem1 m = withAnnotations (load mem m) []).
    { unfold load, withAnnotations. cbn [kind metadata name body].
      rewrite Hmd. cbn [o_name o_annotations option_map]. now rewrite Hat. }
    assert (Hv : annotations (metadata (load mem m)) = None).
    { unfold load. cbn [metadata annotations]. now rewrite Ha. }
    rewrite Hat. cbn [JSObject.get JS.truthy].
    rewrite (load_onAnnotations mem1 m a _ Ha1 Hl1), Hat, H1.
    unfold annotateManifest, hashedManifest. rewrite Hv.
    cbn [JSObject.get JS.truthy]. reflexivity.
Qed.

(** A turn leaves alone a manifest that shares neither the metadata
    object nor the annotations object of the manifest it is at. *)
Lemma turn_frame mem (m x : Manifest Body) :
  sound mem = true ->
  m_metadata x <> m_metadata m ->
  (forall a, In a (annotationRefs mem x) -> ~ In a (annotationRefs mem m)) ->
  load (turn mem m) x = load mem x.
Proof.
  intros Hs Hne Hdis. unfold load.
  rewrite (turn_metadata_other mem m _ Hne).
  destruct (o_annotations (metadataAt mem (m_metadata x))) as [b|] eqn:Hb;
    [|reflexivity].
  cbn [option_map]. do 3 f_equal.
  pose proof (sound_refs mem _ _ Hs Hb) as Hlt.
  assert (Hbx : In b (annotationRefs mem x)).
  { unfold annotationRefs. rewrite Hb. now left. }
  destruct (turn_shape mem m) as [a [F [Hcase [_ Hann]]]].
  unfold annotationsAt. rewrite Hann.
  assert (Hab : a <> b).
  { destruct Hcase as [Ha|[_ ->]]; [|lia].
    intros ->. apply (Hdis b Hbx). unfold annotationRefs. rewrite Ha. now left. }
  rewrite nth_updateAt_other by assumption.
  destruct (o_annotations (metadataAt mem (m_metadata m))); [reflexivity|].
  now apply app_nth1.
Qed.

Lemma loop_sound (ms : list (Manifest Body)) : forall mem,
  sound mem = true -> sound (fold_left turn ms mem) = true.
Proof.
  induction ms as [|m ms IH]; intros mem Hs; cbn; [assumption|].
  apply IH. now apply turn_sound.
Qed.

(** The loop leaves alone a manifest that shares nothing with the
    manifests it goes through. *)
Lemma loop_frame (ms : list (Manifest Body)) : forall mem (x : Manifest Body),
  sound mem = true ->
  (forall m, In m ms -> m_metadata x <> m_metadata m) ->
  (forall m a, In m ms -> In a (annotationRefs mem x) ->
               ~ In a (annotationRefs mem m)) ->
  load (fold_left turn ms mem) x = load mem x.
Proof.
  induction ms as [|m ms IH]; intros mem x Hs Hne Hdis; cbn; [reflexivity|].
  rewrite IH.
  - apply turn_frame; auto.
    + apply Hne. now left.
    + intros a. apply Hdis. now left.
  - now apply turn_sound.
  - intros r Hr. apply Hne. now right.
  - intros r a Hr Ha Har.
    rewrite turn_refs_other in Ha by (apply Hne; now left).
    apply turn_refs in Har. destruct Har as [Har|[-> _]].
    + exact (Hdis r a (or_intror Hr) Ha Har).
    + pose proof (refs_in_range mem x _ Hs Ha). lia.
Qed.

Lemma refs_unchanged mem (m : Manifest Body) (rs : list (Manifest Body)) :
  (forall r, In r rs -> m_metadata r <> m_metadata m) ->
  flat_map (annotationRefs (turn mem m)) rs = flat_map (annotationRefs mem) rs.
Proof.
  induction rs as [|r rs IH]; intros Hother; [reflexivity|].
  cbn. rewrite turn_refs_other by (apply Hother; now left).
  f_equal. apply IH. intros r' Hr'. apply Hother. now right.
Qed.

(** When no two manifests share an object, the loop leaves each as
    [annotateManifest] of what it was. *)
Lemma loop_annotates (ms : list (Manifest Body)) : forall mem,
  sound mem = true ->
  (forall m, In m ms -> inMemory mem m = true) ->
  NoDup (map (@m_metadata Body) ms) ->
  NoDup (flat_map (annotationRefs mem) ms) ->
  map (@load Body (fold_left turn ms mem)) ms =
  map (fun m => annotate (load mem m)) ms.
Proof.
  induction ms as [|m ms IH]; intros mem Hs Hin Hmd Hrefs; [reflexivity|].
  cbn [map fold_left flat_map] in *.
  inversion Hmd as [|? ? Hm Hmd']; subst.
  assert (Hother : forall r, In r ms -> m_metadata r <> m_metadata m).
  { intros r Hr Heq. apply Hm. rewrite <- Heq. now apply in_map. }
  f_equal.
  - rewrite loop_frame.
    + apply turn_self; [assumption|]. apply Hin. now left.
    + now apply turn_sound.
    + intros r Hr Heq. apply (Hother r Hr). now symmetry.
    + intros r a Hr Ha Har.
      rewrite turn_refs_other in Har by now apply Hother.
      apply turn_refs in Ha. destruct Ha as [Ha|[-> _]].
      * apply (NoDup_app_apart _ _ _ a Hrefs Ha).
        apply in_flat_map. exists r. auto.
      * pose proof (refs_in_range mem r _ Hs Har). lia.
  - rewrite IH.
    + apply map_ext_in. intros r Hr. f_equal.
      apply turn_frame; auto.
      intros a Ha Ham.
      apply (NoDup_app_apart _ _ _ a Hrefs Ham).
      apply in_flat_map. exists r. auto.
    + now apply turn_sound.
    + intros r Hr. apply turn_inMemory. apply Hin. now right.
    + assumption.
    + rewrite (refs_unchanged mem m ms Hother).
      exact (NoDup_app_remove_l _ _ Hrefs).
Qed.

End Facts.

(** X5: [apply] works on the objects of its manifests in place.  When no
    two of the manifests share a metadata object or an annotations
    object, it leaves every manifest with a manifest-hash annotation that
    is the hash of the manifest as it was without a (non-empty) hash
    annotation; every other annotation, the kind, the name and the rest
    of the manifest are as before; and what is piped to kubectl is the
    encoding of the manifests as they are found in memory after the
    loop. *)
Theorem apply_annotates_with_hash_of_unhashed_manifest :
  forall (Body Json Input : Type)
         (gardenAnnotationKey : string -> string)
         (hashManifest : KubernetesResource Body -> string)
         (encodeYamlMulti : list (KubernetesResource Body) -> Input)
         (JSONparse : string -> option Json)
         (kubectlStdout : Kubectl.Invocation -> Input -> string)
         (p : ApplyParams Body) (mem : Memory),
    sound mem = true ->
    forallb (inMemory mem) (manifests p) = true ->
    separate mem (manifests p) = true ->
    let key := gardenAnnotationKey "manifest-hash" in
    let done := apply gardenAnnotationKey hashManifest encodeYamlMulti
                      JSONparse kubectlStdout p mem in
    memory done =
    fold_left (annotateInPlace gardenAnnotationKey hashManifest)
              (manifests p) mem /\
    annotated done = map (load (memory done)) (manifests p) /\
    input done = encodeYamlMulti (annotated done) /\
    Forall2
      (fun m m' =>
         let hashed := hashedManifest gardenAnnotationKey m in
         JS.truthy (JSObject.get key (annotationsOf hashed)) = false /\
         JSObject.get key (annotationsOf m') = Some (hashManifest hashed) /\
         (forall k, k <> key ->
                    JSObject.get k (annotationsOf m') = JSObject.get k (annotationsOf m)) /\
         kind m' = kind m /\
         name (metadata m') = name (metadata m) /\
         body m' = body m)
      (map (load mem) (manifests p)) (annotated done).
Proof.
  intros Body Json Input gak hashManifest encodeYamlMulti JSONparse
         kubectlStdout p mem Hs Hin Hsep key done.
  subst done. unfold apply. cbn [memory input annotated].
  split; [reflexivity|]. split; [reflexivity|]. split; [reflexivity|].
  unfold separate in Hsep. apply andb_true_iff in Hsep.
  destruct Hsep as [Hmd Hrefs].
  apply distinct_NoDup in Hmd. apply distinct_NoDup in Hrefs.
  rewrite forallb_forall in Hin.
  rewrite (loop_annotates Body gak hashManifest (manifests p) mem
             Hs Hin Hmd Hrefs).
  clear Hin Hmd Hrefs.
  induction (manifests p) as [|m ms IH]; cbn [map]; constructor; [|exact IH].
  cbn zeta. split; [apply seen_not_hashed|].
  apply annotate_facts.
Qed.

(** X14: the loop of [apply] writes to the objects themselves.  When one
    manifest is listed twice, its second turn finds it as the first turn
    left it: both entries are encoded as [annotateManifest] applied
    twice to what the manifest was, the hash being that of the manifest
    with the first hash taken off again when it is not the empty
    string. *)
Theorem listed_twice_is_annotated_twice :
  forall (Body Json Input : Type)
         (gardenAnnotationKey : string -> string)
         (hashManifest : KubernetesResource Body -> string)
         (encodeYamlMulti : list (KubernetesResource Body) -> Input)
         (JSONparse : string -> option Json)
         (kubectlStdout : Kubectl.Invocation -> Input -> string)
         (p : ApplyParams Body) (mem : Memory) (m : Manifest Body),
    sound mem = true ->
    inMemory mem m = true ->
    manifests p = [m; m] ->
    let done := apply gardenAnnotationKey hashManifest encodeYamlMulti
                      JSONparse kubectlStdout p mem in
    let twice := annotateManifest gardenAnnotationKey hashManifest
                   (annotateManifest gardenAnnotationKey hashManifest
                                     (load mem m)) in
    annotated done = [twice; twice] /\
    input done = encodeYamlMulti [twice; twice].
Proof.
  intros Body Json Input gak hashManifest encodeYamlMulti JSONparse
         kubectlStdout p mem m Hs Hin Hp done twice.
  assert (Hann : annotated done = [twice; twice]).
  { subst done twice. unfold apply. cbn [annotated]. rewrite Hp.
    cbn [fold_left map].
    rewrite (turn_self Body gak hashManifest _ m
               (turn_sound Body gak hashManifest mem m Hs)
               (turn_inMemory Body gak hashManifest mem m m Hin)).
    now rewrite (turn_self Body gak hashManifest mem m Hs Hin). }
  split; [exact Hann|].
  rewrite <- Hann. reflexivity.
Qed.

(** X6: annotating a manifest that [apply] has annotated before changes
    nothing, provided the hash is not the empty string and the manifest
    did not come with an empty manifest-hash annotation: the hash does
    not depend on the hash annotation of an earlier [apply]. *)
Theorem annotating_again_changes_nothing :
  forall (Body : Type)
         (gardenAnnotationKey : string -> string)
         (hashManifest : KubernetesResource Body -> string)
         (m : KubernetesResource Body),
    hashManifest (hashedManifest gardenAnnotationKey m) <> "" ->
    JSObject.get (gardenAnnotationKey "manifest-hash") (annotationsOf m) <> Some "" ->
    annotateManifest gardenAnnotationKey hashManifest
      (annotateManifest gardenAnnotationKey hashManifest m) =
    annotateManifest gardenAnnotationKey hashManifest m.
Proof.
  intros Body gak hashManifest m Hh He.
  unfold annotateManifest at 1.
  rewrite (seen_again Body gak hashManifest m Hh He).
  reflexivity.
Qed.

End KubectlCommandsFacts.

Module KubectlCommandsRuns.

Import KubectlCommands MoreSamples.

(** An annotated deployment stays as it is when annotated again. *)
Lemma annotating_again_changes_nothing_witness :
  annotateManifest annotationKey sampleHash
    (annotateManifest annotationKey sampleHash
       (deployment (Some [("owner", "team-a")]))) =
  annotateManifest annotationKey sampleHash
    (deployment (Some [("owner", "team-a")])).
Proof.
  apply (KubectlCommandsFacts.annotating_again_changes_nothing
           unit annotationKey sampleHash
           (deployment (Some [("owner", "team-a")]))).
  - vm_compute. discriminate.
  - vm_compute. discriminate.
Defined.

(** Two deployments with a metadata object each: the first gets an
    annotations object with the hash, the second keeps its owner. *)
Lemma apply_annotates_with_hash_of_unhashed_manifest_witness :
  let key := annotationKey "manifest-hash" in
  let p := applyOf [deploymentAt 0; deploymentAt 1] in
  let done := apply annotationKey sampleHash (fun ms => ms)
                    (fun _ : string => @None unit) (fun _ _ => "")
                    p twoObjects in
  map annotationsOf (annotated done) =
  [[("garden.io/manifest-hash", "api")];
   [("owner", "team-a"); ("garden.io/manifest-hash", "api+")]] /\
  input done = annotated done /\
  Forall2
    (fun m m' =>
       let hashed := hashedManifest annotationKey m in
       JS.truthy (JSObject.get key (annotationsOf hashed)) = false /\
       JSObject.get key (annotationsOf m') = Some (sampleHash hashed) /\
       (forall k, k <> key ->
                  JSObject.get k (annotationsOf m') = JSObject.get k (annotationsOf m)) /\
       kind m' = kind m /\
       name (metadata m') = name (metadata m) /\
       body m' = body m)
    (map (load twoObjects) (manifests p)) (annotated done).
Proof.
  split; [reflexivity|].
  destruct (KubectlCommandsFacts.apply_annotates_with_hash_of_unhashed_manifest
              unit unit (list (KubernetesResource unit))
              annotationKey sampleHash (fun ms => ms)
              (fun _ : string => @None unit) (fun _ _ => "")
              (applyOf [deploymentAt 0; deploymentAt 1]) twoObjects
              eq_refl eq_refl eq_refl) as [_ [_ [Hinput Hall]]].
  split; [exact Hinput | exact Hall].
Defined.

(** The deployment listed twice, with an empty hash annotation to start
    from: the first turn hashes it with that annotation, the second
    without, and both entries are encoded with the second hash. *)
Lemma listed_twice_is_annotated_twice_witness :
  let done := apply annotationKey sampleHash (fun ms => ms)
                    (fun _ : string => @None unit) (fun _ _ => "")
                    (applyOf [deploymentAt 0; deploymentAt 0]) emptyHash in
  map annotationsOf (annotated done) =
  [[("garden.io/manifest-hash", "api")];
   [("garden.io/manifest-hash", "api")]] /\
  input done = annotated done.
Proof.
  destruct (KubectlCommandsFacts.listed_twice_is_annotated_twice
              unit unit (list (KubernetesResource unit))
              annotationKey sampleHash (fun ms => ms)
              (fun _ : string => @None unit) (fun _ _ => "")
              (applyOf [deploymentAt 0; deploymentAt 0]) emptyHash
              (deploymentAt 0) eq_refl eq_refl eq_refl) as [Hann Hinput].
  split.
  - rewrite Hann. reflexivity.
  - rewrite Hinput, Hann. reflexivity.
Defined.

(** Two manifests that share one metadata object fare like one listed
    twice. *)
Example shared_metadata_is_annotated_twice :
  let other : Manifest unit :=
    {| m_kind := "Service"; m_metadata := 0; m_body := tt |} in
  map annotationsOf
      (annotated (apply annotationKey sampleHash (fun ms => ms)
                        (fun _ : string => @None unit) (fun _ _ => "")
                        (applyOf [deploymentAt 0; other]) emptyHash)) =
  [[("garden.io/manifest-hash", "api")];
   [("garden.io/manifest-hash", "api")]].
Proof. reflexivity. Qed.

Example annotated_deployment :
  annotationsOf
    (annotateManifest annotationKey sampleHash
       (deployment (Some [("garden.io/manifest-hash", "old"); ("owner", "team-a")]))) =
  [("owner", "team-a"); ("garden.io/manifest-hash", "api+")].
Proof. reflexivity. Qed.

(** With an empty hash annotation to start from, the first hash covers
    that annotation and the second does not. *)
Example empty_hash_annotation_is_hashed :
  let m := deployment (Some [("garden.io/manifest-hash", "")]) in
  annotationsOf (annotateManifest annotationKey sampleHash m) =
  [("garden.io/manifest-hash", "api+")] /\
  annotationsOf
    (annotateManifest annotationKey sampleHash
       (annotateManifest annotationKey sampleHash m)) =
  [("garden.io/manifest-hash", "api")].
Proof. split; reflexivity. Qed.

End KubectlCommandsRuns.

Module KubectlCommandLines.

Import KubectlCommands.

Lemma namespace_flag ns :
  Kubectl.flag "--namespace=" (Some ns) =
  if String.eqb ns "" then [] else [String.append "--namespace=" ns].
Proof. unfold Kubectl.flag. cbn. destruct (String.eqb ns ""); reflexivity. Qed.

Lemma stdout_sends config ns rest :
  Kubectl.args (Kubectl.params
    (Kubectl.stdout config
       {| Kubectl.namespace := ns; Kubectl.configPath := None;
          Kubectl.args := rest |})) =
  [String.append "--context=" (Kubectl.context config)]
    ++ Kubectl.flag "--kubeconfig=" (Kubectl.kubeconfig config)
    ++ Kubectl.flag "--namespace=" ns
    ++ rest.
Proof.
  unfold Kubectl.stdout, Kubectl.prepareArgs. cbn.
  now rewrite <- !app_assoc.
Qed.

(** X7: with [dryRun], [pruneSelector] and [validate] left out (or the
    selector empty), [apply] makes one kubectl call, through [stdout]:
    the context, the provider's kubeconfig and the namespace when there
    are any, then "apply --output=json -f -".  There is no dry run, no
    pruning and no "--validate=false" by default. *)
Theorem apply_default_command_line :
  forall (Body Json Input : Type)
         (gardenAnnotationKey : string -> string)
         (hashManifest : KubernetesResource Body -> string)
         (encodeYamlMulti : list (KubernetesResource Body) -> Input)
         (JSONparse : string -> option Json)
         (kubectlStdout : Kubectl.Invocation -> Input -> string)
         (p : ApplyParams Body) (mem : Memory),
    dryRun p = None -> validate p = None ->
    JS.truthy (pruneSelector p) = false ->
    let call := invocation (apply gardenAnnotationKey hashManifest
                                  encodeYamlMulti JSONparse kubectlStdout
                                  p mem) in
    Kubectl.method call = Kubectl.Stdout /\
    Kubectl.args (Kubectl.params call) =
    [String.append "--context=" (Kubectl.context (provider p))]
      ++ Kubectl.flag "--kubeconfig=" (Kubectl.kubeconfig (provider p))
      ++ Kubectl.flag "--namespace=" (namespace p)
      ++ ["apply"; "--output=json"; "-f"; "-"].
Proof.
  intros Body Json Input gak hashManifest encodeYamlMulti JSONparse
         kubectlStdout p mem Hdry Hval Hprune call.
  subst call. unfold apply. cbn [invocation]. split; [reflexivity|].
  rewrite stdout_sends. unfold applyArgs. rewrite Hdry, Hval.
  cbn [orDefault negb].
  destruct (pruneSelector p) as [sel|]; [rewrite Hprune|]; reflexivity.
Qed.

(** X8: [deleteResources] makes one kubectl call that names every
    resource once, in the order given, as kind/name after
    "delete --wait=true --ignore-not-found=true"; with no resources the
    call is made all the same, naming nothing.  The namespace option is
    passed only for a non-empty namespace. *)
Theorem delete_names_each_resource_once :
  forall (Body : Type) (p : DeleteResourcesParams Body),
    let sent := Kubectl.args (Kubectl.params (deleteResources p)) in
    Kubectl.method (deleteResources p) = Kubectl.Stdout /\
    sent =
    [String.append "--context=" (Kubectl.context (dr_provider p))]
      ++ Kubectl.flag "--kubeconfig=" (Kubectl.kubeconfig (dr_provider p))
      ++ (if String.eqb (dr_namespace p) "" then []
          else [String.append "--namespace=" (dr_namespace p)])
      ++ ["delete"; "--wait=true"; "--ignore-not-found=true"]
      ++ map target (dr_resources p)
      ++ (if orDefault false (dr_includeUninitialized p)
          then ["--include-uninitialized"] else []) /\
    (dr_resources p = [] ->
     exists options flags,
       sent = options ++ ["delete"; "--wait=true"; "--ignore-not-found=true"]
                      ++ flags /\
       (flags = [] \/ flags = ["--include-uninitialized"])).
Proof.
  intros Body p sent. subst sent. split; [reflexivity|].
  unfold deleteResources. rewrite stdout_sends, namespace_flag.
  split.
  - now rewrite <- !app_assoc.
  - intros Hnone. rewrite Hnone. cbn [map]. rewrite app_nil_r.
    exists ([String.append "--context=" (Kubectl.context (dr_provider p))]
              ++ Kubectl.flag "--kubeconfig=" (Kubectl.kubeconfig (dr_provider p))
              ++ (if String.eqb (dr_namespace p) "" then []
                  else [String.append "--namespace=" (dr_namespace p)])),
           (if orDefault false (dr_includeUninitialized p)
            then ["--include-uninitialized"] else []).
    split.
    + now rewrite <- !app_assoc.
    + destruct (orDefault false (dr_includeUninitialized p)); auto.
Qed.

(** X9: [deleteObjectsBySelector] passes all object types as one
    argument, joined by commas (the empty string when there are none),
    so its call has the same number of arguments whatever the number of
    types: the options, "delete", the types, "-l", the selector,
    "--wait=true" and, when asked for, "--include-uninitialized". *)
Theorem delete_by_selector_joins_the_types :
  forall p : DeleteBySelectorParams,
    let sent := Kubectl.args (Kubectl.params (deleteObjectsBySelector p)) in
    let options :=
      [String.append "--context=" (Kubectl.context (ds_provider p))]
        ++ Kubectl.flag "--kubeconfig=" (Kubectl.kubeconfig (ds_provider p))
        ++ (if String.eqb (ds_namespace p) "" then []
            else [String.append "--namespace=" (ds_namespace p)]) in
    sent =
    options
      ++ ["delete"; String.concat "," (ds_objectTypes p); "-l"; ds_selector p;
          "--wait=true"]
      ++ (if orDefault false (ds_includeUninitialized p)
          then ["--include-uninitialized"] else []) /\
    List.length sent =
    List.length options + 5
    + (if orDefault false (ds_includeUninitialized p) then 1 else 0) /\
    (ds_objectTypes p = [] -> nth_error sent (S (List.length options)) = Some "").
Proof.
  intros p sent options.
  assert (Hsent : sent =
            options
              ++ ["delete"; String.concat "," (ds_objectTypes p); "-l";
                  ds_selector p; "--wait=true"]
              ++ (if orDefault false (ds_includeUninitialized p)
                  then ["--include-uninitialized"] else [])).
  { subst sent options. unfold deleteObjectsBySelector.
    rewrite stdout_sends, namespace_flag. now rewrite <- !app_assoc. }
  split; [exact Hsent|]. split.
  - rewrite Hsent, !length_app.
    destruct (orDefault false (ds_includeUninitialized p)); cbn; lia.
  - intros Hnone. rewrite Hsent, Hnone.
    rewrite nth_error_app2 by lia.
    replace (S (List.length options) - List.length options) with 1 by lia.
    reflexivity.
Qed.

(** With nothing optional given, the sample deployment is applied in the
    namespace "apps" of the context "dev". *)
Lemma apply_default_command_line_witness :
  let call := invocation (apply MoreSamples.annotationKey MoreSamples.sampleHash
                                (fun ms => List.length ms)
                                (fun _ : string => @None unit)
                                (fun _ _ => "")
                                MoreSamples.plainApply
                                MoreSamples.twoObjects) in
  Kubectl.method call = Kubectl.Stdout /\
  Kubectl.args (Kubectl.params call) =
  ["--context=dev"; "--namespace=apps"; "apply"; "--output=json"; "-f"; "-"].
Proof.
  exact (apply_default_command_line unit unit nat
           MoreSamples.annotationKey MoreSamples.sampleHash
           (fun ms => List.length ms) (fun _ : string => @None unit)
           (fun _ _ => "") MoreSamples.plainApply MoreSamples.twoObjects
           eq_refl eq_refl eq_refl).
Defined.

End KubectlCommandLines.

(* ------------------------------------------------------------------ *)
(** ** The command reference *)

Module CommandDocsFacts.

Import CommandDocs.

(** X10: the command reference describes exactly the commands that are
    not hidden and have no subcommands, and the subcommands that are not
    hidden.  A command with subcommands is never described itself, and
    whether it is hidden plays no part: its visible subcommands are
    described all the same. *)
Theorem reference_lists_visible_leaf_commands :
  forall (Command CommandClass Description Schema : Type)
         (subCommands : Command -> list CommandClass)
         (hidden : Command -> bool)
         (describe : Command -> Description)
         (construct : CommandClass -> Command -> Command)
         (outputsSchema : Description -> option Schema)
         (renderYaml : Schema -> string)
         (coreCommands : list Command) (d : Description),
    In d (map desc (commands subCommands hidden describe construct
                             outputsSchema renderYaml coreCommands)) <->
    exists cmd,
      In cmd coreCommands /\
      ((subCommands cmd = [] /\ hidden cmd = false /\ d = describe cmd) \/
       (exists cls, In cls (subCommands cmd) /\
                    hidden (construct cls cmd) = false /\
                    d = describe (construct cls cmd))).
Proof.
  intros Command CommandClass Description Schema subCommands hidden describe
         construct outputsSchema renderYaml coreCommands d.
  unfold commands. rewrite map_map. cbn [desc]. rewrite map_id.
  rewrite in_flat_map. split.
  - intros [cmd [Hcmd Hd]]. exists cmd. split; [assumption|].
    unfold describeVisible in Hd.
    destruct (subCommands cmd) as [|cls0 rest] eqn:Hsub.
    + left. destruct (hidden cmd); [destruct Hd|].
      destruct Hd as [<-|[]]. auto.
    + right. apply in_flat_map in Hd. destruct Hd as [cls [Hcls Hd]].
      exists cls. split; [assumption|].
      destruct (hidden (construct cls cmd)); [destruct Hd|].
      destruct Hd as [<-|[]]. auto.
  - intros [cmd [Hcmd H]]. exists cmd. split; [assumption|].
    unfold describeVisible.
    destruct H as [[Hsub [Hh ->]]|[cls [Hcls [Hh ->]]]].
    + rewrite Hsub, Hh. now left.
    + destruct (subCommands cmd) as [|cls0 rest] eqn:Hsub; [destruct Hcls|].
      apply in_flat_map. exists cls. split; [assumption|].
      rewrite Hh. now left.
Qed.

End CommandDocsFacts.

(* ------------------------------------------------------------------ *)
(** ** The build command's header, server and scope *)

Module BuildLifecycleFacts.

Import BuildLifecycle.

(** X11: whatever the options, [prepare] followed by [action] prints the
    Build header exactly once (in [prepare] when watching, in [action]
    otherwise); the server is started, and handed the garden before the
    builds are cleared, exactly when watching. *)
Theorem header_is_printed_once :
  forall opts,
    let effects := prepareThenAction opts {| server := false |} in
    count_occ Effect_eq_dec effects PrintHeader = 1 /\
    (In StartServer effects <-> BuildCommand.watch opts = true) /\
    (In SetGarden effects <-> BuildCommand.watch opts = true) /\
    exists before,
      effects = before ++ [ClearBuilds; GetConfigGraph; ProcessModules;
                           HandleProcessResults] /\
      ~ In ClearBuilds before.
Proof.
  intros opts effects. subst effects.
  unfold prepareThenAction, prepare, actionEffects, BuildCommand.isPersistent.
  destruct (BuildCommand.watch opts); cbn.
  - split; [reflexivity|]. split; [intuition|]. split; [intuition|].
    exists [PrintHeader; StartServer; SetGarden]. split; [reflexivity|].
    intros [H|[H|[H|[]]]]; discriminate H.
  - split; [reflexivity|]. split.
    { split; [|discriminate].
      intros [H|[H|[H|[H|[H|[]]]]]]; discriminate H. }
    split.
    { split; [|discriminate].
      intros [H|[H|[H|[H|[H|[]]]]]]; discriminate H. }
    exists [PrintHeader]. split; [reflexivity|].
    intros [H|[]]. discriminate H.
Qed.

End BuildLifecycleFacts.

Module BuildScopeFacts.

Import Graph Task BuildCommand.

(** X12: whatever the refreshed graph and whichever module changed, the
    change handler that [action] passes on builds tasks only for targets
    of the initial tasks of the same [action]: watching never widens what
    the command builds. *)
Theorem watch_never_widens_the_build :
  forall graph args opts newGraph module t,
    let p := action graph args opts in
    In t (p_changeHandler p newGraph module) ->
    In (targetName t) (map targetName (p_initialTasks p)) /\
    Task.kind t = Build.
Proof.
  intros graph args opts newGraph module t p Ht. subst p.
  unfold action in *. cbn [p_changeHandler p_initialTasks] in *.
  unfold initialTasks. rewrite BuildCommandFacts.factories_targets.
  destruct (BuildCommandFacts.change_task_origin _ _ _ _ _ Ht)
    as [_ [Hin _]].
  split; [exact Hin|].
  unfold changeHandler in Ht. apply BuildCommandFacts.In_factories in Ht.
  destruct Ht as [m [_ Ht]].
  apply BuildCommandFacts.factory_target in Ht. tauto.
Qed.

(** After a build of A alone on the chain, a change of C leads to a task
    for A, which is a target of the initial tasks. *)
Lemma watch_never_widens_the_build_witness :
  let p := action Samples.chain {| modules := Some ["A"] |}
                  {| BuildCommand.force := false; watch := true |} in
  let t := nth 0 (p_changeHandler p Samples.chain' (Samples.module "C"))
               Samples.lone in
  In (targetName t) (map targetName (p_initialTasks p)) /\
  Task.kind t = Build.
Proof.
  intros p t.
  apply (watch_never_widens_the_build Samples.chain {| modules := Some ["A"] |}
           {| BuildCommand.force := false; watch := true |}
           Samples.chain' (Samples.module "C") t).
  vm_compute. auto.
Defined.

End BuildScopeFacts.

(* ------------------------------------------------------------------ *)
(** ** The message of the configuration error *)

Module EnterpriseMessageFacts.

Import Enterprise.

(** X13: the message of the error that [enterpriseInit] throws names
    what is missing and nothing else: the note on the domain when the
    domain is missing, the note on the id when the id is missing, the
    domain first when both are, and at least one of them; and it always
    ends with the hint at logging out. *)
Theorem configuration_error_names_what_is_missing :
  forall backend projectConfig environmentName msg,
    snd (enterpriseInit backend projectConfig environmentName) =
    Threw (ConfigurationError msg) ->
    let notes :=
      (if JS.truthy (domain projectConfig) then [] else [domainMessage])
        ++ (if JS.truthy (id projectConfig) then [] else [idMessage]) in
    notes <> [] /\
    msg = String.append (String.concat (String.append nl nl) notes)
                        (String.append (String.append nl nl) logoutHint).
Proof.
  intros backend projectConfig environmentName msg.
  unfold enterpriseInit.
  destruct (JS.truthy (readAuthToken backend)); [|discriminate].
  destruct (JS.truthy (domain projectConfig)) eqn:Hd;
    destruct (JS.truthy (id projectConfig)) eqn:Hi;
    cbn [negb orb app List.length Nat.ltb Nat.leb fst snd].
  - destruct (readAuthToken backend), (domain projectConfig),
      (id projectConfig); try discriminate.
    destruct (checkClientAuthToken backend s s0); discriminate.
  - intros [= <-]. split; [discriminate | reflexivity].
  - intros [= <-]. split; [discriminate | reflexivity].
  - intros [= <-]. split; [discriminate | reflexivity].
Qed.

(** A stored token and no domain: the message is the note on the domain
    followed by the hint. *)
Lemma configuration_error_names_what_is_missing_witness :
  let notes := [domainMessage] in
  notes <> [] /\
  errorText [domainMessage] =
  String.append (String.concat (String.append nl nl) notes)
                (String.append (String.append nl nl) logoutHint).
Proof.
  exact (configuration_error_names_what_is_missing
           (Samples.backendWith (Some "good")) Samples.noDomain "dev"
           (errorText [domainMessage]) eq_refl).
Defined.

End EnterpriseMessageFacts.
